(** * TwixT board logic (twixt.js): a shallow embedding and its properties

    The development follows the class [Board] of [twixt.js]: the peg map,
    the two barrier arrays, the four mutating operations and the two
    queries.  Every method is a function from a board to a new board and
    the returned boolean.

    Modelling choices.
    - Peg coordinates are integers ([Z]); the user interface only ever
      builds pegs from grid indices.
    - The peg map is keyed by the strings ["x_y"] that
      [_stringifyPegTuple] builds, as in the source; a missing key
      ([undefined] in the source) is [None].  Integers are printed in
      decimal, as the source prints them up to 2^53 - 1 in absolute value
      (beyond, it rounds the digits, and from 1e21 on it switches to
      exponent notation, far outside the board).  [parseInt] reads an
      optional sign and decimal digits and gives [None] for NaN; the white space and the [0x] prefix
      it also accepts never occur in a key.
    - Numbers that come out of a division are values of [JsNum.num]:
      a rational, one of the two infinities, or NaN, with the IEEE rules
      for the non-finite cases.  Finite arithmetic is exact.  On barriers
      of squared length 5 (all the barriers of a reachable board, see
      [reachable_barriers_ok]) the slopes are 2, -2, 1/2 and -1/2, the
      crossing abscissa is the rounded quotient of an exact numerator by
      1, 3/2, 5/2 or 4, and a crossing coordinate that is not an integer
      is at least 1/8 away from every integer; the comparisons of the
      source against integer coordinates then have the same outcome with
      doubles as with rationals.  On forged boards with other barriers the
      model is the exact reading of the formulas, which the doubles of the source need
      not follow: what is proved of the crossing test is stated for
      reachable boards. *)

From Stdlib Require Import ZArith QArith Lia Lqa List Bool Ascii.
From stdpp Require Import gmap list strings pretty.

Local Open Scope Z_scope.

(** ** Numbers produced by [/] *)

Module JsNum.

Inductive num : Type :=
| Fin (q : Q)
| PInf
| NInf
| NaN.

Definition of_Z (z : Z) : num := Fin (inject_Z z).

Definition Qltb (a b : Q) : bool := negb (Qle_bool b a).

Definition neg (a : num) : num :=
  match a with
  | Fin q => Fin (Qopp q)
  | PInf => NInf
  | NInf => PInf
  | NaN => NaN
  end.

Definition add (a b : num) : num :=
  match a, b with
  | Fin p, Fin q => Fin (Qplus p q)
  | NaN, _ | _, NaN => NaN
  | PInf, NInf | NInf, PInf => NaN
  | PInf, _ | _, PInf => PInf
  | NInf, _ | _, NInf => NInf
  end.

Definition sub (a b : num) : num := add a (neg b).

(** Sign of a rational: [Gt] positive, [Lt] negative, [Eq] zero. *)
Definition sgn (q : Q) : comparison := Qcompare q (inject_Z 0).

Definition scale_inf (s : comparison) (pos : bool) : num :=
  match s with
  | Eq => NaN
  | Gt => if pos then PInf else NInf
  | Lt => if pos then NInf else PInf
  end.

Definition mul (a b : num) : num :=
  match a, b with
  | Fin p, Fin q => Fin (Qmult p q)
  | NaN, _ | _, NaN => NaN
  | Fin p, PInf | PInf, Fin p => scale_inf (sgn p) true
  | Fin p, NInf | NInf, Fin p => scale_inf (sgn p) false
  | PInf, PInf | NInf, NInf => PInf
  | PInf, NInf | NInf, PInf => NInf
  end.

(** Division.  A zero divisor only arises in the source as the difference
    of two equal integers, which is the positive zero. *)
Definition div (a b : num) : num :=
  match a, b with
  | NaN, _ | _, NaN => NaN
  | Fin p, Fin q =>
      if Qeq_bool q (inject_Z 0) then scale_inf (sgn p) true
      else Fin (Qdiv p q)
  | Fin _, (PInf | NInf) => Fin (inject_Z 0)
  | PInf, Fin q => if Qltb q (inject_Z 0) then NInf else PInf
  | NInf, Fin q => if Qltb q (inject_Z 0) then PInf else NInf
  | (PInf | NInf), (PInf | NInf) => NaN
  end.

(** [a < b] *)
Definition lt (a b : num) : bool :=
  match a, b with
  | Fin p, Fin q => Qltb p q
  | NaN, _ | _, NaN => false
  | NInf, (Fin _ | PInf) => true
  | Fin _, PInf => true
  | _, _ => false
  end.

(** [a > b] *)
Definition gt (a b : num) : bool := lt b a.

(** [a === b] *)
Definition eq (a b : num) : bool :=
  match a, b with
  | Fin p, Fin q => Qeq_bool p q
  | PInf, PInf | NInf, NInf => true
  | _, _ => false
  end.

End JsNum.


(** [between(val, end1, end2)] *)
Definition between (val end1 end2 : JsNum.num) : bool :=
  (JsNum.lt end1 val && JsNum.lt val end2)
  || (JsNum.gt end1 val && JsNum.gt val end2).

(** ** The data model *)

(** [Player] enum *)
Inductive Player : Type :=
| R  (* red *)
| B  (* black *)
| X. (* none *)

#[global] Instance Player_eq_dec : EqDecision Player.
Proof. solve_decision. Defined.

(** [class Peg] *)
Record Peg : Type := mkPeg { px : Z; py : Z }.

#[global] Instance Peg_eq_dec : EqDecision Peg.
Proof. solve_decision. Defined.

(** The methods of [Peg]. *)
Module PegOps.

(** [get asTuple()] *)
Definition asTuple (p : Peg) : Z * Z := (px p, py p).

(** [equals(peg)] *)
Definition equals (p q : Peg) : bool :=
  (px p =? px q) && (py p =? py q).

(** [gt(peg)]: first by x, then by y. *)
Definition gt (p q : Peg) : bool :=
  if px p =? px q then py q <? py p else px q <? px p.

(** [lt(peg)]: first by x, then by y. *)
Definition lt (p q : Peg) : bool :=
  if px p =? px q then py p <? py q else px p <? px q.

End PegOps.

(** A barrier as the arrays store it: [[peg1, peg2]]. *)
Definition Barrier : Type := (Peg * Peg)%type.

(** [class Board]: the fields. *)
Record Board : Type := mkBoard {
  pegState : gmap string Player;
  redBarrierState : list Barrier;
  blackBarrierState : list Barrier
}.

(** [_stringifyPegTuple(tuple)]: the string ["x_y"]. *)
Definition _stringifyPegTuple (tuple : Z * Z) : string :=
  pretty (fst tuple) +:+ "_" +:+ pretty (snd tuple).

(** [str.split(sep)] for a separator of one character. *)
Fixpoint split_on (sep : ascii) (str : string) : list string :=
  match str with
  | EmptyString => [EmptyString]
  | String c rest =>
      if Ascii.eqb c sep then EmptyString :: split_on sep rest
      else match split_on sep rest with
           | piece :: pieces => String c piece :: pieces
           | [] => [String c EmptyString]
           end
  end.

(** Value of a decimal digit: the characters of codes 48 to 57. *)
Definition digit_of (c : ascii) : option N :=
  let code := N_of_ascii c in
  if (48 <=? code)%N && (code <=? 57)%N then Some (code - 48)%N else None.

(** The digits at the front of a string; [acc] is [None] until a digit has
    been read. *)
Fixpoint parse_digits (acc : option N) (str : string) : option N :=
  match str with
  | EmptyString => acc
  | String c rest =>
      match digit_of c with
      | Some d => parse_digits (Some (default 0 acc * 10 + d)%N) rest
      | None => acc
      end
  end.

(** [parseInt(str)]; [None] is NaN. *)
Definition parseInt (str : string) : option Z :=
  match str with
  | String "-" rest => (λ n, - Z.of_N n) <$> parse_digits None rest
  | String "+" rest => Z.of_N <$> parse_digits None rest
  | _ => Z.of_N <$> parse_digits None str
  end.

(** [_destringifyPegTuple(str)]: [parseInt] of the first two pieces; a
    missing piece is [undefined], whose [parseInt] is NaN. *)
Definition _destringifyPegTuple (str : string) : option Z * option Z :=
  let split := split_on "_" str in
  (split !! 0%nat ≫= parseInt, split !! 1%nat ≫= parseInt).

(** [_setPeg(tuple, val)] *)
Definition _setPeg (b : Board) (tuple : Z * Z) (val : Player) : Board :=
  mkBoard (<[_stringifyPegTuple tuple := val]> (pegState b))
          (redBarrierState b) (blackBarrierState b).

(** [getPeg(tuple)] *)
Definition getPeg (b : Board) (tuple : Z * Z) : option Player :=
  pegState b !! _stringifyPegTuple tuple.

(** The indices [1 .. 24] of the two [for] loops. *)
Definition indices : list Z := seqZ 1 24.

(** [constructor()] *)
Definition new_Board : Board :=
  let empty := mkBoard ∅ [] [] in
  let filled :=
    foldl (fun b i => foldl (fun b j => _setPeg b (i, j) X) b indices) empty indices in
  mkBoard (pegState filled) [] [].

(** [placePeg(peg, color)] *)
Definition placePeg (b : Board) (peg : Peg) (color : Player) : Board * bool :=
  if bool_decide (color = R) && ((px peg =? 1) || (px peg =? 24)) then (b, false)
  else if bool_decide (color = B) && ((py peg =? 1) || (py peg =? 24)) then (b, false)
  else if negb (bool_decide (getPeg b (PegOps.asTuple peg) = Some X)) then (b, false)
  else (_setPeg b (PegOps.asTuple peg) color, true).

(** Slope of the line through two pegs: [(q.y - p.y) / (q.x - p.x)]. *)
Definition slope (p q : Peg) : JsNum.num :=
  JsNum.div (JsNum.of_Z (py q - py p)) (JsNum.of_Z (px q - px p)).

(** Abscissa of the crossing point of the two lines, as the source computes it:
    [(peg1.x*m1 - peg3.x*m3 + peg3.y - peg1.y) / (m1 - m3)]. *)
Definition cross_x (peg1 peg3 : Peg) (m1 m3 : JsNum.num) : JsNum.num :=
  JsNum.div
    (JsNum.sub
       (JsNum.add
          (JsNum.sub (JsNum.mul (JsNum.of_Z (px peg1)) m1)
                     (JsNum.mul (JsNum.of_Z (px peg3)) m3))
          (JsNum.of_Z (py peg3)))
       (JsNum.of_Z (py peg1)))
    (JsNum.sub m1 m3).

(** Ordinate of the crossing point: [m1*(x - peg1.x) + peg1.y]. *)
Definition cross_y (peg1 : Peg) (m1 x : JsNum.num) : JsNum.num :=
  JsNum.add (JsNum.mul m1 (JsNum.sub x (JsNum.of_Z (px peg1)))) (JsNum.of_Z (py peg1)).

(** Body of the loop of [placeBarrier] over the existing barriers: [true]
    when the iteration for [existing] executes [return false]. *)
Definition blocks (peg1 peg2 : Peg) (existing : Barrier) : bool :=
  let '(peg3, peg4) := existing in
  let m1 := slope peg1 peg2 in
  let m3 := slope peg3 peg4 in
  if JsNum.eq m1 m3 then
    (PegOps.equals peg1 peg3 && PegOps.equals peg2 peg4)
    || (PegOps.equals peg1 peg4 && PegOps.equals peg2 peg3)
  else
    let x := cross_x peg1 peg3 m1 m3 in
    let y := cross_y peg1 m1 x in
    between x (JsNum.of_Z (px peg1)) (JsNum.of_Z (px peg2))
    && between x (JsNum.of_Z (px peg3)) (JsNum.of_Z (px peg4))
    && between y (JsNum.of_Z (py peg1)) (JsNum.of_Z (py peg2))
    && between y (JsNum.of_Z (py peg3)) (JsNum.of_Z (py peg4)).

(** [peg1.lt(peg2) ? [peg1,peg2] : [peg2,peg1]] *)
Definition ordered (peg1 peg2 : Peg) : Barrier :=
  if PegOps.lt peg1 peg2 then (peg1, peg2) else (peg2, peg1).

(** Squared distance tested by [placeBarrier]. *)
Definition dist2 (peg1 peg2 : Peg) : Z :=
  (py peg2 - py peg1) ^ 2 + (px peg2 - px peg1) ^ 2.

(** [placeBarrier(peg1, peg2, color)] *)
Definition placeBarrier (b : Board) (peg1 peg2 : Peg) (color : Player) : Board * bool :=
  if negb (dist2 peg1 peg2 =? 5) then (b, false)
  else if negb (bool_decide (getPeg b (PegOps.asTuple peg1) = Some color))
          || negb (bool_decide (getPeg b (PegOps.asTuple peg2) = Some color)) then (b, false)
  else if existsb (blocks peg1 peg2) (redBarrierState b ++ blackBarrierState b)
  then (b, false)
  else
    let barrier := ordered peg1 peg2 in
    match color with
    | R => (mkBoard (pegState b) (redBarrierState b ++ [barrier]) (blackBarrierState b), true)
    | B => (mkBoard (pegState b) (redBarrierState b) (blackBarrierState b ++ [barrier]), true)
    | X => (b, false)
    end.

(** The callback of the two [filter] calls of [removePeg]. *)
Definition untouched (peg : Peg) (val : Barrier) : bool :=
  negb (PegOps.equals peg (fst val)) && negb (PegOps.equals peg (snd val)).

(** [removePeg(peg, color)] *)
Definition removePeg (b : Board) (peg : Peg) (color : Player) : Board * bool :=
  if bool_decide (getPeg b (PegOps.asTuple peg) = Some color) then
    let b' :=
      if bool_decide (color = R)
      then mkBoard (pegState b) (List.filter (untouched peg) (redBarrierState b))
                   (blackBarrierState b)
      else mkBoard (pegState b) (redBarrierState b)
                   (List.filter (untouched peg) (blackBarrierState b)) in
    (_setPeg b' (PegOps.asTuple peg) X, true)
  else (b, false).

(** The search loop of [removeBarrier]: [splice(i,1)] at the first index
    whose barrier matches, [None] when the loop runs to its end. *)
Fixpoint splice_first (barrier : Barrier) (barrierState : list Barrier)
  : option (list Barrier) :=
  match barrierState with
  | [] => None
  | testBarrier :: rest =>
      if PegOps.equals (fst barrier) (fst testBarrier)
         && PegOps.equals (snd barrier) (snd testBarrier)
      then Some rest
      else option_map (cons testBarrier) (splice_first barrier rest)
  end.

(** [removeBarrier(peg1, peg2, color)] *)
Definition removeBarrier (b : Board) (peg1 peg2 : Peg) (color : Player) : Board * bool :=
  let barrier := ordered peg1 peg2 in
  if bool_decide (color = R) then
    match splice_first barrier (redBarrierState b) with
    | Some l => (mkBoard (pegState b) l (blackBarrierState b), true)
    | None => (b, false)
    end
  else
    match splice_first barrier (blackBarrierState b) with
    | Some l => (mkBoard (pegState b) (redBarrierState b) l, true)
    | None => (b, false)
    end.

(** The loop of [getAdjacentPegs] over one barrier array. *)
Definition neighbours (peg : Peg) (barrierState : list Barrier) : list Peg :=
  flat_map (fun '(peg1, peg2) =>
              (if PegOps.equals peg peg1 then [peg2] else [])
              ++ (if PegOps.equals peg peg2 then [peg1] else []))
           barrierState.

(** [getAdjacentPegs(peg)] *)
Definition getAdjacentPegs (b : Board) (peg : Peg) : list Peg :=
  match getPeg b (PegOps.asTuple peg) with
  | Some B => neighbours peg (blackBarrierState b)
  | Some R => neighbours peg (redBarrierState b)
  | _ => []
  end.

(** ** Win detection *)

(** The first loops of [gameWon]: the keys of the pegs of the player's
    first home row, in the order they are pushed. *)
Definition home_row (b : Board) (player : Player) : list string :=
  match player with
  | R => map _stringifyPegTuple
             (List.filter (fun k => bool_decide (getPeg b k = Some R))
                          (map (fun i => (i, 1)) indices))
  | B => map _stringifyPegTuple
             (List.filter (fun k => bool_decide (getPeg b k = Some B))
                          (map (fun i => (1, i)) indices))
  | X => []
  end.

(** [queue.pop()]: the last element and the array without it. *)
Definition pop {A : Type} (queue : list A) : option (list A * A) :=
  match rev queue with
  | [] => None
  | x :: r => Some (rev r, x)
  end.

(** [getAdjacentPegs(new Peg(..._destringifyPegTuple(pegStr)))].  When a
    coordinate is NaN the peg equals no endpoint ([NaN === v] is false) and
    the result is empty, whatever the peg map holds at its key. *)
Definition adjacent_of (b : Board) (pegStr : string) : list Peg :=
  match _destringifyPegTuple pegStr with
  | (Some x, Some y) => getAdjacentPegs b (mkPeg x y)
  | _ => []
  end.

(** The keys pushed on the queue when [pegStr] is visited. *)
Definition pushed (b : Board) (pegStr : string) : list string :=
  map (λ adjacentPeg, _stringifyPegTuple (PegOps.asTuple adjacentPeg))
      (adjacent_of b pegStr).

(** The [while (queue.length)] loop.  [fuel] bounds the number of
    iterations; [None] means the bound was reached before the queue
    emptied. *)
Fixpoint search (fuel : nat) (b : Board) (queue connectedPegs : list string)
  : option (list string) :=
  match fuel with
  | O => None
  | S fuel' =>
      match pop queue with
      | None => Some connectedPegs
      | Some (queue', pegStr) =>
          if bool_decide (pegStr ∈ connectedPegs)
          then search fuel' b queue' connectedPegs
          else search fuel' b (queue' ++ pushed b pegStr) (connectedPegs ++ [pegStr])
      end
  end.

(** The last loop of [gameWon]. *)
Definition reaches_far_row (player : Player) (connectedPegs : list string) : bool :=
  existsb (fun pegStr =>
             match player with
             | R => bool_decide (snd (_destringifyPegTuple pegStr) = Some 24)
             | B => bool_decide (fst (_destringifyPegTuple pegStr) = Some 24)
             | X => false
             end) connectedPegs.

(** [gameWon(player)], with a bound on the iterations of the search loop. *)
Definition gameWon_in (fuel : nat) (b : Board) (player : Player) : option bool :=
  match search fuel b (home_row b player) [] with
  | Some connectedPegs => Some (reaches_far_row player connectedPegs)
  | None => None
  end.

(** The keys of all the barrier endpoints of a board, each listed once. *)
Definition endpoints (b : Board) : list string :=
  remove_dups
    (flat_map (fun bar : Barrier =>
                 [_stringifyPegTuple (PegOps.asTuple (fst bar));
                  _stringifyPegTuple (PegOps.asTuple (snd bar))])
              (redBarrierState b ++ blackBarrierState b)).

(** Work left at one endpoint: nothing once it is visited, else one plus
    the number of entries its visit pushes. *)
Definition weight (b : Board) (connectedPegs : list string) (pegStr : string) : nat :=
  if bool_decide (pegStr ∈ connectedPegs) then 0%nat else S (length (pushed b pegStr)).

(** Work left for the search loop: one for every queue entry, plus the
    work left at the endpoints. *)
Definition work (b : Board) (queue connectedPegs : list string) : nat :=
  length queue + sum_list (map (weight b connectedPegs) (endpoints b)).

(** A number of iterations that always suffices (see [search_terminates]). *)
Definition search_fuel (b : Board) (player : Player) : nat :=
  S (work b (home_row b player) []).

(** [gameWon(player)] *)
Definition gameWon (b : Board) (player : Player) : option bool :=
  gameWon_in (search_fuel b player) b player.

(** ** Public operations and reachable boards *)

(** A call of one of the four mutating methods. *)
Inductive Op : Type :=
| PlacePeg (peg : Peg) (color : Player)
| PlaceBarrier (peg1 peg2 : Peg) (color : Player)
| RemovePeg (peg : Peg) (color : Player)
| RemoveBarrier (peg1 peg2 : Peg) (color : Player).

(** The board and the boolean a call returns. *)
Definition run (b : Board) (o : Op) : Board * bool :=
  match o with
  | PlacePeg peg color => placePeg b peg color
  | PlaceBarrier peg1 peg2 color => placeBarrier b peg1 peg2 color
  | RemovePeg peg color => removePeg b peg color
  | RemoveBarrier peg1 peg2 color => removeBarrier b peg1 peg2 color
  end.

(** Boards obtained from a fresh board by the public operations, with any
    arguments and whatever the operations return. *)
Inductive reachable : Board → Prop :=
| reach_new : reachable new_Board
| reach_step b o : reachable b → reachable (fst (run b o)).

(** The board after a sequence of operations on a fresh board. *)
Definition play (ops : list Op) : Board :=
  foldl (λ b o, fst (run b o)) new_Board ops.

(** ** Predicates of the specification *)

(** The collection of barriers of a colour. *)
Definition barriers (b : Board) (color : Player) : list Barrier :=
  match color with
  | R => redBarrierState b
  | B => blackBarrierState b
  | X => []
  end.

(** The other colour. *)
Definition opponent (color : Player) : Player :=
  match color with
  | R => B
  | B => R
  | X => X
  end.

(** The lines where a colour may not place pegs. *)
Definition forbidden (peg : Peg) (color : Player) : Prop :=
  match color with
  | R => px peg = 1 ∨ px peg = 24
  | B => py peg = 1 ∨ py peg = 24
  | X => False
  end.

(** What the data model asks of one barrier of a colour: squared length 5
    and both endpoints on cells that hold the colour. *)
Definition barrier_ok (b : Board) (color : Player) (bar : Barrier) : Prop :=
  (px (snd bar) - px (fst bar)) ^ 2 + (py (snd bar) - py (fst bar)) ^ 2 = 5
  ∧ getPeg b (PegOps.asTuple (fst bar)) = Some color
  ∧ getPeg b (PegOps.asTuple (snd bar)) = Some color.

(** Every stored barrier is as the data model asks. *)
Definition barriers_ok (b : Board) : Prop :=
  (∀ bar, bar ∈ redBarrierState b → barrier_ok b R bar)
  ∧ (∀ bar, bar ∈ blackBarrierState b → barrier_ok b B bar).

(** The coordinates of the 24 by 24 grid. *)
Definition in_grid (k : Z * Z) : Prop := 1 ≤ fst k ≤ 24 ∧ 1 ≤ snd k ≤ 24.

(** The peg map has an entry exactly at the coordinates of the grid. *)
Definition cells_are_grid (b : Board) : Prop :=
  ∀ k, is_Some (getPeg b k) ↔ in_grid k.

(** Rise over run of the line through two pegs, as a rational; 0 for two
    pegs of one column, by the convention of [Qdiv] (a barrier of squared
    length 5 never has the slope 0). *)
Definition slopeQ (p q : Peg) : Q :=
  (inject_Z (py q - py p) / inject_Z (px q - px p))%Q.

(** The point [(x, y)] lies on the infinite line through [p] and [q]. *)
Definition on_line (p q : Peg) (x y : Q) : Prop :=
  ((y - inject_Z (py p)) * inject_Z (px q - px p)
   == (x - inject_Z (px p)) * inject_Z (py q - py p))%Q.

(** [v] lies strictly between the integers [e1] and [e2], in either order. *)
Definition strictly_between (v : Q) (e1 e2 : Z) : Prop :=
  (inject_Z e1 < v ∧ v < inject_Z e2)%Q ∨ (inject_Z e2 < v ∧ v < inject_Z e1)%Q.

(** The two lines through [p], [q] and through [r], [s] meet at a point
    strictly inside the coordinate ranges of both segments, on both axes. *)
Definition crosses_inside (p q r s : Peg) : Prop :=
  ∃ x y : Q,
    on_line p q x y ∧ on_line r s x y
    ∧ strictly_between x (px p) (px q) ∧ strictly_between x (px r) (px s)
    ∧ strictly_between y (py p) (py q) ∧ strictly_between y (py r) (py s).

(** A stored barrier has the endpoints of the proposal, in either order. *)
Definition same_endpoints (p q : Peg) (bar : Barrier) : Prop :=
  bar = (p, q) ∨ bar = (q, p).

(** A stored barrier and the proposal have a peg in common. *)
Definition shares_endpoint (p q : Peg) (bar : Barrier) : Prop :=
  fst bar = p ∨ fst bar = q ∨ snd bar = p ∨ snd bar = q.

(** Two pegs are the endpoints of a barrier of the collection. *)
Definition joined (l : list Barrier) (p q : Peg) : Prop := (p, q) ∈ l ∨ (q, p) ∈ l.

(** A sequence of pegs, all on cells that hold the colour, each joined to
    the next by a barrier of the colour. *)
Fixpoint chain (b : Board) (color : Player) (ps : list Peg) : Prop :=
  match ps with
  | [] => True
  | p :: rest =>
      getPeg b (PegOps.asTuple p) = Some color
      ∧ match rest with
        | [] => True
        | q :: _ => joined (barriers b color) p q
        end
      ∧ chain b color rest
  end.

(** The home line a colour starts from. *)
Definition near_line (color : Player) (p : Peg) : Prop :=
  match color with
  | R => py p = 1
  | B => px p = 1
  | X => False
  end.

(** The home line a colour has to reach. *)
Definition far_line (color : Player) (p : Peg) : Prop :=
  match color with
  | R => py p = 24
  | B => px p = 24
  | X => False
  end.

(** A sequence [p0, ..., pk] of pegs of the colour, consecutive ones joined
    by barriers of the colour, from the near home line to the far one. *)
Definition winning_path (b : Board) (color : Player) : Prop :=
  ∃ (ps : list Peg) (p0 pk : Peg),
    head ps = Some p0 ∧ last ps = Some pk
    ∧ chain b color ps ∧ near_line color p0 ∧ far_line color pk.

(** ** Auxiliary definitions of the proofs *)

(** Strings all of whose characters satisfy [P]. *)
Fixpoint all_chars (P : ascii → Prop) (str : string) : Prop :=
  match str with
  | EmptyString => True
  | String c rest => P c ∧ all_chars P rest
  end.

(** Strings that do not start with a sign. *)
Definition unsigned (str : string) : Prop :=
  match str with
  | String c _ => c ≠ "-"%char ∧ c ≠ "+"%char
  | EmptyString => True
  end.

(** The strings that [_stringifyPegTuple] builds. *)
Definition is_key (str : string) : Prop := ∃ k : Z * Z, str = _stringifyPegTuple k.

(** The formulas of the source for the point where the line of slope [m1]
    through [(x1, y1)] meets the line of slope [m3] through [(x3, y3)]. *)
Definition meet_x (x1 y1 m1 x3 y3 m3 : Q) : Q :=
  ((x1 * m1 - x3 * m3 + y3 - y1) / (m1 - m3))%Q.

(** The ordinate at [x] on the line of slope [m1] through [(x1, y1)]. *)
Definition meet_y (x1 y1 m1 x : Q) : Q :=
  (m1 * (x - x1) + y1)%Q.

(** The abscissa the source computes, as a rational. *)
Definition crossQ_x (p r : Peg) (m1 m3 : Q) : Q :=
  meet_x (inject_Z (px p)) (inject_Z (py p)) m1 (inject_Z (px r)) (inject_Z (py r)) m3.

(** The ordinate the source computes, as a rational. *)
Definition crossQ_y (p : Peg) (m1 x : Q) : Q :=
  meet_y (inject_Z (px p)) (inject_Z (py p)) m1 x.

(** One step of the search: [k'] is pushed when [k] is visited. *)
Definition edge (b : Board) (k k' : string) : Prop := k' ∈ pushed b k.

(** ** A sample game *)

(** A sequence of moves after which Red pegs run from the row 1 to the
    row 24, each joined to the next. *)
Definition red_ladder : list Op :=
  let pegs := [mkPeg 2 1; mkPeg 3 3; mkPeg 2 5; mkPeg 3 7; mkPeg 2 9; mkPeg 3 11;
               mkPeg 2 13; mkPeg 3 15; mkPeg 2 17; mkPeg 3 19; mkPeg 2 21;
               mkPeg 3 23; mkPeg 5 24] in
  map (λ p, PlacePeg p R) pegs
  ++ map (λ pq, PlaceBarrier (fst pq) (snd pq) R) (zip pegs (tail pegs)).


(** ** Further invariants of the board *)

(** No Red peg stands in the columns 1 and 24, no Black peg in the rows 1
    and 24. *)
Definition home_lines_free (b : Board) : Prop :=
  ∀ k : Z * Z,
    (getPeg b k = Some R → fst k ≠ 1 ∧ fst k ≠ 24)
    ∧ (getPeg b k = Some B → snd k ≠ 1 ∧ snd k ≠ 24).

(** Every stored barrier lists its smaller peg first. *)
Definition stored_in_order (b : Board) : Prop :=
  ∀ bar, bar ∈ redBarrierState b ++ blackBarrierState b →
         PegOps.lt (fst bar) (snd bar) = true.

(** Two barriers that may be stored together: they do not have the same two
    endpoints and, when their slopes differ, their lines do not meet
    strictly inside both. *)
Definition compatible (a c : Barrier) : Prop :=
  ¬ same_endpoints (fst a) (snd a) c
  ∧ (¬ (slopeQ (fst a) (snd a) == slopeQ (fst c) (snd c))%Q →
     ¬ crosses_inside (fst a) (snd a) (fst c) (snd c)).

(** No barrier is stored twice and any two stored barriers are compatible. *)
Definition no_conflict (b : Board) : Prop :=
  NoDup (redBarrierState b ++ blackBarrierState b)
  ∧ ∀ a c, a ∈ redBarrierState b ++ blackBarrierState b →
           c ∈ redBarrierState b ++ blackBarrierState b →
           a ≠ c → compatible a c.

(** The pegs a call names. *)
Definition op_pegs (o : Op) : list Peg :=
  match o with
  | PlacePeg peg _ | RemovePeg peg _ => [peg]
  | PlaceBarrier peg1 peg2 _ | RemoveBarrier peg1 peg2 _ => [peg1; peg2]
  end.

(** The colour a call is made for. *)
Definition op_color (o : Op) : Player :=
  match o with
  | PlacePeg _ color | RemovePeg _ color => color
  | PlaceBarrier _ _ color | RemoveBarrier _ _ color => color
  end.

(** ** The display: from canvas coordinates to a peg *)

From Stdlib Require Import Qround.

(** [TWIXT_GRID_WIDTH] *)
Definition TWIXT_GRID_WIDTH : Z := 24.

(** [Math.round]: the nearest integer, a half going up. *)
Definition Math_round (q : Q) : Z := Qfloor (q + (1 # 2)).

(** The integers that a double holds exactly and that the source prints
    with all their digits: up to [Number.MAX_SAFE_INTEGER] in absolute
    value. *)
Definition safe_integer (z : Z) : Prop :=
  - 9007199254740991 ≤ z ≤ 9007199254740991.

(** [_canvasToPeg(coords)], for canvas coordinates that are whole pixels.
    For safe integers the doubles of the source are exact: the quotient by
    24 is either a half-integer, which is a double, or at least 1/24 away
    from every half-integer, more than the rounding of the quotient (at
    most 1/32 below 2^49), so that [Math.round] rounds it as it rounds
    the exact quotient; the product by 24 is a multiple of 8 below 2^54,
    and the differences, the squares and their sum are small integers.
    Beyond the safe integers the source rounds and this definition is not
    the code. *)
Definition _canvasToPeg (coords : Z * Z) : option Peg :=
  let x := Math_round (inject_Z (fst coords) / inject_Z TWIXT_GRID_WIDTH) in
  let y := Math_round (inject_Z (snd coords) / inject_Z TWIXT_GRID_WIDTH) in
  if (fst coords - x * TWIXT_GRID_WIDTH) ^ 2 + (snd coords - y * TWIXT_GRID_WIDTH) ^ 2 <=? 100
  then Some (mkPeg x y)
  else None.

(** ** The controller

    The class [Game] holds the board, whose turn it is, the mode it is in
    ([gameState], 1 to 5), the barrier that is being dragged and the winner,
    and writes six buttons and two lines of text of the page.  A handler is
    a function from the game to the game.  The board display shares the
    board object with the game and only reads it, so the game's board is
    what is drawn; drawing changes nothing and is not modelled. *)

(** [COLORS] *)
Definition COLORS_red : string := "#ff0000".
Definition COLORS_black : string := "#000000".

(** A button: [style.visibility] is visible, [disabled], and whether the
    class list has current-selection. *)
Record Button : Type := mkButton
  { visible : bool; disabled : bool; current_selection : bool }.

(** What the controller writes on the page: the six buttons in the order of
    [setButtonState], text and colour of the element player-info, text of
    the element state-info.  A text is [None] when the variable assigned to
    it is undefined. *)
Record Page : Type := mkPage
  { buttons : list Button;
    player_text : option string;
    player_color : option string;
    state_text : option string }.

Record Game : Type := mkGame
  { board : Board;
    currentPlayer : Player;
    gameState : Z;
    currentEndpointPeg : option Peg;
    movingEndpoint : option (Q * Q);
    winner : option Player;
    page : Page }.

Definition set_board (b : Board) (g : Game) : Game :=
  mkGame b (currentPlayer g) (gameState g) (currentEndpointPeg g)
         (movingEndpoint g) (winner g) (page g).

Definition set_currentPlayer (c : Player) (g : Game) : Game :=
  mkGame (board g) c (gameState g) (currentEndpointPeg g)
         (movingEndpoint g) (winner g) (page g).

Definition set_gameState (s : Z) (g : Game) : Game :=
  mkGame (board g) (currentPlayer g) s (currentEndpointPeg g)
         (movingEndpoint g) (winner g) (page g).

(** Assigns [currentEndpointPeg] and [movingEndpoint]. *)
Definition set_drag (peg : option Peg) (moving : option (Q * Q)) (g : Game) : Game :=
  mkGame (board g) (currentPlayer g) (gameState g) peg moving (winner g) (page g).

Definition set_winner (w : option Player) (g : Game) : Game :=
  mkGame (board g) (currentPlayer g) (gameState g) (currentEndpointPeg g)
         (movingEndpoint g) w (page g).

Definition set_page (pg : Page) (g : Game) : Game :=
  mkGame (board g) (currentPlayer g) (gameState g) (currentEndpointPeg g)
         (movingEndpoint g) (winner g) pg.

(** [state[i] === c] *)
Definition char_is (state : string) (i : nat) (c : ascii) : bool :=
  match String.get i state with
  | Some c' => Ascii.eqb c' c
  | None => false
  end.

(** The body of the loop of [setButtonState] for the button of index [i]. *)
Definition set_button (state : string) (i : nat) (bt : Button) : Button :=
  if char_is state i "A" then mkButton true false true
  else if char_is state i "C" then mkButton true false false
  else if char_is state i "D" then mkButton true true false
  else if char_is state i "H" then mkButton false (disabled bt) (current_selection bt)
  else bt.

(** [setButtonState(state)] *)
Definition setButtonState (state : string) (pg : Page) : Page :=
  mkPage (imap (λ i bt, if (i <? 6)%nat then set_button state i bt else bt) (buttons pg))
         (player_text pg) (player_color pg) (state_text pg).

(** [updateInfoDiv()] *)
Definition updateInfoDiv (g : Game) : Game :=
  let info :=
    if decide (winner g = Some R) then (Some "Red Player Wins!", Some COLORS_red)
    else if decide (winner g = Some B) then (Some "Black Player Wins!", Some COLORS_black)
    else if decide (currentPlayer g = R) then (Some "Red Player's Turn", Some COLORS_red)
    else if decide (currentPlayer g = B) then (Some "Black Player's Turn", Some COLORS_black)
    else (None, None) in
  let txt :=
    if decide (gameState g = 1) then Some "Click on an empty space to place a peg."
    else if decide (gameState g = 2)
    then Some "Click and drag between two pegs to place a barrier."
    else if decide (gameState g = 3) then Some "Click on a peg to remove it."
    else if decide (gameState g = 4)
    then Some "Click and drag between two pegs to remove the barrier between them."
    else if decide (gameState g = 5) then Some "Game over!"
    else fst info in
  set_page (mkPage (buttons (page g)) (fst info) (snd info) txt) g.

(** [setGameState(state)] *)
Definition setGameState (state : Z) (g : Game) : Game :=
  let g :=
    if decide (state = 1) then set_page (setButtonState "ADCCDH" (page g)) g
    else if decide (state = 2)
    then set_page (setButtonState "DADDCH" (page g)) (set_drag None None g)
    else if decide (state = 3) then set_page (setButtonState "CDACDH" (page g)) g
    else if decide (state = 4)
    then set_page (setButtonState "CDCADH" (page g)) (set_drag None None g)
    else if decide (state = 5)
    then set_page (setButtonState "DDDDDC" (page g)) (set_drag None None g)
    else g in
  updateInfoDiv (set_gameState state g).

(** [initialize()], on the page as it is. *)
Definition initialize (pg : Page) : Game :=
  setGameState 1 (mkGame new_Board R 0 None None None pg).

(** [endTurn()] *)
Definition endTurn (g : Game) : Game :=
  setGameState 1 (set_currentPlayer (if decide (currentPlayer g = R) then B else R) g).

(** A mouse event on the canvas: [clientX], [clientY], and the value that
    [boardDisplay.windowToPeg(e.clientX, e.clientY)] returns for it, a peg
    or null, which depends on where the browser has laid out the canvas. *)
Record MouseEvent : Type := mkMouseEvent
  { clientX : Q; clientY : Q; on_peg : option Peg }.

(** [onmousedown(e)] *)
Definition onmousedown (e : MouseEvent) (g : Game) : Game :=
  if decide (gameState g = 2) then
    match on_peg e with
    | Some peg =>
        if decide (getPeg (board g) (PegOps.asTuple peg) = Some (currentPlayer g))
        then set_drag (Some peg) (Some (clientX e, clientY e)) g
        else g
    | None => g
    end
  else if decide (gameState g = 4) then
    match on_peg e with
    | Some peg =>
        if decide (getPeg (board g) (PegOps.asTuple peg) = Some (currentPlayer g))
        then if (0 <? length (getAdjacentPegs (board g) peg))%nat
             then set_drag (Some peg) (Some (clientX e, clientY e)) g
             else g
        else g
    | None => g
    end
  else g.

(** [onmouseup(e)]; the switch looks at the mode the game was in when the
    event came. *)
Definition onmouseup (e : MouseEvent) (g : Game) : Game :=
  if decide (gameState g = 1) then
    match on_peg e with
    | Some peg =>
        let r := placePeg (board g) peg (currentPlayer g) in
        let g := set_board (fst r) g in
        if snd r then setGameState 2 g else g
    | None => g
    end
  else if decide (gameState g = 2) then
    let g :=
      match on_peg e, currentEndpointPeg g with
      | Some peg, Some endpoint =>
          let r := placeBarrier (board g) endpoint peg (currentPlayer g) in
          let g := set_board (fst r) g in
          if snd r
          then if decide (gameWon (board g) (currentPlayer g) = Some true)
               then setGameState 5 (set_winner (Some (currentPlayer g)) g)
               else g
          else g
      | _, _ => g
      end in
    set_drag None None g
  else if decide (gameState g = 3) then
    match on_peg e with
    | Some peg => set_board (fst (removePeg (board g) peg (currentPlayer g))) g
    | None => g
    end
  else if decide (gameState g = 4) then
    let g :=
      match on_peg e, currentEndpointPeg g with
      | Some peg, Some endpoint =>
          set_board (fst (removeBarrier (board g) endpoint peg (currentPlayer g))) g
      | _, _ => g
      end in
    set_drag None None g
  else g.

(** [onmousemove(e)] *)
Definition onmousemove (e : MouseEvent) (g : Game) : Game :=
  if decide (gameState g = 2)
  then set_drag (currentEndpointPeg g) (Some (clientX e, clientY e)) g
  else if decide (gameState g = 4)
  then set_drag (currentEndpointPeg g) (Some (clientX e, clientY e)) g
  else g.

(** The [onclick] handlers of the six buttons, in the order of
    [setButtonState]. *)
Definition onclick (i : nat) (g : Game) : Game :=
  match i with
  | 0%nat => setGameState 1 g
  | 1%nat => setGameState 2 g
  | 2%nat => setGameState 3 g
  | 3%nat => setGameState 4 g
  | 4%nat => endTurn g
  | 5%nat => initialize (page g)
  | _ => g
  end.

(** What the user can do: press, release or move the mouse on the canvas,
    or click the button of index [i]. *)
Inductive Action : Type :=
  | MouseDown (e : MouseEvent)
  | MouseUp (e : MouseEvent)
  | MouseMove (e : MouseEvent)
  | Click (i : nat).

(** The browser gives a click to a button only if it is visible and not
    disabled. *)
Definition clickable (g : Game) (i : nat) : bool :=
  match buttons (page g) !! i with
  | Some bt => visible bt && negb (disabled bt)
  | None => false
  end.

Definition act (g : Game) (a : Action) : Game :=
  match a with
  | MouseDown e => onmousedown e g
  | MouseUp e => onmouseup e g
  | MouseMove e => onmousemove e g
  | Click i => if clickable g i then onclick i g else g
  end.

(** The games a user can get to: [new Game()] on a page with the six
    buttons, then any actions. *)
Inductive playable : Game → Prop :=
  | playable_start (pg : Page) : length (buttons pg) = 6%nat → playable (initialize pg)
  | playable_act (g : Game) (a : Action) : playable g → playable (act g a).

(** The game after the actions of a list. *)
Definition session (pg : Page) (actions : list Action) : Game :=
  foldl act (initialize pg) actions.

(** What the buttons are in each mode; the new-game button keeps its
    [disabled] and its class while it is hidden. *)
Definition layout (s : Z) (d sel : bool) : list Button :=
  let A := mkButton true false true in
  let C := mkButton true false false in
  let D := mkButton true true false in
  let H := mkButton false d sel in
  if decide (s = 1) then [A; D; C; C; D; H]
  else if decide (s = 2) then [D; A; D; D; C; H]
  else if decide (s = 3) then [C; D; A; C; D; H]
  else if decide (s = 4) then [C; D; C; A; D; H]
  else [D; D; D; D; D; C].

(** What holds of every game a user can get to. *)
Record game_ok (g : Game) : Prop := mk_game_ok
  { ok_state : 1 ≤ gameState g ≤ 5;
    ok_player : currentPlayer g = R ∨ currentPlayer g = B;
    ok_board : reachable (board g);
    ok_buttons : ∃ d sel, buttons (page g) = layout (gameState g) d sel;
    ok_over : gameState g = 5 →
              winner g = Some (currentPlayer g)
              ∧ winning_path (board g) (currentPlayer g)
              ∧ ¬ winning_path (board g) (opponent (currentPlayer g));
    ok_open : gameState g ≠ 5 →
              winner g = None
              ∧ ¬ winning_path (board g) R ∧ ¬ winning_path (board g) B;
    ok_drag : ∀ p, currentEndpointPeg g = Some p →
                   movingEndpoint g ≠ None
                   ∧ (gameState g = 2 ∨ gameState g = 4 →
                      getPeg (board g) (PegOps.asTuple p) = Some (currentPlayer g));
    ok_info : page g = page (updateInfoDiv g) }.

(** A page as it may be loaded, and two mouse events. *)
Definition sample_page : Page :=
  mkPage (replicate 6 (mkButton true false false)) None None None.

Definition at_peg (x y : Z) : MouseEvent :=
  mkMouseEvent (inject_Z (24 * x)) (inject_Z (24 * y)) (Some (mkPeg x y)).

Definition off_pegs : MouseEvent := mkMouseEvent 12 12 None.

(** A game that Red wins: Red puts down the pegs of [red_ladder], one a
    turn, and joins each to the one before; Black puts down pegs in the
    column 12. *)
Definition mouse_at (p : Peg) : MouseEvent := at_peg (px p) (py p).

Definition sample_game : list Action :=
  let pegs := [mkPeg 2 1; mkPeg 3 3; mkPeg 2 5; mkPeg 3 7; mkPeg 2 9; mkPeg 3 11;
               mkPeg 2 13; mkPeg 3 15; mkPeg 2 17; mkPeg 3 19; mkPeg 2 21;
               mkPeg 3 23; mkPeg 5 24] in
  MouseUp (at_peg 2 1)
  :: flat_map (λ turn : Z * (Peg * Peg),
                 [Click 4; MouseUp (at_peg 12 (2 + fst turn)); Click 4;
                  MouseUp (mouse_at (snd (snd turn)));
                  MouseDown (mouse_at (fst (snd turn)));
                  MouseUp (mouse_at (snd (snd turn)))])
              (zip (seqZ 0 12) (zip pegs (tail pegs))).
(** ** Keys of the peg map *)

Lemma digit_of_pretty (d : N) : (d < 10)%N → digit_of (pretty_N_char d) = Some d.
Proof.
  intros H.
  assert (d = 0 ∨ d = 1 ∨ d = 2 ∨ d = 3 ∨ d = 4 ∨ d = 5 ∨ d = 6 ∨ d = 7 ∨ d = 8 ∨ d = 9)%N
    as Hd by lia.
  repeat (destruct Hd as [-> | Hd]; [reflexivity |]). subst. reflexivity.
Qed.

(** Reading back the digits printed for [x] in front of [str]. *)
Lemma parse_pretty_go (x : N) (str : string) :
  parse_digits None (pretty_N_go x str)
  = parse_digits (if decide (x = 0)%N then None else Some x) str.
Proof.
  revert str. induction (N.lt_wf_0 x) as [x _ IH]; intros str.
  destruct (decide (x = 0)%N) as [-> | Hx]; [by rewrite pretty_N_go_0 |].
  rewrite pretty_N_go_step by lia.
  rewrite IH by (apply N.div_lt; lia).
  simpl. rewrite digit_of_pretty by (apply N.mod_lt; lia).
  f_equal. f_equal.
  destruct (decide (x `div` 10 = 0)%N) as [H0 | H0]; simpl.
  - rewrite (N.div_mod x 10) at 2 by lia. rewrite H0. lia.
  - rewrite (N.div_mod x 10) at 3 by lia. lia.
Qed.

Lemma pretty_go_chars (x : N) (str : string) :
  all_chars (λ c, c ≠ "_"%char) str → all_chars (λ c, c ≠ "_"%char) (pretty_N_go x str).
Proof.
  revert str. induction (N.lt_wf_0 x) as [x _ IH]; intros str Hs.
  destruct (decide (x = 0)%N) as [-> | Hx]; [by rewrite pretty_N_go_0 |].
  rewrite pretty_N_go_step by lia. apply IH; [apply N.div_lt; lia |].
  split; [| exact Hs]. unfold pretty_N_char. repeat case_match; discriminate.
Qed.

Lemma pretty_Z_pos (p : positive) : pretty (Z.pos p) = pretty_N_go (N.pos p) "".
Proof. reflexivity. Qed.

Lemma pretty_Z_neg (p : positive) :
  pretty (Z.neg p) = String "-" (pretty_N_go (N.pos p) "").
Proof. reflexivity. Qed.

Lemma pretty_Z_chars (z : Z) : all_chars (λ c, c ≠ "_"%char) (pretty z).
Proof.
  destruct z as [| p | p].
  - split; [discriminate | exact I].
  - rewrite pretty_Z_pos. apply pretty_go_chars. exact I.
  - rewrite pretty_Z_neg. split; [discriminate |]. apply pretty_go_chars. exact I.
Qed.

Lemma split_on_plain (a b : string) :
  all_chars (λ c, c ≠ "_"%char) a →
  split_on "_" (a +:+ "_" +:+ b) = a :: split_on "_" b.
Proof.
  induction a as [| c a IH]; intros Ha; simpl; [reflexivity |].
  destruct Ha as [Hc Ha]. destruct (Ascii.eqb_spec c "_"); [contradiction |].
  by rewrite (IH Ha).
Qed.

Lemma split_on_none (b : string) :
  all_chars (λ c, c ≠ "_"%char) b → split_on "_" b = [b].
Proof.
  induction b as [| c b IH]; intros Hb; simpl; [reflexivity |].
  destruct Hb as [Hc Hb]. destruct (Ascii.eqb_spec c "_"); [contradiction |].
  by rewrite (IH Hb).
Qed.

Lemma parseInt_unsigned (str : string) :
  unsigned str → parseInt str = Z.of_N <$> parse_digits None str.
Proof.
  destruct str as [| [[] [] [] [] [] [] [] []] str]; try reflexivity;
    intros [H1 H2]; congruence.
Qed.

Lemma pretty_go_unsigned (x : N) (str : string) :
  unsigned str → unsigned (pretty_N_go x str).
Proof.
  revert str. induction (N.lt_wf_0 x) as [x _ IH]; intros str Hs.
  destruct (decide (x = 0)%N) as [-> | Hx]; [by rewrite pretty_N_go_0 |].
  rewrite pretty_N_go_step by lia. apply IH; [apply N.div_lt; lia |].
  unfold unsigned, pretty_N_char. repeat case_match; split; discriminate.
Qed.

Lemma parse_pretty_pos (p : positive) :
  parse_digits None (pretty_N_go (N.pos p) "") = Some (N.pos p).
Proof. rewrite parse_pretty_go. reflexivity. Qed.

Lemma parseInt_pretty (z : Z) : parseInt (pretty z) = Some z.
Proof.
  destruct z as [| p | p]; [reflexivity | |].
  - rewrite pretty_Z_pos, parseInt_unsigned by (by apply pretty_go_unsigned).
    by rewrite parse_pretty_pos.
  - rewrite pretty_Z_neg. unfold parseInt. by rewrite parse_pretty_pos.
Qed.

(** Reading a key gives back the pair it was built from. *)
Lemma destringify_stringify (k : Z * Z) :
  _destringifyPegTuple (_stringifyPegTuple k) = (Some (fst k), Some (snd k)).
Proof.
  unfold _destringifyPegTuple, _stringifyPegTuple.
  rewrite split_on_plain by apply pretty_Z_chars.
  rewrite split_on_none by apply pretty_Z_chars.
  simpl. by rewrite !parseInt_pretty.
Qed.

(** Different pairs have different keys. *)
Lemma stringify_inj (k k' : Z * Z) :
  _stringifyPegTuple k = _stringifyPegTuple k' → k = k'.
Proof.
  intros H. pose proof (destringify_stringify k) as E.
  rewrite H, destringify_stringify in E. destruct k, k'; simpl in *. congruence.
Qed.

(** ** Elementary facts *)

Lemma equals_spec (p q : Peg) : PegOps.equals p q = true ↔ p = q.
Proof.
  unfold PegOps.equals. rewrite andb_true_iff, !Z.eqb_eq.
  destruct p, q; simpl. split; [intros [-> ->]; reflexivity | intros [= -> ->]; auto].
Qed.

Lemma equals_refl (p : Peg) : PegOps.equals p p = true.
Proof. apply equals_spec; reflexivity. Qed.

Lemma equals_false (p q : Peg) : PegOps.equals p q = false ↔ p ≠ q.
Proof.
  rewrite <- equals_spec. destruct (PegOps.equals p q); split; congruence.
Qed.

Lemma asTuple_inj (p q : Peg) : PegOps.asTuple p = PegOps.asTuple q → p = q.
Proof. destruct p, q; unfold PegOps.asTuple; simpl; congruence. Qed.

Lemma asTuple_mkPeg (k : Z * Z) : PegOps.asTuple (mkPeg (fst k) (snd k)) = k.
Proof. destruct k; reflexivity. Qed.

Lemma mkPeg_asTuple (p : Peg) :
  mkPeg (fst (PegOps.asTuple p)) (snd (PegOps.asTuple p)) = p.
Proof. destruct p; reflexivity. Qed.

Lemma getPeg_setPeg_same (b : Board) (k : Z * Z) (v : Player) :
  getPeg (_setPeg b k v) k = Some v.
Proof. unfold getPeg, _setPeg; simpl. apply lookup_insert_eq. Qed.

Lemma getPeg_setPeg_other (b : Board) (k k' : Z * Z) (v : Player) :
  k ≠ k' → getPeg (_setPeg b k v) k' = getPeg b k'.
Proof.
  intros H. unfold getPeg, _setPeg; simpl. apply lookup_insert_ne.
  intros E. by apply stringify_inj in E.
Qed.

Lemma setPeg_same_value (b : Board) (k : Z * Z) (v : Player) :
  getPeg b k = Some v → _setPeg b k v = b.
Proof.
  intros H. destruct b as [m r bl]; unfold _setPeg, getPeg in *; simpl in *.
  f_equal. by apply insert_id.
Qed.

Lemma placePeg_true (b : Board) (peg : Peg) (color : Player) :
  snd (placePeg b peg color) = true
  ↔ getPeg b (PegOps.asTuple peg) = Some X ∧ ¬ forbidden peg color.
Proof.
  unfold placePeg, forbidden.
  destruct color; simpl.
  - destruct (Z.eqb_spec (px peg) 1), (Z.eqb_spec (px peg) 24); simpl;
      try (split; [discriminate | tauto]);
      case_bool_decide; simpl; split; try discriminate; tauto.
  - destruct (Z.eqb_spec (py peg) 1), (Z.eqb_spec (py peg) 24); simpl;
      try (split; [discriminate | tauto]);
      case_bool_decide; simpl; split; try discriminate; tauto.
  - case_bool_decide; simpl; split; try discriminate; tauto.
Qed.

Lemma placePeg_false_same (b : Board) (peg : Peg) (color : Player) :
  snd (placePeg b peg color) = false → fst (placePeg b peg color) = b.
Proof.
  unfold placePeg.
  repeat match goal with |- context [if ?c then _ else _] => destruct c end;
    simpl; congruence.
Qed.

Lemma placePeg_true_board (b : Board) (peg : Peg) (color : Player) :
  snd (placePeg b peg color) = true →
  fst (placePeg b peg color) = _setPeg b (PegOps.asTuple peg) color.
Proof.
  unfold placePeg.
  repeat match goal with |- context [if ?c then _ else _] => destruct c end;
    simpl; congruence.
Qed.

Lemma placeBarrier_false_same (b : Board) (peg1 peg2 : Peg) (color : Player) :
  snd (placeBarrier b peg1 peg2 color) = false →
  fst (placeBarrier b peg1 peg2 color) = b.
Proof.
  unfold placeBarrier.
  repeat match goal with |- context [if ?c then _ else _] => destruct c end;
    destruct color; simpl; congruence.
Qed.

Lemma removePeg_false_same (b : Board) (peg : Peg) (color : Player) :
  snd (removePeg b peg color) = false → fst (removePeg b peg color) = b.
Proof.
  unfold removePeg. case_bool_decide; simpl; congruence.
Qed.

Lemma removeBarrier_false_same (b : Board) (peg1 peg2 : Peg) (color : Player) :
  snd (removeBarrier b peg1 peg2 color) = false →
  fst (removeBarrier b peg1 peg2 color) = b.
Proof.
  unfold removeBarrier.
  case_bool_decide; destruct (splice_first _ _); simpl; congruence.
Qed.

(** ** Peg placement *)

(** C3: for a colour Red or Black, [placePeg] returns true exactly when the
    cell holds none and the peg is outside the mover's forbidden lines; a
    success sets that one cell to the colour and leaves every other cell and
    both barrier arrays as they were; a failure leaves the board as it was;
    after a success, placing again at the same coordinate fails for both
    colours. *)
Theorem placePeg_spec (b : Board) (peg : Peg) (color : Player) :
  color = R ∨ color = B →
  let res := placePeg b peg color in
  (snd res = true
   ↔ getPeg b (PegOps.asTuple peg) = Some X
     ∧ ¬ match color with
         | R => px peg = 1 ∨ px peg = 24
         | B => py peg = 1 ∨ py peg = 24
         | X => False
         end)
  ∧ (snd res = true →
     getPeg (fst res) (PegOps.asTuple peg) = Some color
     ∧ (∀ k, k ≠ PegOps.asTuple peg → getPeg (fst res) k = getPeg b k)
     ∧ redBarrierState (fst res) = redBarrierState b
     ∧ blackBarrierState (fst res) = blackBarrierState b
     ∧ ∀ color', color' = R ∨ color' = B →
                 snd (placePeg (fst res) peg color') = false)
  ∧ (snd res = false → fst res = b).
Proof.
  intros Hc res. split; [apply placePeg_true |]. split; [| apply placePeg_false_same].
  intros Hok. subst res. rewrite (placePeg_true_board _ _ _ Hok).
  split; [apply getPeg_setPeg_same |].
  split; [intros k Hk; apply getPeg_setPeg_other; congruence |].
  split; [reflexivity |]. split; [reflexivity |].
  intros color' Hc'.
  destruct (snd (placePeg _ peg color')) eqn:E; [| reflexivity].
  apply placePeg_true in E. destruct E as [E _].
  rewrite getPeg_setPeg_same in E. destruct Hc; congruence.
Qed.

(** On a fresh board Red places a peg at (2,2); Black then cannot. *)
Lemma placePeg_spec_witness :
  (R = R ∨ R = B)
  ∧ snd (placePeg new_Board (mkPeg 2 2) R) = true
  ∧ snd (placePeg (fst (placePeg new_Board (mkPeg 2 2) R)) (mkPeg 2 2) B) = false.
Proof.
  split; [left; reflexivity |].
  destruct (placePeg_spec new_Board (mkPeg 2 2) R (or_introl eq_refl))
    as (Hiff & Hok & _).
  assert (Ht : snd (placePeg new_Board (mkPeg 2 2) R) = true) by (vm_compute; reflexivity).
  split; [exact Ht |].
  destruct (Hok Ht) as (_ & _ & _ & _ & Hagain).
  apply Hagain. right; reflexivity.
Defined.

(** C10: with the none value as colour and a cell that holds none,
    [placePeg] returns true and the board it returns is the board it was
    given. *)
Theorem placePeg_none_noop (b : Board) (peg : Peg) :
  getPeg b (PegOps.asTuple peg) = Some X → placePeg b peg X = (b, true).
Proof.
  intros H. unfold placePeg. simpl.
  rewrite bool_decide_eq_true_2 by exact H. simpl.
  by rewrite setPeg_same_value.
Qed.

(** On a fresh board the cell (5,7) holds none. *)
Lemma placePeg_none_noop_witness :
  getPeg new_Board (PegOps.asTuple (mkPeg 5 7)) = Some X
  ∧ placePeg new_Board (mkPeg 5 7) X = (new_Board, true).
Proof.
  assert (H : getPeg new_Board (PegOps.asTuple (mkPeg 5 7)) = Some X)
    by (vm_compute; reflexivity).
  split; [exact H | exact (placePeg_none_noop new_Board (mkPeg 5 7) H)].
Defined.

(** ** Failures do not mutate *)

(** C7: whenever one of the four mutating operations returns false, the
    board it returns (peg map and both barrier arrays) is the board it was
    given. *)
Theorem failure_no_mutation (b : Board) (o : Op) :
  snd (run b o) = false → fst (run b o) = b.
Proof.
  destruct o; simpl.
  - apply placePeg_false_same.
  - apply placeBarrier_false_same.
  - apply removePeg_false_same.
  - apply removeBarrier_false_same.
Qed.

(** A barrier between two empty cells of a fresh board is refused. *)
Lemma failure_no_mutation_witness :
  snd (run new_Board (PlaceBarrier (mkPeg 2 2) (mkPeg 3 4) R)) = false
  ∧ fst (run new_Board (PlaceBarrier (mkPeg 2 2) (mkPeg 3 4) R)) = new_Board.
Proof.
  assert (H : snd (run new_Board (PlaceBarrier (mkPeg 2 2) (mkPeg 3 4) R)) = false)
    by (vm_compute; reflexivity).
  split; [exact H | exact (failure_no_mutation _ _ H)].
Defined.

(** ** Barrier placement: distance and ownership *)

Lemma placeBarrier_true (b : Board) (peg1 peg2 : Peg) (color : Player) :
  snd (placeBarrier b peg1 peg2 color) = true
  ↔ dist2 peg1 peg2 = 5
    ∧ getPeg b (PegOps.asTuple peg1) = Some color
    ∧ getPeg b (PegOps.asTuple peg2) = Some color
    ∧ existsb (blocks peg1 peg2) (redBarrierState b ++ blackBarrierState b) = false
    ∧ color ≠ X.
Proof.
  unfold placeBarrier.
  destruct (dist2 peg1 peg2 =? 5) eqn:Ed; simpl;
    [apply Z.eqb_eq in Ed | apply Z.eqb_neq in Ed; split; [discriminate | tauto]].
  repeat case_bool_decide; simpl; try (split; [discriminate | tauto]).
  destruct (existsb _ _); simpl; [split; [discriminate | intros (_&_&_&?&_); discriminate] |].
  destruct color; simpl; split; try discriminate; try tauto; try (intros; repeat split; congruence).
Qed.

Lemma placeBarrier_true_board (b : Board) (peg1 peg2 : Peg) (color : Player) :
  snd (placeBarrier b peg1 peg2 color) = true →
  fst (placeBarrier b peg1 peg2 color) =
  match color with
  | R => mkBoard (pegState b) (redBarrierState b ++ [ordered peg1 peg2]) (blackBarrierState b)
  | B => mkBoard (pegState b) (redBarrierState b) (blackBarrierState b ++ [ordered peg1 peg2])
  | X => b
  end.
Proof.
  unfold placeBarrier.
  repeat match goal with |- context [if ?c then _ else _] => destruct c end;
    destruct color; simpl; congruence.
Qed.

(** C6: [placeBarrier] returns false and the board unchanged when the
    squared distance of the two pegs is not 5, or when one of the two cells
    does not hold the colour.  On a board without barriers where (2,2) and
    (3,4) hold Red, the Red barrier (2,2)-(3,4) is accepted; the barrier
    (2,2)-(4,4) is refused on every board for every colour. *)
Theorem placeBarrier_requires :
  (∀ (b : Board) (pegA pegB : Peg) (color : Player),
     color = R ∨ color = B →
     (px pegB - px pegA) ^ 2 + (py pegB - py pegA) ^ 2 ≠ 5
     ∨ getPeg b (PegOps.asTuple pegA) ≠ Some color
     ∨ getPeg b (PegOps.asTuple pegB) ≠ Some color →
     placeBarrier b pegA pegB color = (b, false))
  ∧ (∀ b : Board,
       getPeg b (2, 2) = Some R → getPeg b (3, 4) = Some R →
       redBarrierState b = [] → blackBarrierState b = [] →
       snd (placeBarrier b (mkPeg 2 2) (mkPeg 3 4) R) = true)
  ∧ (∀ (b : Board) (color : Player),
       placeBarrier b (mkPeg 2 2) (mkPeg 4 4) color = (b, false)).
Proof.
  split; [| split].
  - intros b pegA pegB color _ H.
    destruct (snd (placeBarrier b pegA pegB color)) eqn:E.
    + apply placeBarrier_true in E. destruct E as (Hd & HA & HB & _).
      unfold dist2 in Hd. destruct H as [H | [H | H]]; [lia | congruence | congruence].
    + rewrite (surjective_pairing (placeBarrier b pegA pegB color)), E.
      by rewrite placeBarrier_false_same.
  - intros b HA HB Hr Hb. apply placeBarrier_true.
    rewrite Hr, Hb. simpl. repeat split; try assumption; discriminate.
  - intros b color. reflexivity.
Qed.

(** On a fresh board no cell holds Red. *)
Lemma placeBarrier_requires_witness :
  (R = R ∨ R = B)
  ∧ ((px (mkPeg 3 4) - px (mkPeg 2 2)) ^ 2 + (py (mkPeg 3 4) - py (mkPeg 2 2)) ^ 2 ≠ 5
     ∨ getPeg new_Board (PegOps.asTuple (mkPeg 2 2)) ≠ Some R
     ∨ getPeg new_Board (PegOps.asTuple (mkPeg 3 4)) ≠ Some R)
  ∧ placeBarrier new_Board (mkPeg 2 2) (mkPeg 3 4) R = (new_Board, false).
Proof.
  assert (H : (px (mkPeg 3 4) - px (mkPeg 2 2)) ^ 2
              + (py (mkPeg 3 4) - py (mkPeg 2 2)) ^ 2 ≠ 5
              ∨ getPeg new_Board (PegOps.asTuple (mkPeg 2 2)) ≠ Some R
              ∨ getPeg new_Board (PegOps.asTuple (mkPeg 3 4)) ≠ Some R).
  { right; left. vm_compute. discriminate. }
  split; [left; reflexivity |]. split; [exact H |].
  exact (proj1 placeBarrier_requires new_Board (mkPeg 2 2) (mkPeg 3 4) R
               (or_introl eq_refl) H).
Defined.

(** ** Adjacency *)

Lemma neighbours_perm (peg : Peg) (l : list Barrier) :
  neighbours peg l
  ≡ₚ map snd (filter (λ bar : Barrier, fst bar = peg) l)
     ++ map fst (filter (λ bar : Barrier, snd bar = peg) l).
Proof.
  induction l as [| [p1 p2] l IH]; [reflexivity |].
  unfold neighbours in *. simpl flat_map.
  rewrite !filter_cons. simpl.
  destruct (PegOps.equals peg p1) eqn:E1; destruct (PegOps.equals peg p2) eqn:E2;
    rewrite ?equals_spec, ?equals_false in *;
    repeat case_decide; subst; try congruence; simpl; rewrite IH.
  - apply perm_skip, Permutation_middle.
  - reflexivity.
  - apply Permutation_middle.
  - reflexivity.
Qed.

Lemma neighbours_elem (peg q : Peg) (l : list Barrier) :
  q ∈ neighbours peg l ↔ (peg, q) ∈ l ∨ (q, peg) ∈ l.
Proof.
  rewrite neighbours_perm, elem_of_app, !list_elem_of_fmap.
  split.
  - intros [[[a c] [-> H]] | [[a c] [-> H]]];
      apply list_elem_of_filter in H; simpl in *; destruct H as [-> H]; auto.
  - intros [H | H]; [left; exists (peg, q) | right; exists (q, peg)];
      (split; [reflexivity |]); apply list_elem_of_filter; simpl; auto.
Qed.

(** C9: on a cell that holds none, [getAdjacentPegs] returns the empty
    list; on a cell held by a colour, it returns, as a multiset, the second
    endpoints of that colour's barriers whose first endpoint is the peg
    together with the first endpoints of those whose second endpoint is the
    peg; and its result is the same on every board with the same peg map and
    the same barriers of that colour, whatever the other colour's barriers
    are. *)
Theorem getAdjacentPegs_spec (b : Board) (peg : Peg) :
  (getPeg b (PegOps.asTuple peg) = Some X → getAdjacentPegs b peg = [])
  ∧ (∀ c : Player,
       c = R ∨ c = B →
       getPeg b (PegOps.asTuple peg) = Some c →
       getAdjacentPegs b peg
       ≡ₚ map snd (filter (λ bar : Barrier, fst bar = peg) (barriers b c))
          ++ map fst (filter (λ bar : Barrier, snd bar = peg) (barriers b c))
       ∧ ∀ b' : Board,
           pegState b' = pegState b → barriers b' c = barriers b c →
           getAdjacentPegs b' peg = getAdjacentPegs b peg).
Proof.
  unfold getAdjacentPegs. split.
  - intros ->. reflexivity.
  - intros c Hc Hp. split.
    + rewrite Hp. destruct Hc as [-> | ->]; apply neighbours_perm.
    + intros b' Hm Hb. unfold getPeg in *. rewrite Hm, Hp.
      destruct Hc as [-> | ->]; simpl in Hb; by rewrite Hb.
Qed.

(** A Red peg with one Red barrier; a Black barrier at the same
    coordinates is not reported. *)
Lemma getAdjacentPegs_spec_witness :
  let b := mkBoard {[ "2_2" := R ]} [(mkPeg 2 2, mkPeg 3 4)] [(mkPeg 2 2, mkPeg 4 3)] in
  (R = R ∨ R = B)
  ∧ getPeg b (PegOps.asTuple (mkPeg 2 2)) = Some R
  ∧ getAdjacentPegs b (mkPeg 2 2) ≡ₚ [mkPeg 3 4].
Proof.
  intros b.
  assert (Hp : getPeg b (PegOps.asTuple (mkPeg 2 2)) = Some R) by (vm_compute; reflexivity).
  split; [left; reflexivity |]. split; [exact Hp |].
  exact (proj1 (proj2 (getAdjacentPegs_spec b (mkPeg 2 2)) R (or_introl eq_refl) Hp)).
Defined.

(** ** Peg removal *)

Lemma filter_untouched (peg : Peg) (l : list Barrier) :
  List.filter (untouched peg) l
  = filter (λ bar : Barrier, fst bar ≠ peg ∧ snd bar ≠ peg) l.
Proof.
  induction l as [| bar l IH]; [reflexivity |].
  simpl. rewrite filter_cons, IH. unfold untouched.
  destruct (PegOps.equals peg (fst bar)) eqn:E1;
    destruct (PegOps.equals peg (snd bar)) eqn:E2;
    rewrite ?equals_spec, ?equals_false in *; simpl;
    case_decide; try reflexivity; intuition congruence.
Qed.

(** C5: for a colour Red or Black, [removePeg] returns false and the board
    unchanged unless the cell holds the colour; when it does, the call
    returns true, the cell then holds none and the other cells are as
    before, the colour's barriers are those of before that do not have the
    peg as an endpoint (in their order), the other colour's barriers are as
    before, and [getAdjacentPegs] at the peg returns the empty list. *)
Theorem removePeg_spec (b : Board) (peg : Peg) (color : Player) :
  color = R ∨ color = B →
  let res := removePeg b peg color in
  (getPeg b (PegOps.asTuple peg) ≠ Some color → res = (b, false))
  ∧ (getPeg b (PegOps.asTuple peg) = Some color →
     snd res = true
     ∧ getPeg (fst res) (PegOps.asTuple peg) = Some X
     ∧ (∀ k, k ≠ PegOps.asTuple peg → getPeg (fst res) k = getPeg b k)
     ∧ barriers (fst res) color
       = filter (λ bar : Barrier, fst bar ≠ peg ∧ snd bar ≠ peg) (barriers b color)
     ∧ barriers (fst res) (opponent color) = barriers b (opponent color)
     ∧ getAdjacentPegs (fst res) peg = []).
Proof.
  intros Hc res. subst res. unfold removePeg. split.
  - intros H. by rewrite bool_decide_eq_false_2.
  - intros H. rewrite bool_decide_eq_true_2 by exact H. simpl.
    split; [reflexivity |]. split; [apply getPeg_setPeg_same |].
    split; [intros k Hk; rewrite getPeg_setPeg_other by congruence;
            by destruct Hc as [-> | ->] |].
    unfold getAdjacentPegs. rewrite getPeg_setPeg_same.
    destruct Hc as [-> | ->]; simpl; rewrite filter_untouched; auto.
Qed.

(** Two Red barriers in a row; removing the peg at one end keeps the
    other barrier. *)
Lemma removePeg_spec_witness :
  let b := mkBoard {[ "2_2" := R; "3_4" := R; "4_6" := R ]}
                   [(mkPeg 2 2, mkPeg 3 4); (mkPeg 3 4, mkPeg 4 6)] [] in
  (R = R ∨ R = B)
  ∧ getPeg b (PegOps.asTuple (mkPeg 2 2)) = Some R
  ∧ barriers (fst (removePeg b (mkPeg 2 2) R)) R
    = filter (λ bar : Barrier, fst bar ≠ mkPeg 2 2 ∧ snd bar ≠ mkPeg 2 2) (barriers b R).
Proof.
  intros b.
  assert (Hp : getPeg b (PegOps.asTuple (mkPeg 2 2)) = Some R) by (vm_compute; reflexivity).
  split; [left; reflexivity |]. split; [exact Hp |].
  destruct (removePeg_spec b (mkPeg 2 2) R (or_introl eq_refl)) as [_ H].
  exact (proj1 (proj2 (proj2 (proj2 (H Hp))))).
Defined.

(** ** Slopes and the canonical order of endpoints *)

Lemma inject_Z_is_zero (z : Z) : Qeq_bool (inject_Z z) (inject_Z 0) = (z =? 0).
Proof. unfold Qeq_bool, inject_Z; simpl. by rewrite Z.mul_1_r. Qed.

Lemma inject_Z_nonzero (z : Z) : z ≠ 0 → ¬ Qeq (inject_Z z) (inject_Z 0).
Proof.
  intros Hz H. apply Qeq_bool_iff in H. rewrite inject_Z_is_zero in H.
  apply Z.eqb_eq in H. contradiction.
Qed.

Lemma slope_finite (p q : Peg) :
  px q ≠ px p →
  slope p q = JsNum.Fin (Qdiv (inject_Z (py q - py p)) (inject_Z (px q - px p))).
Proof.
  intros H. unfold slope, JsNum.div, JsNum.of_Z.
  rewrite inject_Z_is_zero. destruct (Z.eqb_spec (px q - px p) 0); [lia | reflexivity].
Qed.

Lemma slope_eq_refl (p q : Peg) : px q ≠ px p → JsNum.eq (slope p q) (slope p q) = true.
Proof.
  intros H. rewrite slope_finite by exact H. simpl. apply Qeq_bool_iff. reflexivity.
Qed.

Lemma slope_eq_swap (p q : Peg) : px q ≠ px p → JsNum.eq (slope p q) (slope q p) = true.
Proof.
  intros H. rewrite (slope_finite p q), (slope_finite q p) by congruence. simpl.
  apply Qeq_bool_iff.
  replace (py p - py q) with (- (py q - py p)) by lia.
  replace (px p - px q) with (- (px q - px p)) by lia.
  rewrite !inject_Z_opp.
  assert (Hn : ¬ Qeq (inject_Z (px q - px p)) (inject_Z 0))
    by (apply inject_Z_nonzero; lia).
  change (inject_Z 0) with 0%Q in Hn. field. exact Hn.
Qed.

Lemma dist2_5_cases (p q : Peg) :
  dist2 p q = 5 →
  ((px q - px p = 1 ∨ px q - px p = -1) ∧ (py q - py p = 2 ∨ py q - py p = -2))
  ∨ ((px q - px p = 2 ∨ px q - px p = -2) ∧ (py q - py p = 1 ∨ py q - py p = -1)).
Proof.
  unfold dist2. intros H.
  assert (-2 ≤ px q - px p ≤ 2) by nia.
  assert (-2 ≤ py q - py p ≤ 2) by nia.
  assert (Hx : px q - px p = -2 ∨ px q - px p = -1 ∨ px q - px p = 0
               ∨ px q - px p = 1 ∨ px q - px p = 2) by lia.
  assert (Hy : py q - py p = -2 ∨ py q - py p = -1 ∨ py q - py p = 0
               ∨ py q - py p = 1 ∨ py q - py p = 2) by lia.
  destruct Hx as [Hx | [Hx | [Hx | [Hx | Hx]]]];
    destruct Hy as [Hy | [Hy | [Hy | [Hy | Hy]]]];
    rewrite Hx, Hy in H; try discriminate H; auto.
Qed.

Lemma dist2_5_run (p q : Peg) : dist2 p q = 5 → px q ≠ px p.
Proof. intros H. destruct (dist2_5_cases p q H) as [[? _] | [? _]]; lia. Qed.

Lemma lt_flip (p q : Peg) : p ≠ q → PegOps.lt q p = negb (PegOps.lt p q).
Proof.
  intros H. unfold PegOps.lt. destruct p as [a c], q as [a' c']; simpl.
  destruct (Z.eqb_spec a a'), (Z.eqb_spec a' a); try congruence; subst.
  - destruct (Z.ltb_spec c' c), (Z.ltb_spec c c'); simpl; try reflexivity; try lia.
    assert (c = c') by lia. congruence.
  - destruct (Z.ltb_spec a' a), (Z.ltb_spec a a'); simpl; try reflexivity; lia.
Qed.

Lemma ordered_swap (p q : Peg) : p ≠ q → ordered q p = ordered p q.
Proof.
  intros H. unfold ordered. rewrite (lt_flip p q H).
  by destruct (PegOps.lt p q).
Qed.

Lemma ordered_cases (p q : Peg) : ordered p q = (p, q) ∨ ordered p q = (q, p).
Proof. unfold ordered. destruct (PegOps.lt p q); auto. Qed.

(** An existing barrier with the endpoints of the proposal stops the
    placement. *)
Lemma blocks_same (p q : Peg) (bar : Barrier) :
  dist2 p q = 5 → bar = (p, q) ∨ bar = (q, p) → blocks p q bar = true.
Proof.
  intros Hd Hbar. pose proof (dist2_5_run p q Hd) as Hr.
  unfold blocks. destruct Hbar as [-> | ->].
  - rewrite slope_eq_refl by exact Hr. by rewrite !equals_refl.
  - rewrite slope_eq_swap by exact Hr. rewrite !equals_refl. apply orb_true_r.
Qed.

Lemma splice_first_spec (bar : Barrier) (l : list Barrier) :
  splice_first bar l
  = match l with
    | [] => None
    | t :: rest =>
        if bool_decide (t = bar) then Some rest
        else option_map (cons t) (splice_first bar rest)
    end.
Proof.
  destruct l as [| [t1 t2] rest]; [reflexivity |]. destruct bar as [b1 b2]. simpl.
  destruct (PegOps.equals b1 t1) eqn:E1; destruct (PegOps.equals b2 t2) eqn:E2;
    rewrite ?equals_spec, ?equals_false in *; simpl;
    case_bool_decide; try reflexivity; congruence.
Qed.

Lemma splice_first_last (bar : Barrier) (l : list Barrier) :
  bar ∉ l → splice_first bar (l ++ [bar]) = Some l.
Proof.
  induction l as [| t l IH]; intros H; rewrite splice_first_spec; simpl.
  - by rewrite bool_decide_eq_true_2.
  - rewrite not_elem_of_cons in H. destruct H as [Hne Hl].
    rewrite bool_decide_eq_false_2 by congruence. by rewrite IH.
Qed.

(** ** Round trip of a barrier *)

(** C8: when [placeBarrier] returns true, [removeBarrier] on the board it
    returns, with the same two pegs in either order and the same colour,
    returns true and gives back the board of before the placement: the
    colour's barriers, the other colour's barriers and the peg map. *)
Theorem barrier_roundtrip (b : Board) (pegA pegB : Peg) (color : Player) :
  snd (placeBarrier b pegA pegB color) = true →
  let b1 := fst (placeBarrier b pegA pegB color) in
  removeBarrier b1 pegA pegB color = (b, true)
  ∧ removeBarrier b1 pegB pegA color = (b, true).
Proof.
  intros Hok b1. subst b1. rewrite (placeBarrier_true_board _ _ _ _ Hok).
  apply placeBarrier_true in Hok. destruct Hok as (Hd & _ & _ & Hfree & Hc).
  assert (Hne : pegA ≠ pegB).
  { intros ->. unfold dist2 in Hd. replace (py pegB - py pegB) with 0 in Hd by lia.
    replace (px pegB - px pegB) with 0 in Hd by lia. discriminate Hd. }
  assert (Hnew : ∀ l : list Barrier,
             (∀ t, t ∈ l → t ∈ redBarrierState b ++ blackBarrierState b) →
                      ordered pegA pegB ∉ l).
  { intros l Hl Hin. apply Hl in Hin.
    assert (blocks pegA pegB (ordered pegA pegB) = true) as Hb
        by (apply blocks_same; [exact Hd | apply ordered_cases]).
    assert (existsb (blocks pegA pegB) (redBarrierState b ++ blackBarrierState b) = true).
    { apply existsb_exists. exists (ordered pegA pegB). split; [| exact Hb].
      by apply list_elem_of_In. }
    congruence. }
  unfold removeBarrier. rewrite (ordered_swap pegA pegB Hne). destruct b as [m r bl]. destruct color; [| | congruence]; simpl in *.
  - rewrite splice_first_last; [auto |]. apply Hnew. intros t Ht. apply elem_of_app; auto.
  - rewrite splice_first_last; [auto |]. apply Hnew. intros t Ht. apply elem_of_app; auto.
Qed.

(** The barrier is placed from (3,4) to (2,2) and removed from (2,2) to
    (3,4). *)
Lemma barrier_roundtrip_witness :
  let b := mkBoard {[ "2_2" := R; "3_4" := R ]} [] [(mkPeg 5 5, mkPeg 6 7)] in
  snd (placeBarrier b (mkPeg 3 4) (mkPeg 2 2) R) = true
  ∧ removeBarrier (fst (placeBarrier b (mkPeg 3 4) (mkPeg 2 2) R))
                  (mkPeg 2 2) (mkPeg 3 4) R = (b, true).
Proof.
  intros b.
  assert (H : snd (placeBarrier b (mkPeg 3 4) (mkPeg 2 2) R) = true)
    by (vm_compute; reflexivity).
  split; [exact H | exact (proj2 (barrier_roundtrip b (mkPeg 3 4) (mkPeg 2 2) R H))].
Defined.

(** ** The barrier invariant *)

Lemma splice_first_subset (bar : Barrier) (l l' : list Barrier) :
  splice_first bar l = Some l' → ∀ t, t ∈ l' → t ∈ l.
Proof.
  revert l'. induction l as [| t0 l IH]; intros l' H; [discriminate |].
  rewrite splice_first_spec in H. case_bool_decide.
  - injection H as <-. intros t Ht. by right.
  - destruct (splice_first bar l) as [l0 |]; [| discriminate].
    injection H as <-. intros t Ht. apply elem_of_cons in Ht as [-> | Ht].
    + by left.
    + right. by apply (IH l0).
Qed.

Lemma barrier_ok_setPeg (b : Board) (k : Z * Z) (v c : Player) (bar : Barrier) :
  getPeg b k ≠ Some c → barrier_ok b c bar → barrier_ok (_setPeg b k v) c bar.
Proof.
  intros Hk (Hd & H1 & H2). repeat split; [exact Hd | |];
    rewrite getPeg_setPeg_other; congruence.
Qed.

Lemma placePeg_barriers_ok (b : Board) (peg : Peg) (color : Player) :
  barriers_ok b → barriers_ok (fst (placePeg b peg color)).
Proof.
  intros Hinv. destruct (snd (placePeg b peg color)) eqn:E;
    [| by rewrite placePeg_false_same].
  rewrite (placePeg_true_board _ _ _ E). apply placePeg_true in E as [Hx _].
  destruct Hinv as [Hr Hb]. split; intros bar Hbar; simpl in Hbar;
    apply barrier_ok_setPeg; auto; congruence.
Qed.

Lemma barrier_ok_ordered (b : Board) (p q : Peg) (c : Player) :
  dist2 p q = 5 →
  getPeg b (PegOps.asTuple p) = Some c → getPeg b (PegOps.asTuple q) = Some c →
  barrier_ok b c (ordered p q).
Proof.
  intros Hd Hp Hq. unfold dist2 in Hd.
  destruct (ordered_cases p q) as [-> | ->]; repeat split; simpl; auto; lia.
Qed.

Lemma placeBarrier_barriers_ok (b : Board) (peg1 peg2 : Peg) (color : Player) :
  barriers_ok b → barriers_ok (fst (placeBarrier b peg1 peg2 color)).
Proof.
  intros Hinv. destruct (snd (placeBarrier b peg1 peg2 color)) eqn:E;
    [| by rewrite placeBarrier_false_same].
  rewrite (placeBarrier_true_board _ _ _ _ E).
  apply placeBarrier_true in E as (Hd & H1 & H2 & _ & Hc).
  pose proof (barrier_ok_ordered b peg1 peg2 color Hd H1 H2) as Hnew.
  destruct Hinv as [Hr Hb].
  destruct color; [| | congruence]; split; intros bar Hbar; simpl in Hbar;
    try apply elem_of_app in Hbar as [Hbar | Hbar%list_elem_of_singleton]; subst;
    first [by apply Hr | by apply Hb | exact Hnew].
Qed.

Lemma removePeg_barriers_ok (b : Board) (peg : Peg) (color : Player) :
  barriers_ok b → barriers_ok (fst (removePeg b peg color)).
Proof.
  intros [Hr Hb]. unfold removePeg. case_bool_decide as Hp; [| by split].
  assert (Hkeep : ∀ c bar l, (∀ t, t ∈ l → barrier_ok b c t) →
                             bar ∈ List.filter (untouched peg) l →
                             barrier_ok (_setPeg b (PegOps.asTuple peg) X) c bar).
  { intros c bar l Hl Hbar. rewrite filter_untouched in Hbar.
    apply list_elem_of_filter in Hbar as [[Hf Hs] Hbar].
    destruct (Hl _ Hbar) as (Hd & H1 & H2).
    repeat split; [exact Hd | |]; rewrite getPeg_setPeg_other; auto;
      intros Heq; apply asTuple_inj in Heq; congruence. }
  assert (Hother : ∀ c bar, c ≠ color → barrier_ok b c bar →
                            barrier_ok (_setPeg b (PegOps.asTuple peg) X) c bar).
  { intros c bar Hc Hbar. apply barrier_ok_setPeg; [congruence | exact Hbar]. }
  simpl. case_bool_decide as Hc; simpl; split; intros bar Hbar; simpl in Hbar.
  - by apply (Hkeep R bar (redBarrierState b)).
  - apply Hother; [congruence | by apply Hb].
  - apply Hother; [congruence | by apply Hr].
  - by apply (Hkeep B bar (blackBarrierState b)).
Qed.

Lemma removeBarrier_barriers_ok (b : Board) (peg1 peg2 : Peg) (color : Player) :
  barriers_ok b → barriers_ok (fst (removeBarrier b peg1 peg2 color)).
Proof.
  intros [Hr Hb]. unfold removeBarrier.
  case_bool_decide; destruct (splice_first _ _) as [l |] eqn:E; simpl;
    try (by split); split; intros bar Hbar; simpl in Hbar;
    try (by apply Hr); try (by apply Hb).
  - destruct (Hr bar) as (Hd & H1 & H2); [by eapply splice_first_subset | by repeat split].
  - destruct (Hb bar) as (Hd & H1 & H2); [by eapply splice_first_subset | by repeat split].
Qed.

Lemma run_barriers_ok (b : Board) (o : Op) :
  barriers_ok b → barriers_ok (fst (run b o)).
Proof.
  destruct o; simpl.
  - apply placePeg_barriers_ok.
  - apply placeBarrier_barriers_ok.
  - apply removePeg_barriers_ok.
  - apply removeBarrier_barriers_ok.
Qed.

Lemma new_Board_barriers_ok : barriers_ok new_Board.
Proof. split; intros bar Hbar; simpl in Hbar; by apply elem_of_nil in Hbar. Qed.

Lemma reachable_barriers_ok (b : Board) : reachable b → barriers_ok b.
Proof.
  induction 1 as [| b o _ IH]; [apply new_Board_barriers_ok | by apply run_barriers_ok].
Qed.

(** C4: on every board reachable from a fresh board, every Red barrier and
    every Black barrier has squared length 5 and has both endpoints on cells
    that hold its owner's colour; and each of [placePeg], [placeBarrier],
    [removePeg] and [removeBarrier] keeps that property. *)
Theorem barriers_invariant :
  (∀ b : Board,
     reachable b →
     (∀ bar, bar ∈ redBarrierState b →
             (px (snd bar) - px (fst bar)) ^ 2 + (py (snd bar) - py (fst bar)) ^ 2 = 5
             ∧ getPeg b (PegOps.asTuple (fst bar)) = Some R
             ∧ getPeg b (PegOps.asTuple (snd bar)) = Some R)
     ∧ (∀ bar, bar ∈ blackBarrierState b →
               (px (snd bar) - px (fst bar)) ^ 2 + (py (snd bar) - py (fst bar)) ^ 2 = 5
               ∧ getPeg b (PegOps.asTuple (fst bar)) = Some B
               ∧ getPeg b (PegOps.asTuple (snd bar)) = Some B))
  ∧ (∀ (b : Board) (peg : Peg) (color : Player),
       barriers_ok b → barriers_ok (fst (placePeg b peg color)))
  ∧ (∀ (b : Board) (peg1 peg2 : Peg) (color : Player),
       barriers_ok b → barriers_ok (fst (placeBarrier b peg1 peg2 color)))
  ∧ (∀ (b : Board) (peg : Peg) (color : Player),
       barriers_ok b → barriers_ok (fst (removePeg b peg color)))
  ∧ (∀ (b : Board) (peg1 peg2 : Peg) (color : Player),
       barriers_ok b → barriers_ok (fst (removeBarrier b peg1 peg2 color))).
Proof.
  split; [exact reachable_barriers_ok |].
  split; [exact placePeg_barriers_ok |].
  split; [exact placeBarrier_barriers_ok |].
  split; [exact removePeg_barriers_ok | exact removeBarrier_barriers_ok].
Qed.

(** Two Red pegs and the barrier between them, placed on a fresh board. *)
Lemma barriers_invariant_witness :
  let b := fst (run (fst (run (fst (run new_Board (PlacePeg (mkPeg 2 2) R)))
                               (PlacePeg (mkPeg 3 4) R)))
                    (PlaceBarrier (mkPeg 2 2) (mkPeg 3 4) R)) in
  reachable b
  ∧ redBarrierState b = [(mkPeg 2 2, mkPeg 3 4)]
  ∧ barriers_ok b.
Proof.
  intros b.
  assert (Hr : reachable b) by (subst b; repeat apply reach_step; apply reach_new).
  split; [exact Hr |]. split; [vm_compute; reflexivity |].
  exact (proj1 barriers_invariant b Hr).
Defined.

(** ** The crossing point of two lines *)

Section CrossingPoint.

Local Open Scope Q_scope.

(** A point and a direction for each line; neither line is vertical and
    the slopes differ. *)
Variables x1 y1 a1 b1 x3 y3 a3 b3 : Q.
Hypothesis run1 : ¬ a1 == 0.
Hypothesis run3 : ¬ a3 == 0.
Hypothesis slopes : ¬ b1 / a1 == b3 / a3.

Lemma slope_gap : ¬ b1 / a1 - b3 / a3 == 0.
Proof.
  intros H. apply slopes.
  setoid_replace (b1 / a1) with ((b1 / a1 - b3 / a3) + b3 / a3)
    using relation Qeq by ring.
  rewrite H. ring.
Qed.

Lemma determinant_nonzero : ¬ b1 * a3 - b3 * a1 == 0.
Proof.
  intros H. apply slope_gap.
  setoid_replace (b1 / a1 - b3 / a3) with ((b1 * a3 - b3 * a1) / (a1 * a3))
    using relation Qeq by (field; split; assumption).
  rewrite H. field. split; assumption.
Qed.

Lemma crossing_on_first :
  let x0 := meet_x x1 y1 (b1 / a1) x3 y3 (b3 / a3) in
  (meet_y x1 y1 (b1 / a1) x0 - y1) * a1 == (x0 - x1) * b1.
Proof.
  pose proof determinant_nonzero as HD.
  unfold meet_y, meet_x. field. repeat split; assumption.
Qed.

Lemma crossing_on_second :
  let x0 := meet_x x1 y1 (b1 / a1) x3 y3 (b3 / a3) in
  (meet_y x1 y1 (b1 / a1) x0 - y3) * a3 == (x0 - x3) * b3.
Proof.
  pose proof determinant_nonzero as HD.
  unfold meet_y, meet_x. field. repeat split; assumption.
Qed.

Lemma crossing_unique (x y : Q) :
  (y - y1) * a1 == (x - x1) * b1 →
  (y - y3) * a3 == (x - x3) * b3 →
  x == meet_x x1 y1 (b1 / a1) x3 y3 (b3 / a3)
  ∧ y == meet_y x1 y1 (b1 / a1) (meet_x x1 y1 (b1 / a1) x3 y3 (b3 / a3)).
Proof.
  intros H1 H3. pose proof determinant_nonzero as HD.
  assert (Hx : x * (b1 * a3 - b3 * a1)
               == x1 * b1 * a3 - x3 * b3 * a1 + (y3 - y1) * a1 * a3).
  { setoid_replace (x * (b1 * a3 - b3 * a1))
      with (a3 * ((x - x1) * b1) - a1 * ((x - x3) * b3)
            + x1 * b1 * a3 - x3 * b3 * a1) using relation Qeq by ring.
    rewrite <- H1, <- H3. ring. }
  assert (Ex : x == meet_x x1 y1 (b1 / a1) x3 y3 (b3 / a3)).
  { setoid_replace x with (x * (b1 * a3 - b3 * a1) / (b1 * a3 - b3 * a1))
      using relation Qeq by (field; assumption).
    rewrite Hx. unfold meet_x. field. repeat split; assumption. }
  split; [exact Ex |].
  setoid_replace y with ((y - y1) * a1 / a1 + y1)
    using relation Qeq by (field; assumption).
  rewrite H1. unfold meet_y.
  setoid_replace ((x - x1) * b1 / a1) with (b1 / a1 * (x - x1))
    using relation Qeq by (field; assumption).
  rewrite Ex at 1. reflexivity.
Qed.

End CrossingPoint.

(** ** The loop body of placeBarrier *)

Lemma Qltb_lt (a c : Q) : JsNum.Qltb a c = true ↔ (a < c)%Q.
Proof.
  unfold JsNum.Qltb. rewrite negb_true_iff. split.
  - intros H. apply Qnot_le_lt. intros Hle. apply Qle_bool_iff in Hle. congruence.
  - intros H. destruct (Qle_bool c a) eqn:E; [| reflexivity].
    apply Qle_bool_iff in E. exfalso. exact (Qlt_not_le _ _ H E).
Qed.

Lemma between_finite (v : Q) (e1 e2 : Z) :
  between (JsNum.Fin v) (JsNum.of_Z e1) (JsNum.of_Z e2) = true
  ↔ strictly_between v e1 e2.
Proof.
  unfold between, strictly_between, JsNum.gt, JsNum.of_Z. simpl.
  rewrite orb_true_iff, !andb_true_iff, !Qltb_lt. tauto.
Qed.

Lemma slope_slopeQ (p q : Peg) : px q ≠ px p → slope p q = JsNum.Fin (slopeQ p q).
Proof. apply slope_finite. Qed.

Lemma cross_x_finite (p r : Peg) (m1 m3 : Q) :
  Qeq_bool m1 m3 = false →
  cross_x p r (JsNum.Fin m1) (JsNum.Fin m3) = JsNum.Fin (crossQ_x p r m1 m3).
Proof.
  intros H. unfold cross_x, crossQ_x. simpl.
  destruct (Qeq_bool (m1 + - m3) (inject_Z 0)) eqn:E; [| reflexivity].
  apply Qeq_bool_iff in E. exfalso.
  apply Qeq_bool_neq in H. apply H.
  change (inject_Z 0) with 0%Q in E. lra.
Qed.

Lemma blocks_parallel (p q r s : Peg) :
  px q ≠ px p → px s ≠ px r → (slopeQ p q == slopeQ r s)%Q →
  blocks p q (r, s) = true ↔ same_endpoints p q (r, s).
Proof.
  intros Hp Hr Hm. unfold blocks, same_endpoints.
  rewrite !slope_slopeQ by assumption. simpl.
  rewrite (proj2 (Qeq_bool_iff _ _) Hm).
  rewrite orb_true_iff, !andb_true_iff, !equals_spec.
  split.
  - intros [[-> ->] | [-> ->]]; auto.
  - intros [[= -> ->] | [= -> ->]]; auto.
Qed.

Lemma blocks_transversal (p q r s : Peg) :
  px q ≠ px p → px s ≠ px r → ¬ (slopeQ p q == slopeQ r s)%Q →
  blocks p q (r, s) = true ↔ crosses_inside p q r s.
Proof.
  intros Hp Hr Hm.
  assert (Hrun1 : ¬ (inject_Z (px q - px p) == 0)%Q)
    by (apply (inject_Z_nonzero (px q - px p)); lia).
  assert (Hrun3 : ¬ (inject_Z (px s - px r) == 0)%Q)
    by (apply (inject_Z_nonzero (px s - px r)); lia).
  assert (Hb : Qeq_bool (slopeQ p q) (slopeQ r s) = false).
  { destruct (Qeq_bool _ _) eqn:E; [| reflexivity]. apply Qeq_bool_iff in E. contradiction. }
  unfold blocks. rewrite !slope_slopeQ by assumption. simpl JsNum.eq. rewrite Hb.
  rewrite cross_x_finite by exact Hb.
  set (x0 := crossQ_x p r (slopeQ p q) (slopeQ r s)).
  change (cross_y p (JsNum.Fin (slopeQ p q)) (JsNum.Fin x0))
    with (JsNum.Fin (crossQ_y p (slopeQ p q) x0)).
  set (y0 := crossQ_y p (slopeQ p q) x0).
  rewrite !andb_true_iff, !between_finite.
  pose proof (crossing_on_first (inject_Z (px p)) (inject_Z (py p)) _ _
                (inject_Z (px r)) (inject_Z (py r)) _ _ Hrun1 Hrun3 Hm) as On1.
  pose proof (crossing_on_second (inject_Z (px p)) (inject_Z (py p)) _ _
                (inject_Z (px r)) (inject_Z (py r)) _ _ Hrun1 Hrun3 Hm) as On3.
  split.
  - intros [[[Hx1 Hx3] Hy1] Hy3]. exists x0, y0. repeat split; assumption.
  - intros (x & y & H1 & H3 & Hx1 & Hx3 & Hy1 & Hy3).
    destruct (crossing_unique (inject_Z (px p)) (inject_Z (py p)) _ _
                (inject_Z (px r)) (inject_Z (py r)) _ _ Hrun1 Hrun3 Hm x y H1 H3)
      as [Ex Ey].
    change (x == x0)%Q in Ex. change (y == y0)%Q in Ey.
    unfold strictly_between in *. rewrite <- Ex, <- Ey. tauto.
Qed.

Lemma on_line_first (p q : Peg) : on_line p q (inject_Z (px p)) (inject_Z (py p)).
Proof. unfold on_line. ring. Qed.

Lemma on_line_second (p q : Peg) : on_line p q (inject_Z (px q)) (inject_Z (py q)).
Proof.
  unfold on_line.
  rewrite <- (Z.add_opp_r (px q)), <- (Z.add_opp_r (py q)), !inject_Z_plus, !inject_Z_opp.
  ring.
Qed.

Lemma strictly_between_irrefl_l (v : Q) (e1 e2 : Z) :
  (v == inject_Z e1)%Q → ¬ strictly_between v e1 e2.
Proof. unfold strictly_between. intros E [[H1 H2] | [H1 H2]]; lra. Qed.

Lemma strictly_between_irrefl_r (v : Q) (e1 e2 : Z) :
  (v == inject_Z e2)%Q → ¬ strictly_between v e1 e2.
Proof. unfold strictly_between. intros E [[H1 H2] | [H1 H2]]; lra. Qed.

(** Two lines of different slopes through a common peg meet only there. *)
Lemma common_peg_is_crossing (p q r s e : Peg) (x y : Q) :
  px q ≠ px p → px s ≠ px r → ¬ (slopeQ p q == slopeQ r s)%Q →
  on_line p q (inject_Z (px e)) (inject_Z (py e)) →
  on_line r s (inject_Z (px e)) (inject_Z (py e)) →
  on_line p q x y → on_line r s x y →
  (x == inject_Z (px e))%Q.
Proof.
  intros Hp Hr Hm He1 He3 H1 H3.
  assert (Hrun1 : ¬ (inject_Z (px q - px p) == 0)%Q)
    by (apply (inject_Z_nonzero (px q - px p)); lia).
  assert (Hrun3 : ¬ (inject_Z (px s - px r) == 0)%Q)
    by (apply (inject_Z_nonzero (px s - px r)); lia).
  destruct (crossing_unique _ _ _ _ _ _ _ _ Hrun1 Hrun3 Hm x y H1 H3) as [Ex _].
  destruct (crossing_unique _ _ _ _ _ _ _ _ Hrun1 Hrun3 Hm _ _ He1 He3) as [Ee _].
  rewrite Ex, Ee. reflexivity.
Qed.

Lemma touching_not_crossing (p q : Peg) (bar : Barrier) :
  px q ≠ px p →
  ¬ (slopeQ p q == slopeQ (fst bar) (snd bar))%Q →
  shares_endpoint p q bar →
  ¬ crosses_inside p q (fst bar) (snd bar).
Proof.
  intros Hp Hm Hsh (x & y & H1 & H3 & Hx1 & Hx3 & _).
  destruct bar as [r s]; simpl in *.
  assert (Hr : px s ≠ px r).
  { intros Hr. rewrite Hr in Hx3. revert Hx3.
    unfold strictly_between. intros [[? ?] | [? ?]]; lra. }
  assert (∃ e, (e = p ∨ e = q) ∧ (e = r ∨ e = s)) as (e & Hpq & Hrs).
  { destruct Hsh as [<- | [<- | [<- | <-]]]; eauto. }
  assert (Ex : (x == inject_Z (px e))%Q).
  { apply (common_peg_is_crossing p q r s e x y); try assumption.
    - destruct Hpq as [-> | ->]; [apply on_line_first | apply on_line_second].
    - destruct Hrs as [-> | ->]; [apply on_line_first | apply on_line_second]. }
  destruct Hpq as [-> | ->].
  - exact (strictly_between_irrefl_l _ _ _ Ex Hx1).
  - exact (strictly_between_irrefl_r _ _ _ Ex Hx1).
Qed.

(** A stored barrier whose two pegs share a column (a forged one: no
    placement stores it) never stops a placement: its slope is infinite or
    NaN and the crossing abscissa comes out as NaN. *)
Lemma blocks_vertical (p q r s : Peg) :
  px q ≠ px p → px s = px r → blocks p q (r, s) = false.
Proof.
  intros Hp Hr. unfold blocks. rewrite (slope_slopeQ p q Hp).
  unfold slope, cross_x, cross_y. rewrite Hr, Z.sub_diag.
  unfold JsNum.of_Z. cbn [JsNum.div]. rewrite inject_Z_is_zero. cbn [Z.eqb].
  destruct (JsNum.sgn (inject_Z (py s - py r))); cbn;
    try reflexivity;
    destruct (JsNum.sgn (inject_Z (px r))); cbn; reflexivity.
Qed.

Lemma strictly_between_empty (v : Q) (e : Z) : ¬ strictly_between v e e.
Proof. unfold strictly_between. intros [[H1 H2] | [H1 H2]]; lra. Qed.

Lemma blocks_iff (p q : Peg) (bar : Barrier) :
  px q ≠ px p →
  blocks p q bar = true
  ↔ ((slopeQ p q == slopeQ (fst bar) (snd bar))%Q ∧ same_endpoints p q bar)
    ∨ (¬ (slopeQ p q == slopeQ (fst bar) (snd bar))%Q
       ∧ crosses_inside p q (fst bar) (snd bar)).
Proof.
  intros Hp. destruct bar as [r s]; cbn [fst snd].
  destruct (decide (px s = px r)) as [Hr | Hr].
  - rewrite (blocks_vertical p q r s Hp Hr). split; [discriminate |].
    intros [[_ [[= -> ->] | [= -> ->]]] | [_ (x & y & _ & _ & _ & Hx & _)]];
      [congruence | congruence |].
    rewrite Hr in Hx. by apply strictly_between_empty in Hx.
  - destruct (Qeq_dec (slopeQ p q) (slopeQ r s)) as [Hm | Hm].
    + rewrite (blocks_parallel p q r s Hp Hr Hm). tauto.
    + rewrite (blocks_transversal p q r s Hp Hr Hm). tauto.
Qed.

(** ** Barrier placement: the crossing test *)

(** C2: for a colour Red or Black and a proposal of squared length 5 whose
    two pegs hold the colour, on every board that the four operations make
    from a fresh board, [placeBarrier] returns false
    exactly when some stored barrier of either colour has the slope of the
    proposal and the same two endpoints, in either order, or has another
    slope and the two lines meet at a point strictly between the endpoint
    coordinates of both segments on both axes.  When every stored barrier
    differs from the proposal and either has its slope or has a peg in
    common with it, the placement is accepted. *)
Theorem placeBarrier_crossing (b : Board) (pegA pegB : Peg) (color : Player) :
  reachable b →
  color = R ∨ color = B →
  (px pegB - px pegA) ^ 2 + (py pegB - py pegA) ^ 2 = 5 →
  getPeg b (PegOps.asTuple pegA) = Some color →
  getPeg b (PegOps.asTuple pegB) = Some color →
  (snd (placeBarrier b pegA pegB color) = false
   ↔ ∃ bar, bar ∈ redBarrierState b ++ blackBarrierState b
            ∧ (((slopeQ pegA pegB == slopeQ (fst bar) (snd bar))%Q
                ∧ same_endpoints pegA pegB bar)
               ∨ (¬ (slopeQ pegA pegB == slopeQ (fst bar) (snd bar))%Q
                  ∧ crosses_inside pegA pegB (fst bar) (snd bar))))
  ∧ ((∀ bar, bar ∈ redBarrierState b ++ blackBarrierState b →
             ¬ same_endpoints pegA pegB bar
             ∧ ((slopeQ pegA pegB == slopeQ (fst bar) (snd bar))%Q
                ∨ shares_endpoint pegA pegB bar)) →
     snd (placeBarrier b pegA pegB color) = true).
Proof.
  intros _ Hc Hd HA HB.
  assert (Hd' : dist2 pegA pegB = 5) by (unfold dist2; lia).
  pose proof (dist2_5_run _ _ Hd') as Hrun.
  assert (Hfalse : snd (placeBarrier b pegA pegB color) = false
                   ↔ existsb (blocks pegA pegB)
                             (redBarrierState b ++ blackBarrierState b) = true).
  { destruct (snd (placeBarrier b pegA pegB color)) eqn:E.
    - apply placeBarrier_true in E as (_ & _ & _ & E & _). rewrite E. split; discriminate.
    - destruct (existsb _ _) eqn:E'; [tauto |].
      assert (snd (placeBarrier b pegA pegB color) = true) as E2.
      { apply placeBarrier_true. repeat split; try assumption. destruct Hc; congruence. }
      congruence. }
  assert (Hiff : snd (placeBarrier b pegA pegB color) = false
     ↔ ∃ bar, bar ∈ redBarrierState b ++ blackBarrierState b
              ∧ (((slopeQ pegA pegB == slopeQ (fst bar) (snd bar))%Q
                  ∧ same_endpoints pegA pegB bar)
                 ∨ (¬ (slopeQ pegA pegB == slopeQ (fst bar) (snd bar))%Q
                    ∧ crosses_inside pegA pegB (fst bar) (snd bar)))).
  { rewrite Hfalse, existsb_exists. split.
    - intros (bar & Hin & Hb). apply list_elem_of_In in Hin. exists bar.
      split; [exact Hin |]. by apply blocks_iff.
    - intros (bar & Hin & Hb). exists bar. split; [by apply list_elem_of_In |].
      by apply blocks_iff. }
  split; [exact Hiff |].
  intros Hall. destruct (snd (placeBarrier b pegA pegB color)) eqn:E; [reflexivity |].
  exfalso. destruct (proj1 Hiff eq_refl) as (bar & Hin & Hb).
  destruct (Hall bar Hin) as [Hne Hor].
  destruct Hb as [[_ Hsame] | [Hm Hcross]]; [contradiction |].
  destruct Hor as [Hm' | Hsh]; [contradiction |].
  exact (touching_not_crossing pegA pegB bar Hrun Hm Hsh Hcross).
Qed.

(** After four pegs and the Black barrier (2,4)-(4,3), the Red proposal
    (2,2)-(3,4) crosses that barrier at (14/5, 18/5). *)
Lemma placeBarrier_crossing_witness :
  let b := play [PlacePeg (mkPeg 2 2) R; PlacePeg (mkPeg 3 4) R;
                 PlacePeg (mkPeg 2 4) B; PlacePeg (mkPeg 4 3) B;
                 PlaceBarrier (mkPeg 2 4) (mkPeg 4 3) B] in
  reachable b
  ∧ (R = R ∨ R = B)
  ∧ (px (mkPeg 3 4) - px (mkPeg 2 2)) ^ 2 + (py (mkPeg 3 4) - py (mkPeg 2 2)) ^ 2 = 5
  ∧ getPeg b (PegOps.asTuple (mkPeg 2 2)) = Some R
  ∧ getPeg b (PegOps.asTuple (mkPeg 3 4)) = Some R
  ∧ snd (placeBarrier b (mkPeg 2 2) (mkPeg 3 4) R) = false
  ∧ ∃ bar, bar ∈ redBarrierState b ++ blackBarrierState b
           ∧ (((slopeQ (mkPeg 2 2) (mkPeg 3 4) == slopeQ (fst bar) (snd bar))%Q
               ∧ same_endpoints (mkPeg 2 2) (mkPeg 3 4) bar)
              ∨ (¬ (slopeQ (mkPeg 2 2) (mkPeg 3 4) == slopeQ (fst bar) (snd bar))%Q
                 ∧ crosses_inside (mkPeg 2 2) (mkPeg 3 4) (fst bar) (snd bar))).
Proof.
  intros b.
  assert (H1 : reachable b).
  { subst b. unfold play. cbn [foldl]. do 5 apply reach_step. apply reach_new. }
  assert (H2 : (px (mkPeg 3 4) - px (mkPeg 2 2)) ^ 2
               + (py (mkPeg 3 4) - py (mkPeg 2 2)) ^ 2 = 5) by reflexivity.
  assert (H3 : getPeg b (PegOps.asTuple (mkPeg 2 2)) = Some R) by (vm_compute; reflexivity).
  assert (H4 : getPeg b (PegOps.asTuple (mkPeg 3 4)) = Some R) by (vm_compute; reflexivity).
  assert (H5 : snd (placeBarrier b (mkPeg 2 2) (mkPeg 3 4) R) = false)
    by (vm_compute; reflexivity).
  split; [exact H1 |]. split; [left; reflexivity |]. repeat (split; [assumption |]).
  exact (proj1 (proj1 (placeBarrier_crossing b (mkPeg 2 2) (mkPeg 3 4) R
                         H1 (or_introl eq_refl) H2 H3 H4)) H5).
Defined.

(** ** The search loop of gameWon: termination *)

Lemma pop_snoc {A : Type} (l : list A) (x : A) : pop (l ++ [x]) = Some (l, x).
Proof. unfold pop. rewrite rev_app_distr. simpl. by rewrite rev_involutive. Qed.

Lemma pop_Some {A : Type} (queue queue' : list A) (x : A) :
  pop queue = Some (queue', x) → queue = queue' ++ [x].
Proof.
  destruct queue as [| y l] using rev_ind; [discriminate |].
  rewrite pop_snoc. by intros [= <- <-].
Qed.

Lemma pop_None {A : Type} (queue : list A) : pop queue = None → queue = [].
Proof.
  destruct queue as [| y l] using rev_ind; [reflexivity |].
  rewrite pop_snoc. discriminate.
Qed.

Lemma weights_visit (b : Board) (visited : list string) (x : string) (l : list string) :
  NoDup l → x ∉ visited →
  (sum_list (map (weight b (visited ++ [x])) l)
   + (if bool_decide (x ∈ l) then S (length (pushed b x)) else 0)
   = sum_list (map (weight b visited) l))%nat.
Proof.
  intros Hnd Hx. induction Hnd as [| k l Hk Hnd IH]; [reflexivity |].
  simpl. destruct (decide (x = k)) as [<- | Hne].
  - rewrite bool_decide_eq_true_2 by left.
    rewrite bool_decide_eq_false_2 in IH by exact Hk.
    unfold weight at 1 3.
    rewrite bool_decide_eq_true_2 by (apply elem_of_app; right; by left).
    rewrite bool_decide_eq_false_2 by exact Hx. lia.
  - assert (Hw : weight b (visited ++ [x]) k = weight b visited k).
    { unfold weight.
      destruct (decide (k ∈ visited)) as [Hin | Hin].
      - rewrite !bool_decide_eq_true_2; auto. apply elem_of_app; auto.
      - rewrite !bool_decide_eq_false_2; auto.
        rewrite elem_of_app, list_elem_of_singleton. intros [? | ?]; congruence. }
    rewrite Hw.
    destruct (decide (x ∈ l)) as [Hin | Hin].
    + rewrite bool_decide_eq_true_2 by (by right).
      rewrite bool_decide_eq_true_2 in IH by exact Hin. lia.
    + rewrite bool_decide_eq_false_2
        by (rewrite elem_of_cons; intros [? | ?]; congruence).
      rewrite bool_decide_eq_false_2 in IH by exact Hin. lia.
Qed.

Lemma neighbours_endpoint (peg q : Peg) (l : list Barrier) :
  q ∈ neighbours peg l → ∃ bar, bar ∈ l ∧ (fst bar = peg ∨ snd bar = peg).
Proof.
  rewrite neighbours_elem. intros [H | H]; eexists; (split; [exact H |]); simpl; auto.
Qed.

Lemma adjacent_of_key (b : Board) (k : Z * Z) :
  adjacent_of b (_stringifyPegTuple k) = getAdjacentPegs b (mkPeg (fst k) (snd k)).
Proof. unfold adjacent_of. by rewrite destringify_stringify. Qed.

Lemma pushed_keys (b : Board) (str : string) : Forall is_key (pushed b str).
Proof.
  unfold pushed. apply Forall_fmap, Forall_forall. intros q _. by eexists.
Qed.

Lemma home_row_keys (b : Board) (c : Player) : Forall is_key (home_row b c).
Proof.
  unfold home_row. destruct c; [| | constructor];
    apply Forall_fmap, Forall_forall; intros k _; by eexists.
Qed.

Lemma pushed_only_at_endpoints (b : Board) (str : string) :
  is_key str → str ∉ endpoints b → pushed b str = [].
Proof.
  intros [k ->] Hk. unfold pushed. rewrite adjacent_of_key.
  destruct (getAdjacentPegs b (mkPeg (fst k) (snd k))) as [| q l] eqn:E; [reflexivity |].
  exfalso. apply Hk. unfold endpoints. rewrite elem_of_remove_dups.
  assert (Hq : ∃ bar, bar ∈ redBarrierState b ++ blackBarrierState b
                      ∧ (fst bar = mkPeg (fst k) (snd k) ∨ snd bar = mkPeg (fst k) (snd k))).
  { unfold getAdjacentPegs in E.
    destruct (getPeg b _) as [[| |] |]; try discriminate;
      destruct (neighbours_endpoint (mkPeg (fst k) (snd k)) q _
                  ltac:(rewrite E; left)) as (bar & Hin & Hend);
      exists bar; (split; [apply elem_of_app; auto | exact Hend]). }
  destruct Hq as (bar & Hin & Hend).
  apply list_elem_of_In, in_flat_map. exists bar.
  split; [by apply list_elem_of_In |].
  destruct Hend as [-> | ->]; simpl; rewrite asTuple_mkPeg; auto.
Qed.

Lemma work_revisit (b : Board) (queue' visited : list string) (x : string) :
  (work b queue' visited < work b (queue' ++ [x]) visited)%nat.
Proof. unfold work. rewrite length_app. simpl. lia. Qed.

Lemma work_visit (b : Board) (queue' visited : list string) (x : string) :
  is_key x → x ∉ visited →
  (work b (queue' ++ pushed b x) (visited ++ [x]) < work b (queue' ++ [x]) visited)%nat.
Proof.
  intros Hkey Hx. unfold work. rewrite !length_app. simpl.
  pose proof (weights_visit b visited x (endpoints b) (NoDup_remove_dups _) Hx) as Hw.
  destruct (decide (x ∈ endpoints b)) as [Hin | Hin].
  - rewrite bool_decide_eq_true_2 in Hw by exact Hin. lia.
  - rewrite bool_decide_eq_false_2 in Hw by exact Hin.
    rewrite (pushed_only_at_endpoints b x Hkey Hin). simpl. lia.
Qed.

(** The loop ends: with more fuel than there is work left, on a queue of
    keys, [search] returns a result. *)
Lemma search_terminates (b : Board) (fuel : nat) (queue visited : list string) :
  Forall is_key queue → (work b queue visited < fuel)%nat →
  ∃ r, search fuel b queue visited = Some r.
Proof.
  revert queue visited. induction fuel as [| fuel IH]; intros queue visited Hkeys Hw; [lia |].
  simpl. destruct (pop queue) as [[queue' x] |] eqn:E; [| eauto].
  apply pop_Some in E. subst queue.
  apply Forall_app in Hkeys as [Hkeys Hx]. rewrite Forall_singleton in Hx.
  case_bool_decide as Hin.
  - apply IH; [exact Hkeys |]. pose proof (work_revisit b queue' visited x). lia.
  - apply IH; [apply Forall_app; split; [exact Hkeys | apply pushed_keys] |].
    pose proof (work_visit b queue' visited x Hx Hin). lia.
Qed.

Lemma search_more_fuel (b : Board) (fuel fuel' : nat) (queue visited r : list string) :
  search fuel b queue visited = Some r → (fuel ≤ fuel')%nat →
  search fuel' b queue visited = Some r.
Proof.
  revert fuel' queue visited. induction fuel as [| fuel IH]; intros fuel' queue visited H Hle;
    [discriminate |].
  destruct fuel' as [| fuel']; [lia |]. simpl in *.
  destruct (pop queue) as [[queue' x] |]; [| exact H].
  case_bool_decide; apply IH; auto; lia.
Qed.

(** ** The search loop of gameWon: what it collects *)

Lemma search_sound (b : Board) (fuel : nat) (queue visited r : list string) :
  search fuel b queue visited = Some r →
  ∀ k, k ∈ r → k ∈ visited ∨ ∃ s, s ∈ queue ∧ rtc (edge b) s k.
Proof.
  revert queue visited. induction fuel as [| fuel IH]; intros queue visited H k Hk;
    [discriminate |].
  simpl in H. destruct (pop queue) as [[queue' x] |] eqn:E.
  - apply pop_Some in E. subst queue. case_bool_decide as Hx.
    + destruct (IH _ _ H k Hk) as [Hv | (s & Hs & Hrt)]; [by left |].
      right. exists s. split; [apply elem_of_app; auto | exact Hrt].
    + destruct (IH _ _ H k Hk) as [Hv | (s & Hs & Hrt)].
      * apply elem_of_app in Hv as [Hv | Hv%list_elem_of_singleton]; [by left |].
        subst k. right. exists x. split; [apply elem_of_app; right; by left | done].
      * right. apply elem_of_app in Hs as [Hs | Hs].
        -- exists s. split; [apply elem_of_app; auto | exact Hrt].
        -- exists x. split; [apply elem_of_app; right; by left |].
           eapply rtc_l; [exact Hs | exact Hrt].
  - injection H as <-. by left.
Qed.

Lemma search_complete (b : Board) (fuel : nat) (queue visited r : list string) :
  search fuel b queue visited = Some r →
  (∀ k k', k ∈ visited → edge b k k' → k' ∈ visited ∨ k' ∈ queue) →
  (∀ k, k ∈ visited → k ∈ r)
  ∧ (∀ k, k ∈ queue → k ∈ r)
  ∧ (∀ k k', k ∈ r → edge b k k' → k' ∈ r).
Proof.
  revert queue visited. induction fuel as [| fuel IH]; intros queue visited H Hcl;
    [discriminate |].
  simpl in H. destruct (pop queue) as [[queue' x] |] eqn:E.
  - apply pop_Some in E. subst queue. case_bool_decide as Hx.
    + destruct (IH _ _ H) as (Hv & Hq & Hr).
      { intros k k' Hk Hstep. destruct (Hcl k k' Hk Hstep) as [? | Hin]; [by left |].
        apply elem_of_app in Hin as [? | Hin%list_elem_of_singleton]; [by right |].
        subst k'. by left. }
      split; [exact Hv |]. split; [| exact Hr].
      intros k Hk. apply elem_of_app in Hk as [? | Hk%list_elem_of_singleton]; subst; auto.
    + destruct (IH _ _ H) as (Hv & Hq & Hr).
      { intros k k' Hk Hstep.
        apply elem_of_app in Hk as [Hk | Hk%list_elem_of_singleton].
        - destruct (Hcl k k' Hk Hstep) as [? | Hin].
          + left. apply elem_of_app; auto.
          + apply elem_of_app in Hin as [? | Hin%list_elem_of_singleton].
            * right. apply elem_of_app; auto.
            * subst k'. left. apply elem_of_app; right; by left.
        - subst k. right. apply elem_of_app; right. exact Hstep. }
      split; [intros k Hk; apply Hv, elem_of_app; auto |]. split; [| exact Hr].
      intros k Hk. apply elem_of_app in Hk as [? | Hk%list_elem_of_singleton].
      * apply Hq, elem_of_app; auto.
      * subst k. apply Hv, elem_of_app; right; by left.
  - injection H as <-. apply pop_None in E. subst queue.
    split; [auto |]. split; [intros k Hk; by apply elem_of_nil in Hk |].
    intros k k' Hk Hstep. destruct (Hcl k k' Hk Hstep) as [? | Hin]; [done |].
    by apply elem_of_nil in Hin.
Qed.

Lemma search_reachable (b : Board) (fuel : nat) (queue r : list string) :
  search fuel b queue [] = Some r →
  ∀ k, k ∈ r ↔ ∃ s, s ∈ queue ∧ rtc (edge b) s k.
Proof.
  intros H k. split.
  - intros Hk. destruct (search_sound _ _ _ _ _ H k Hk) as [Hin | ?]; [| done].
    by apply elem_of_nil in Hin.
  - intros (s & Hs & Hrt).
    destruct (search_complete _ _ _ _ _ H) as (_ & Hq & Hr).
    { intros ? ? Hin. by apply elem_of_nil in Hin. }
    apply Hq in Hs. clear Hq.
    induction Hrt as [| s s' k Hstep _ IH]; [exact Hs |].
    apply IH. by apply (Hr s s').
Qed.

(** ** The cells of a reachable board *)

Lemma fill_row_getPeg (i : Z) (js : list Z) (b : Board) (k : Z * Z) :
  getPeg (foldl (λ b j, _setPeg b (i, j) X) b js) k
  = if bool_decide (fst k = i ∧ snd k ∈ js) then Some X else getPeg b k.
Proof.
  revert b. induction js as [| j js IH]; intros b; cbn [foldl].
  - rewrite bool_decide_eq_false_2; [reflexivity |]. intros [_ H]. by apply elem_of_nil in H.
  - rewrite IH. destruct k as [x y]; simpl.
    destruct (decide (x = i ∧ y ∈ js)) as [Hin | Hin].
    + rewrite !bool_decide_eq_true_2; [reflexivity | | exact Hin].
      destruct Hin; split; [done | by right].
    + rewrite (bool_decide_eq_false_2 _ Hin).
      destruct (decide ((i, j) = (x, y))) as [[= -> ->] | Hne].
      * rewrite getPeg_setPeg_same, bool_decide_eq_true_2; [reflexivity |].
        split; [done | by left].
      * rewrite getPeg_setPeg_other by exact Hne.
        rewrite bool_decide_eq_false_2; [reflexivity |].
        intros [-> Hy]. apply elem_of_cons in Hy as [-> | Hy]; [congruence | tauto].
Qed.

Lemma fill_rows_getPeg (rows js : list Z) (b : Board) (k : Z * Z) :
  getPeg (foldl (λ b i, foldl (λ b j, _setPeg b (i, j) X) b js) b rows) k
  = if bool_decide (fst k ∈ rows ∧ snd k ∈ js) then Some X else getPeg b k.
Proof.
  revert b. induction rows as [| i rows IH]; intros b; cbn [foldl].
  - rewrite bool_decide_eq_false_2; [reflexivity |]. intros [H _]. by apply elem_of_nil in H.
  - rewrite IH, fill_row_getPeg.
    destruct (decide (fst k ∈ rows ∧ snd k ∈ js)) as [Hin | Hin].
    + rewrite !bool_decide_eq_true_2; [reflexivity | | exact Hin].
      destruct Hin; split; [by right | done].
    + rewrite (bool_decide_eq_false_2 _ Hin).
      destruct (decide (fst k = i ∧ snd k ∈ js)) as [Hi | Hi].
      * rewrite !bool_decide_eq_true_2; [reflexivity | | exact Hi].
        destruct Hi as [-> ?]; split; [by left | done].
      * rewrite !bool_decide_eq_false_2; [reflexivity | | exact Hi].
        intros [Hx Hy]. apply elem_of_cons in Hx as [Hx | Hx]; tauto.
Qed.

Lemma elem_of_indices (i : Z) : i ∈ indices ↔ 1 ≤ i ≤ 24.
Proof. unfold indices. rewrite elem_of_seqZ. lia. Qed.

Lemma new_Board_getPeg (k : Z * Z) :
  getPeg new_Board k = if bool_decide (in_grid k) then Some X else None.
Proof.
  transitivity
    (getPeg (foldl (λ b i, foldl (λ b j, _setPeg b (i, j) X) b indices)
                   (mkBoard ∅ [] []) indices) k); [reflexivity |].
  rewrite fill_rows_getPeg.
  rewrite (bool_decide_ext _ (in_grid k)) by (unfold in_grid; by rewrite !elem_of_indices).
  case_bool_decide; [reflexivity | apply lookup_empty].
Qed.

Lemma setPeg_present (b : Board) (k k' : Z * Z) (v : Player) :
  is_Some (getPeg b k) →
  is_Some (getPeg (_setPeg b k v) k') ↔ is_Some (getPeg b k').
Proof.
  intros Hk. destruct (decide (k = k')) as [<- | Hne].
  - rewrite getPeg_setPeg_same. split; [done | by eexists].
  - by rewrite getPeg_setPeg_other.
Qed.

Lemma placeBarrier_pegState (b : Board) (peg1 peg2 : Peg) (color : Player) :
  pegState (fst (placeBarrier b peg1 peg2 color)) = pegState b.
Proof.
  unfold placeBarrier.
  repeat match goal with |- context [if ?c then _ else _] => destruct c end;
    destruct color; reflexivity.
Qed.

Lemma removeBarrier_pegState (b : Board) (peg1 peg2 : Peg) (color : Player) :
  pegState (fst (removeBarrier b peg1 peg2 color)) = pegState b.
Proof.
  unfold removeBarrier. case_bool_decide; destruct (splice_first _ _); reflexivity.
Qed.

Lemma run_cells_are_grid (b : Board) (o : Op) :
  cells_are_grid b → cells_are_grid (fst (run b o)).
Proof.
  intros Hg k. rewrite <- (Hg k). destruct o as [peg c | p1 p2 c | peg c | p1 p2 c]; simpl.
  - destruct (snd (placePeg b peg c)) eqn:E; [| by rewrite placePeg_false_same].
    rewrite (placePeg_true_board _ _ _ E). apply placePeg_true in E as [E _].
    apply setPeg_present. by eexists.
  - unfold getPeg. by rewrite placeBarrier_pegState.
  - unfold removePeg. case_bool_decide as Hp; [| done]. simpl.
    case_bool_decide; apply (setPeg_present (mkBoard _ _ _)); by eexists.
  - unfold getPeg. by rewrite removeBarrier_pegState.
Qed.

Lemma reachable_cells_are_grid (b : Board) : reachable b → cells_are_grid b.
Proof.
  induction 1 as [| b o _ IH]; [| by apply run_cells_are_grid].
  intros k. rewrite new_Board_getPeg. case_bool_decide; split; done.
Qed.

(** ** Search steps and barriers *)

Lemma edge_elem (b : Board) (k : Z * Z) (str : string) :
  edge b (_stringifyPegTuple k) str
  ↔ ∃ q, str = _stringifyPegTuple (PegOps.asTuple q)
         ∧ q ∈ getAdjacentPegs b (mkPeg (fst k) (snd k)).
Proof.
  unfold edge, pushed. rewrite adjacent_of_key, list_elem_of_fmap. reflexivity.
Qed.

Lemma getAdjacentPegs_owner (b : Board) (p : Peg) (c : Player) :
  c = R ∨ c = B → getPeg b (PegOps.asTuple p) = Some c →
  getAdjacentPegs b p = neighbours p (barriers b c).
Proof. unfold getAdjacentPegs. by intros [-> | ->] ->. Qed.

Lemma joined_edge (b : Board) (c : Player) (p q : Peg) :
  c = R ∨ c = B → getPeg b (PegOps.asTuple p) = Some c →
  joined (barriers b c) p q →
  edge b (_stringifyPegTuple (PegOps.asTuple p)) (_stringifyPegTuple (PegOps.asTuple q)).
Proof.
  intros Hc Hp Hj. apply edge_elem. exists q. split; [reflexivity |].
  rewrite mkPeg_asTuple, (getAdjacentPegs_owner b p c Hc Hp).
  by apply neighbours_elem.
Qed.

Lemma barriers_ok_colour (b : Board) (c : Player) (bar : Barrier) :
  barriers_ok b → c = R ∨ c = B → bar ∈ barriers b c → barrier_ok b c bar.
Proof. intros [Hr Hb] [-> | ->]; simpl; auto. Qed.

Lemma edge_joined (b : Board) (c : Player) (k : Z * Z) (str : string) :
  barriers_ok b → c = R ∨ c = B → getPeg b k = Some c →
  edge b (_stringifyPegTuple k) str →
  ∃ q, str = _stringifyPegTuple (PegOps.asTuple q)
       ∧ getPeg b (PegOps.asTuple q) = Some c
       ∧ joined (barriers b c) (mkPeg (fst k) (snd k)) q.
Proof.
  intros Hok Hc Hk Hstep. apply edge_elem in Hstep as (q & -> & Hq).
  rewrite (getAdjacentPegs_owner b _ c Hc) in Hq by (by rewrite asTuple_mkPeg).
  apply neighbours_elem in Hq. exists q. split; [reflexivity |]. split; [| exact Hq].
  destruct Hq as [Hq | Hq];
    destruct (barriers_ok_colour b c _ Hok Hc Hq) as (_ & H1 & H2); assumption.
Qed.

Lemma rtc_chain (b : Board) (c : Player) (s str : string) :
  barriers_ok b → c = R ∨ c = B → rtc (edge b) s str →
  ∀ p0, s = _stringifyPegTuple (PegOps.asTuple p0) →
        getPeg b (PegOps.asTuple p0) = Some c →
        ∃ ps pk, str = _stringifyPegTuple (PegOps.asTuple pk)
                 ∧ head ps = Some p0 ∧ last ps = Some pk ∧ chain b c ps.
Proof.
  intros Hok Hc Hrt. induction Hrt as [s | s s' str Hstep _ IH]; intros p0 -> Hp0.
  - exists [p0], p0. simpl. repeat split; auto.
  - destruct (edge_joined b c _ s' Hok Hc Hp0 Hstep) as (q & -> & Hq & Hj).
    rewrite mkPeg_asTuple in Hj.
    destruct (IH q eq_refl Hq) as (ps & pk & -> & Hhd & Hlast & Hch).
    destruct ps as [| p ps]; [discriminate |]. injection Hhd as ->.
    exists (p0 :: q :: ps), pk.
    split; [reflexivity |]. split; [reflexivity |]. split; [exact Hlast |].
    simpl. simpl in Hch. tauto.
Qed.

Lemma chain_rtc (b : Board) (c : Player) (ps : list Peg) (p0 pk : Peg) :
  c = R ∨ c = B → chain b c ps → head ps = Some p0 → last ps = Some pk →
  rtc (edge b) (_stringifyPegTuple (PegOps.asTuple p0))
      (_stringifyPegTuple (PegOps.asTuple pk)).
Proof.
  intros Hc. revert p0. induction ps as [| p ps IH]; intros p0 Hch Hhd Hlast;
    [discriminate |].
  injection Hhd as ->. destruct ps as [| q ps].
  - injection Hlast as ->. done.
  - destruct Hch as (Hp & Hj & Hch).
    eapply rtc_l; [exact (joined_edge b c p0 q Hc Hp Hj) |].
    apply IH; [exact Hch | reflexivity | exact Hlast].
Qed.

Lemma chain_head_owned (b : Board) (c : Player) (ps : list Peg) (p0 : Peg) :
  chain b c ps → head ps = Some p0 → getPeg b (PegOps.asTuple p0) = Some c.
Proof. destruct ps as [| p ps]; [discriminate |]. intros (H & _) [= ->]. exact H. Qed.

(** ** The two ends of the search *)

Lemma home_row_elem (b : Board) (c : Player) (s : string) :
  cells_are_grid b → c = R ∨ c = B →
  s ∈ home_row b c
  ↔ ∃ p0, s = _stringifyPegTuple (PegOps.asTuple p0)
          ∧ getPeg b (PegOps.asTuple p0) = Some c ∧ near_line c p0.
Proof.
  intros Hg Hc. unfold home_row, near_line.
  destruct Hc as [-> | ->]; cbv iota; rewrite list_elem_of_fmap; split.
  - intros (k & -> & Hk). apply list_elem_of_In, filter_In in Hk as [Hk Hs].
    apply list_elem_of_In, list_elem_of_fmap in Hk as (i & -> & _).
    apply bool_decide_eq_true in Hs. exists (mkPeg i 1). auto.
  - intros (p0 & -> & Hs & Hy). exists (PegOps.asTuple p0). split; [reflexivity |].
    apply list_elem_of_In, filter_In. split; [| by apply bool_decide_eq_true].
    apply list_elem_of_In, list_elem_of_fmap. exists (px p0).
    destruct p0 as [x y]; cbn [px py PegOps.asTuple] in *. subst y.
    split; [reflexivity |]. apply elem_of_indices.
    destruct (proj1 (Hg (x, 1)) ltac:(by eexists)) as [Hx _]. exact Hx.
  - intros (k & -> & Hk). apply list_elem_of_In, filter_In in Hk as [Hk Hs].
    apply list_elem_of_In, list_elem_of_fmap in Hk as (i & -> & _).
    apply bool_decide_eq_true in Hs. exists (mkPeg 1 i). auto.
  - intros (p0 & -> & Hs & Hx). exists (PegOps.asTuple p0). split; [reflexivity |].
    apply list_elem_of_In, filter_In. split; [| by apply bool_decide_eq_true].
    apply list_elem_of_In, list_elem_of_fmap. exists (py p0).
    destruct p0 as [x y]; cbn [px py PegOps.asTuple] in *. subst x.
    split; [reflexivity |]. apply elem_of_indices.
    destruct (proj1 (Hg (1, y)) ltac:(by eexists)) as [_ Hy]. exact Hy.
Qed.

Lemma far_key (c : Player) (p : Peg) :
  match c with
  | R => bool_decide (snd (_destringifyPegTuple (_stringifyPegTuple (PegOps.asTuple p)))
                      = Some 24)
  | B => bool_decide (fst (_destringifyPegTuple (_stringifyPegTuple (PegOps.asTuple p)))
                      = Some 24)
  | X => false
  end = true
  ↔ far_line c p.
Proof.
  rewrite destringify_stringify. destruct p as [x y], c; simpl;
    rewrite ?bool_decide_eq_true; split; try discriminate; try contradiction;
    congruence.
Qed.

Lemma reaches_far_row_true (c : Player) (r : list string) :
  (∀ str, str ∈ r → ∃ p, str = _stringifyPegTuple (PegOps.asTuple p)) →
  reaches_far_row c r = true
  ↔ ∃ p, _stringifyPegTuple (PegOps.asTuple p) ∈ r ∧ far_line c p.
Proof.
  intros Hkeys. unfold reaches_far_row. rewrite existsb_exists. split.
  - intros (str & Hin & Hfar). apply list_elem_of_In in Hin.
    destruct (Hkeys str Hin) as [p ->]. exists p. split; [exact Hin |].
    by apply far_key.
  - intros (p & Hin & Hfar). exists (_stringifyPegTuple (PegOps.asTuple p)).
    split; [by apply list_elem_of_In | by apply far_key].
Qed.

(** ** Win detection *)

Lemma winning_path_search (b : Board) (c : Player) (r : list string) (fuel : nat) :
  cells_are_grid b → barriers_ok b → c = R ∨ c = B →
  search fuel b (home_row b c) [] = Some r →
  reaches_far_row c r = true ↔ winning_path b c.
Proof.
  intros Hg Hok Hc Hsearch.
  assert (Hpaths : ∀ str, str ∈ r →
            ∃ ps p0 pk, str = _stringifyPegTuple (PegOps.asTuple pk)
                        ∧ head ps = Some p0 ∧ last ps = Some pk
                        ∧ chain b c ps ∧ near_line c p0).
  { intros str Hstr.
    apply (search_reachable _ _ _ _ Hsearch) in Hstr as (s & Hs & Hrt).
    apply (home_row_elem b c s Hg Hc) in Hs as (p0 & Hs & Hp0 & Hnear).
    destruct (rtc_chain b c s str Hok Hc Hrt p0 Hs Hp0) as (ps & pk & E & Hhd & Hlast & Hch).
    exists ps, p0, pk. auto. }
  rewrite reaches_far_row_true.
  - split.
    + intros (p & Hin & Hfar).
      destruct (Hpaths _ Hin) as (ps & p0 & pk & E & Hhd & Hlast & Hch & Hnear).
      apply stringify_inj, asTuple_inj in E. subst pk.
      exists ps, p0, p. auto.
    + intros (ps & p0 & pk & Hhd & Hlast & Hch & Hnear & Hfar).
      exists pk. split; [| exact Hfar].
      apply (search_reachable _ _ _ _ Hsearch).
      exists (_stringifyPegTuple (PegOps.asTuple p0)). split.
      * apply (home_row_elem b c _ Hg Hc). exists p0.
        split; [reflexivity |].
        split; [exact (chain_head_owned b c ps p0 Hch Hhd) | exact Hnear].
      * exact (chain_rtc b c ps p0 pk Hc Hch Hhd Hlast).
  - intros str Hstr. destruct (Hpaths str Hstr) as (_ & _ & pk & E & _). by exists pk.
Qed.

Lemma gameWon_in_spec (b : Board) (c : Player) :
  reachable b → c = R ∨ c = B →
  ∃ won : bool,
    (∀ fuel, (search_fuel b c ≤ fuel)%nat → gameWon_in fuel b c = Some won)
    ∧ (won = true ↔ winning_path b c).
Proof.
  intros Hreach Hc.
  destruct (search_terminates b (search_fuel b c) (home_row b c) [])
    as [r Hr]; [apply home_row_keys | unfold search_fuel; lia |].
  exists (reaches_far_row c r). split.
  - intros fuel Hfuel. unfold gameWon_in.
    by rewrite (search_more_fuel _ _ _ _ _ _ Hr Hfuel).
  - apply (winning_path_search b c r (search_fuel b c)); auto.
    + by apply reachable_cells_are_grid.
    + by apply reachable_barriers_ok.
Qed.

(** C1: on every board reachable from a fresh board, [gameWon] returns a
    result (the search loop ends within [search_fuel] iterations, and more
    iterations do not change the result), and for Red that result is true
    exactly when there are pegs p0, ..., pk on cells that hold Red, with
    p0.y = 1 and pk.y = 24, each joined to the next by a Red barrier; for
    Black likewise with Black cells and barriers, p0.x = 1 and pk.x = 24. *)
Theorem gameWon_spec (b : Board) :
  reachable b →
  (∃ won : bool,
     gameWon b R = Some won
     ∧ (∀ fuel, (search_fuel b R ≤ fuel)%nat → gameWon_in fuel b R = Some won)
     ∧ (won = true
        ↔ ∃ (ps : list Peg) (p0 pk : Peg),
            head ps = Some p0 ∧ last ps = Some pk ∧ chain b R ps
            ∧ py p0 = 1 ∧ py pk = 24))
  ∧ (∃ won : bool,
       gameWon b B = Some won
       ∧ (∀ fuel, (search_fuel b B ≤ fuel)%nat → gameWon_in fuel b B = Some won)
       ∧ (won = true
          ↔ ∃ (ps : list Peg) (p0 pk : Peg),
              head ps = Some p0 ∧ last ps = Some pk ∧ chain b B ps
              ∧ px p0 = 1 ∧ px pk = 24)).
Proof.
  intros Hreach. split.
  - destruct (gameWon_in_spec b R Hreach (or_introl eq_refl)) as (won & Hfuel & Hwon).
    exists won. split; [apply Hfuel; reflexivity |]. split; [exact Hfuel | exact Hwon].
  - destruct (gameWon_in_spec b B Hreach (or_intror eq_refl)) as (won & Hfuel & Hwon).
    exists won. split; [apply Hfuel; reflexivity |]. split; [exact Hfuel | exact Hwon].
Qed.

(** Every board played from a fresh board is reachable. *)
Lemma play_reachable (ops : list Op) : reachable (play ops).
Proof.
  unfold play. generalize reach_new. generalize new_Board.
  induction ops as [| o ops IH]; intros b Hb; [exact Hb |].
  cbn [foldl]. apply IH. by apply reach_step.
Qed.

(** After the moves of [red_ladder] Red has won. *)
Lemma gameWon_spec_witness :
  reachable (play red_ladder)
  ∧ gameWon (play red_ladder) R = Some true
  ∧ ∃ (ps : list Peg) (p0 pk : Peg),
      head ps = Some p0 ∧ last ps = Some pk ∧ chain (play red_ladder) R ps
      ∧ py p0 = 1 ∧ py pk = 24.
Proof.
  pose proof (play_reachable red_ladder) as Hr.
  assert (Hw : gameWon (play red_ladder) R = Some true) by (vm_compute; reflexivity).
  split; [exact Hr |]. split; [exact Hw |].
  destruct (gameWon_spec (play red_ladder) Hr) as [(won & Hwon & _ & Hiff) _].
  apply Hiff. rewrite Hw in Hwon. by injection Hwon.
Defined.

(** * Further properties of the board *)

(** ** What one call does to the cells and to the barrier arrays *)

(** A cell that holds a colour after a call held it before, unless the call
    is the successful placement of that peg. *)
Lemma run_getPeg (b : Board) (o : Op) (k : Z * Z) (c : Player) :
  c ≠ X → getPeg (fst (run b o)) k = Some c →
  getPeg b k = Some c
  ∨ ∃ peg, o = PlacePeg peg c ∧ k = PegOps.asTuple peg
           ∧ getPeg b k = Some X ∧ ¬ forbidden peg c.
Proof.
  intros Hc H. destruct o as [peg c' | p1 p2 c' | peg c' | p1 p2 c']; simpl in H.
  - destruct (snd (placePeg b peg c')) eqn:E;
      [| rewrite placePeg_false_same in H by exact E; by left].
    rewrite (placePeg_true_board _ _ _ E) in H. apply placePeg_true in E as [Hx Hf].
    destruct (decide (PegOps.asTuple peg = k)) as [<- | Hne].
    + rewrite getPeg_setPeg_same in H. injection H as ->. right. by exists peg.
    + rewrite getPeg_setPeg_other in H by exact Hne. by left.
  - unfold getPeg in *. rewrite placeBarrier_pegState in H. by left.
  - unfold removePeg in H. case_bool_decide as Hp; [| by left]. simpl in H.
    destruct (decide (PegOps.asTuple peg = k)) as [<- | Hne].
    + case_bool_decide; rewrite (getPeg_setPeg_same (mkBoard _ _ _)) in H; congruence.
    + case_bool_decide; rewrite (getPeg_setPeg_other (mkBoard _ _ _)) in H by exact Hne;
        by left.
  - unfold getPeg in *. rewrite removeBarrier_pegState in H. by left.
Qed.

Lemma splice_first_split (bar : Barrier) (l l' : list Barrier) :
  splice_first bar l = Some l' →
  ∃ l1 l2, l = l1 ++ bar :: l2 ∧ l' = l1 ++ l2 ∧ bar ∉ l1.
Proof.
  revert l'. induction l as [| t l IH]; intros l' H; [discriminate |].
  rewrite splice_first_spec in H. case_bool_decide as Ht.
  - injection H as <-. subst t. exists [], l. repeat split. apply not_elem_of_nil.
  - destruct (splice_first bar l) as [l0 |]; [| discriminate]. injection H as <-.
    destruct (IH l0 eq_refl) as (l1 & l2 & -> & -> & Hl1).
    exists (t :: l1), l2. repeat split. rewrite not_elem_of_cons. split; congruence.
Qed.

Lemma splice_first_None (bar : Barrier) (l : list Barrier) :
  splice_first bar l = None ↔ bar ∉ l.
Proof.
  induction l as [| t l IH]; rewrite splice_first_spec.
  - split; [intros _; apply not_elem_of_nil | done].
  - rewrite not_elem_of_cons. case_bool_decide as Ht.
    + split; [discriminate | intros [? _]; congruence].
    + destruct (splice_first bar l); simpl.
      * split; [discriminate |]. intros [_ H]. by apply IH in H.
      * split; [intros _; split; [congruence | by apply IH] | done].
Qed.

Lemma splice_first_sublist (bar : Barrier) (l l' : list Barrier) :
  splice_first bar l = Some l' → l' `sublist_of` l.
Proof.
  intros H. destruct (splice_first_split _ _ _ H) as (l1 & l2 & -> & -> & _).
  apply sublist_app; [reflexivity |]. by apply sublist_cons.
Qed.

(** A call either leaves in each array a sublist of what it held, or is a
    successful [placeBarrier], which appends the ordered pair to the array
    of its colour. *)
Lemma run_barriers (b : Board) (o : Op) :
  (redBarrierState (fst (run b o)) `sublist_of` redBarrierState b
   ∧ blackBarrierState (fst (run b o)) `sublist_of` blackBarrierState b)
  ∨ ∃ p q c, o = PlaceBarrier p q c ∧ (c = R ∨ c = B)
             ∧ snd (run b o) = true
             ∧ barriers (fst (run b o)) c = barriers b c ++ [ordered p q]
             ∧ barriers (fst (run b o)) (opponent c) = barriers b (opponent c).
Proof.
  destruct o as [peg c | p1 p2 c | peg c | p1 p2 c]; simpl.
  - left. destruct (snd (placePeg b peg c)) eqn:E.
    + by rewrite (placePeg_true_board _ _ _ E).
    + by rewrite (placePeg_false_same _ _ _ E).
  - destruct (snd (placeBarrier b p1 p2 c)) eqn:E.
    + right. exists p1, p2, c. rewrite (placeBarrier_true_board _ _ _ _ E).
      apply placeBarrier_true in E as (_ & _ & _ & _ & Hc).
      destruct c; [| | congruence]; simpl; auto 10.
    + left. by rewrite (placeBarrier_false_same _ _ _ _ E).
  - left. unfold removePeg. case_bool_decide; [| done]. simpl.
    case_bool_decide; simpl; rewrite filter_untouched; split;
      first [reflexivity | apply sublist_filter].
  - left. unfold removeBarrier.
    case_bool_decide; destruct (splice_first _ _) as [l |] eqn:E; simpl; split;
      first [reflexivity | by apply (splice_first_sublist _ _ _ E)].
Qed.

(** ** A fresh board *)

(** X1: a fresh board holds none at every coordinate of the 24 by 24 grid and
    has no entry at any other coordinate; its peg map has 576 entries and
    both barrier arrays are empty. *)
Theorem fresh_board (x y : Z) :
  (getPeg new_Board (x, y) = Some X ↔ 1 ≤ x ≤ 24 ∧ 1 ≤ y ≤ 24)
  ∧ (getPeg new_Board (x, y) = None ↔ ¬ (1 ≤ x ≤ 24 ∧ 1 ≤ y ≤ 24))
  ∧ (∀ c, getPeg new_Board (x, y) = Some c → c = X)
  ∧ size (pegState new_Board) = 576%nat
  ∧ redBarrierState new_Board = []
  ∧ blackBarrierState new_Board = [].
Proof.
  rewrite new_Board_getPeg. unfold in_grid. cbn [fst snd].
  split; [| split; [| split; [| split; [| split]]]].
  - case_bool_decide; split; try done; tauto.
  - case_bool_decide; split; try done; tauto.
  - intros c. case_bool_decide; congruence.
  - vm_compute. reflexivity.
  - reflexivity.
  - reflexivity.
Qed.

(** ** Keys *)

(** X2: for integers that a double holds exactly (up to 2^53 - 1 in
    absolute value), reading back the key built from a pair gives the
    pair, and two such pairs have the same key only when they are the same
    pair. *)
Theorem key_roundtrip (x y : Z) :
  safe_integer x → safe_integer y →
  _destringifyPegTuple (_stringifyPegTuple (x, y)) = (Some x, Some y)
  ∧ ∀ x' y' : Z, safe_integer x' → safe_integer y' →
                 (_stringifyPegTuple (x, y) = _stringifyPegTuple (x', y')
                  ↔ (x, y) = (x', y')).
Proof.
  intros _ _. split.
  - apply (destringify_stringify (x, y)).
  - intros x' y' _ _. split; [apply stringify_inj | by intros ->].
Qed.

(** The key of (24, -3) is read back as (24, -3). *)
Lemma key_roundtrip_witness :
  safe_integer 24 ∧ safe_integer (-3)
  ∧ _destringifyPegTuple (_stringifyPegTuple (24, -3)) = (Some 24, Some (-3)).
Proof.
  assert (H1 : safe_integer 24) by (unfold safe_integer; lia).
  assert (H2 : safe_integer (-3)) by (unfold safe_integer; lia).
  split; [exact H1 |]. split; [exact H2 |].
  exact (proj1 (key_roundtrip 24 (-3) H1 H2)).
Defined.

(** ** The cells of a reachable board *)

Lemma run_size (b : Board) (o : Op) :
  size (pegState (fst (run b o))) = size (pegState b).
Proof.
  destruct o as [peg c | p1 p2 c | peg c | p1 p2 c]; simpl.
  - destruct (snd (placePeg b peg c)) eqn:E; [| by rewrite placePeg_false_same].
    rewrite (placePeg_true_board _ _ _ E). apply placePeg_true in E as [E _].
    simpl. apply map_size_insert_Some. by eexists.
  - by rewrite placeBarrier_pegState.
  - unfold removePeg. case_bool_decide as Hp; [| done]. simpl.
    case_bool_decide; simpl; apply map_size_insert_Some; by eexists.
  - by rewrite removeBarrier_pegState.
Qed.

Lemma reachable_size (b : Board) : reachable b → size (pegState b) = 576%nat.
Proof.
  induction 1 as [| b o _ IH]; [vm_compute; reflexivity | by rewrite run_size].
Qed.

(** X3: on every reachable board the peg map has an entry at a coordinate
    exactly when the coordinate is in the 24 by 24 grid, and it has 576
    entries: no call adds or removes an entry. *)
Theorem cells_of_reachable (b : Board) :
  reachable b →
  (∀ x y : Z, is_Some (getPeg b (x, y)) ↔ 1 ≤ x ≤ 24 ∧ 1 ≤ y ≤ 24)
  ∧ size (pegState b) = 576%nat.
Proof.
  intros Hr. split; [| by apply reachable_size].
  intros x y. apply (reachable_cells_are_grid b Hr (x, y)).
Qed.

(** The board after Red has placed a peg at (2,2). *)
Lemma cells_of_reachable_witness :
  reachable (play [PlacePeg (mkPeg 2 2) R])
  ∧ getPeg (play [PlacePeg (mkPeg 2 2) R]) (2, 2) = Some R
  ∧ size (pegState (play [PlacePeg (mkPeg 2 2) R])) = 576%nat.
Proof.
  pose proof (play_reachable [PlacePeg (mkPeg 2 2) R]) as Hr.
  split; [exact Hr |]. split; [vm_compute; reflexivity |].
  exact (proj2 (cells_of_reachable _ Hr)).
Defined.

Lemma outside_grid_no_entry (b : Board) (p : Peg) :
  cells_are_grid b → ¬ (1 ≤ px p ≤ 24 ∧ 1 ≤ py p ≤ 24) →
  getPeg b (PegOps.asTuple p) = None.
Proof.
  intros Hg Hout. destruct (getPeg b (PegOps.asTuple p)) eqn:E; [| reflexivity].
  exfalso. apply Hout. apply (Hg (PegOps.asTuple p)). by eexists.
Qed.

Lemma run_outside_grid (b : Board) (o : Op) :
  cells_are_grid b → barriers_ok b →
  (∃ p, p ∈ op_pegs o ∧ ¬ (1 ≤ px p ≤ 24 ∧ 1 ≤ py p ≤ 24)) →
  run b o = (b, false).
Proof.
  intros Hg Hok (p & Hin & Hout).
  pose proof (outside_grid_no_entry b p Hg Hout) as Hnone.
  assert (Hfalse : snd (run b o) = false → run b o = (b, false)).
  { intros E. rewrite (surjective_pairing (run b o)), E.
    f_equal. destruct o; simpl in *.
    - by apply placePeg_false_same.
    - by apply placeBarrier_false_same.
    - by apply removePeg_false_same.
    - by apply removeBarrier_false_same. }
  apply Hfalse. destruct (snd (run b o)) eqn:E; [exfalso | reflexivity].
  destruct o as [peg c | p1 p2 c | peg c | p1 p2 c]; simpl in Hin, E.
  - apply list_elem_of_singleton in Hin as ->.
    apply placePeg_true in E as [E _]. congruence.
  - apply placeBarrier_true in E as (_ & H1 & H2 & _).
    apply elem_of_cons in Hin as [-> | Hin]; [congruence |].
    apply list_elem_of_singleton in Hin as ->. congruence.
  - apply list_elem_of_singleton in Hin as ->.
    unfold removePeg in E. rewrite bool_decide_eq_false_2 in E by congruence.
    discriminate.
  - assert (Hend : ∀ l, (∀ bar, bar ∈ l → ∃ c', barrier_ok b c' bar) →
                        splice_first (ordered p1 p2) l = None).
    { intros l Hl. apply splice_first_None. intros Hbar.
      destruct (Hl _ Hbar) as (c' & _ & Hf & Hs).
      assert (fst (ordered p1 p2) = p ∨ snd (ordered p1 p2) = p) as [<- | <-].
      { destruct (ordered_cases p1 p2) as [-> | ->]; simpl;
          apply elem_of_cons in Hin as [-> | Hin]; auto;
          apply list_elem_of_singleton in Hin as ->; auto. }
      - congruence.
      - congruence. }
    destruct Hok as [Hr Hb]. unfold removeBarrier in E.
    case_bool_decide; rewrite Hend in E; try discriminate;
      intros bar Hbar; eauto.
Qed.

(** X4: on every reachable board, a call of [placePeg], [placeBarrier],
    [removePeg] or [removeBarrier] that names a peg outside the 24 by 24
    grid returns false and leaves the board as it was, for every colour. *)
Theorem outside_grid_rejected (b : Board) (o : Op) :
  reachable b →
  (∃ p, p ∈ op_pegs o ∧ ¬ (1 ≤ px p ≤ 24 ∧ 1 ≤ py p ≤ 24)) →
  run b o = (b, false).
Proof.
  intros Hr. apply run_outside_grid.
  - by apply reachable_cells_are_grid.
  - by apply reachable_barriers_ok.
Qed.

(** On a fresh board Red tries to place a peg at (0,5). *)
Lemma outside_grid_rejected_witness :
  reachable new_Board
  ∧ (∃ p, p ∈ op_pegs (PlacePeg (mkPeg 0 5) R) ∧ ¬ (1 ≤ px p ≤ 24 ∧ 1 ≤ py p ≤ 24))
  ∧ run new_Board (PlacePeg (mkPeg 0 5) R) = (new_Board, false).
Proof.
  assert (H : ∃ p, p ∈ op_pegs (PlacePeg (mkPeg 0 5) R)
                   ∧ ¬ (1 ≤ px p ≤ 24 ∧ 1 ≤ py p ≤ 24)).
  { exists (mkPeg 0 5). split; [by left | simpl; lia]. }
  split; [exact reach_new |]. split; [exact H |].
  exact (outside_grid_rejected new_Board _ reach_new H).
Defined.

(** ** Home lines *)

Lemma run_home_lines_free (b : Board) (o : Op) :
  home_lines_free b → home_lines_free (fst (run b o)).
Proof.
  intros Hh k. split; intros Hk.
  - destruct (run_getPeg b o k R ltac:(discriminate) Hk)
      as [Hold | (peg & _ & -> & _ & Hf)]; [by apply (Hh k) |].
    simpl in *. lia.
  - destruct (run_getPeg b o k B ltac:(discriminate) Hk)
      as [Hold | (peg & _ & -> & _ & Hf)]; [by apply (Hh k) |].
    simpl in *. lia.
Qed.

Lemma reachable_home_lines_free (b : Board) : reachable b → home_lines_free b.
Proof.
  induction 1 as [| b o _ IH]; [| by apply run_home_lines_free].
  intros k. rewrite new_Board_getPeg. case_bool_decide; split; discriminate.
Qed.

(** X5: on every reachable board a Red peg stands in a column 2 to 23 and a
    Black peg in a row 2 to 23: no sequence of calls puts a peg on a home
    line of the other colour. *)
Theorem pegs_off_home_lines (b : Board) (x y : Z) :
  reachable b →
  (getPeg b (x, y) = Some R → 2 ≤ x ≤ 23 ∧ 1 ≤ y ≤ 24)
  ∧ (getPeg b (x, y) = Some B → 1 ≤ x ≤ 24 ∧ 2 ≤ y ≤ 23).
Proof.
  intros Hr.
  pose proof (reachable_home_lines_free b Hr (x, y)) as [HR HB].
  pose proof (proj1 (reachable_cells_are_grid b Hr (x, y))) as Hg.
  unfold in_grid in Hg. simpl in *.
  split; intros H; [specialize (HR H) | specialize (HB H)];
    specialize (Hg ltac:(by eexists)); lia.
Qed.

(** Red has placed a peg at (2,1), in its own home row. *)
Lemma pegs_off_home_lines_witness :
  reachable (play [PlacePeg (mkPeg 2 1) R])
  ∧ getPeg (play [PlacePeg (mkPeg 2 1) R]) (2, 1) = Some R
  ∧ (2 ≤ 2 ≤ 23 ∧ 1 ≤ 1 ≤ 24).
Proof.
  pose proof (play_reachable [PlacePeg (mkPeg 2 1) R]) as Hr.
  assert (H : getPeg (play [PlacePeg (mkPeg 2 1) R]) (2, 1) = Some R)
    by (vm_compute; reflexivity).
  split; [exact Hr |]. split; [exact H |].
  exact (proj1 (pegs_off_home_lines _ 2 1 Hr) H).
Defined.

(** ** The order of the endpoints of a stored barrier *)

Lemma ordered_in_order (p q : Peg) :
  p ≠ q → PegOps.lt (fst (ordered p q)) (snd (ordered p q)) = true.
Proof.
  intros Hne. unfold ordered. destruct (PegOps.lt p q) eqn:E; simpl; [exact E |].
  by rewrite (lt_flip p q Hne), E.
Qed.

Lemma dist2_5_distinct (p q : Peg) : dist2 p q = 5 → p ≠ q.
Proof. intros H ->. apply dist2_5_run in H. congruence. Qed.

Lemma elem_of_sublists (red red' black black' : list Barrier) (bar : Barrier) :
  red' `sublist_of` red → black' `sublist_of` black →
  bar ∈ red' ++ black' → bar ∈ red ++ black.
Proof.
  intros Hr Hb. apply sublist_subseteq. by apply sublist_app.
Qed.

(** The two arrays after a successful [placeBarrier], as one collection. *)
Lemma placed_all (b b' : Board) (c : Player) (bar : Barrier) :
  c = R ∨ c = B →
  barriers b' c = barriers b c ++ [bar] →
  barriers b' (opponent c) = barriers b (opponent c) →
  redBarrierState b' ++ blackBarrierState b'
  ≡ₚ bar :: (redBarrierState b ++ blackBarrierState b).
Proof.
  intros [-> | ->] H1 H2; simpl in *; rewrite H1, H2.
  - rewrite <- app_assoc. simpl. symmetry. apply Permutation_middle.
  - rewrite app_assoc. symmetry. apply Permutation_cons_append.
Qed.

Lemma run_stored_in_order (b : Board) (o : Op) :
  stored_in_order b → stored_in_order (fst (run b o)).
Proof.
  intros Hs bar Hbar.
  destruct (run_barriers b o) as [[Hr Hb] | (p & q & c & -> & Hc & Hok & H1 & H2)].
  - apply Hs. by apply (elem_of_sublists _ _ _ _ _ Hr Hb).
  - rewrite (placed_all b _ c _ Hc H1 H2) in Hbar.
    apply elem_of_cons in Hbar as [-> | Hbar]; [| by apply Hs].
    simpl in Hok. apply placeBarrier_true in Hok as (Hd & _).
    apply ordered_in_order. by apply dist2_5_distinct.
Qed.

Lemma reachable_stored_in_order (b : Board) : reachable b → stored_in_order b.
Proof.
  induction 1 as [| b o _ IH]; [| by apply run_stored_in_order].
  intros bar Hbar. simpl in Hbar. by apply elem_of_nil in Hbar.
Qed.

(** X6: on every reachable board each stored barrier, Red or Black, lists
    its two pegs in the order of [Peg.lt]: the first peg has the smaller x,
    or the same x and the smaller y, whatever the order the pegs were given
    in to [placeBarrier]. *)
Theorem barriers_stored_in_order (b : Board) (bar : Barrier) :
  reachable b →
  bar ∈ redBarrierState b ++ blackBarrierState b →
  PegOps.lt (fst bar) (snd bar) = true
  ∧ (px (fst bar) < px (snd bar)
     ∨ (px (fst bar) = px (snd bar) ∧ py (fst bar) < py (snd bar))).
Proof.
  intros Hr Hbar. pose proof (reachable_stored_in_order b Hr bar Hbar) as Hlt.
  split; [exact Hlt |]. unfold PegOps.lt in Hlt.
  destruct (Z.eqb_spec (px (fst bar)) (px (snd bar))) as [E | E].
  - right. split; [exact E | by apply Z.ltb_lt].
  - left. by apply Z.ltb_lt.
Qed.

(** Red places the barrier from (3,4) to (2,2); it is stored from (2,2) to
    (3,4). *)
Lemma barriers_stored_in_order_witness :
  let b := play [PlacePeg (mkPeg 2 2) R; PlacePeg (mkPeg 3 4) R;
                 PlaceBarrier (mkPeg 3 4) (mkPeg 2 2) R] in
  reachable b
  ∧ (mkPeg 2 2, mkPeg 3 4) ∈ redBarrierState b ++ blackBarrierState b
  ∧ PegOps.lt (mkPeg 2 2) (mkPeg 3 4) = true.
Proof.
  intros b. pose proof (play_reachable [PlacePeg (mkPeg 2 2) R; PlacePeg (mkPeg 3 4) R;
                                         PlaceBarrier (mkPeg 3 4) (mkPeg 2 2) R]) as Hr.
  assert (Hin : (mkPeg 2 2, mkPeg 3 4) ∈ redBarrierState b ++ blackBarrierState b).
  { replace (redBarrierState b ++ blackBarrierState b) with [(mkPeg 2 2, mkPeg 3 4)]
      by (vm_compute; reflexivity). by left. }
  split; [exact Hr |]. split; [exact Hin |].
  exact (proj1 (barriers_stored_in_order b _ Hr Hin)).
Defined.

(** ** Stored barriers do not conflict *)

Lemma slopeQ_swap (p q : Peg) : (slopeQ q p == slopeQ p q)%Q.
Proof.
  unfold slopeQ.
  replace (py p - py q) with (- (py q - py p)) by lia.
  replace (px p - px q) with (- (px q - px p)) by lia.
  rewrite !inject_Z_opp.
  destruct (decide (px q - px p = 0)) as [-> | Hne].
  - unfold Qdiv. change (/ - inject_Z 0)%Q with 0%Q.
    change (/ inject_Z 0)%Q with 0%Q. ring.
  - pose proof (inject_Z_nonzero _ Hne) as Hn. change (inject_Z 0) with 0%Q in Hn.
    field. exact Hn.
Qed.

Lemma on_line_swap (p q : Peg) (x y : Q) : on_line p q x y → on_line q p x y.
Proof.
  unfold on_line. intros H.
  rewrite <- (Z.add_opp_r (px p)), <- (Z.add_opp_r (py p)), !inject_Z_plus, !inject_Z_opp.
  rewrite <- (Z.add_opp_r (px q)), <- (Z.add_opp_r (py q)), !inject_Z_plus, !inject_Z_opp in H.
  lra.
Qed.

Lemma strictly_between_swap (v : Q) (e1 e2 : Z) :
  strictly_between v e1 e2 → strictly_between v e2 e1.
Proof. unfold strictly_between. tauto. Qed.

Lemma crosses_inside_swap (p q r s : Peg) :
  crosses_inside p q r s → crosses_inside q p r s.
Proof.
  intros (x & y & H1 & H3 & Hx1 & Hx3 & Hy1 & Hy3). exists x, y.
  repeat split; auto using on_line_swap, strictly_between_swap.
Qed.

Lemma crosses_inside_sym (p q r s : Peg) :
  crosses_inside p q r s → crosses_inside r s p q.
Proof.
  intros (x & y & H1 & H3 & Hx1 & Hx3 & Hy1 & Hy3). exists x, y. repeat split; auto.
Qed.

Lemma same_endpoints_swap (p q : Peg) (bar : Barrier) :
  same_endpoints q p bar → same_endpoints p q bar.
Proof. unfold same_endpoints. tauto. Qed.

Lemma same_endpoints_sym (a c : Barrier) :
  same_endpoints (fst c) (snd c) a → same_endpoints (fst a) (snd a) c.
Proof.
  destruct a as [a1 a2], c as [c1 c2]. unfold same_endpoints. simpl.
  intros [[= -> ->] | [= -> ->]]; auto.
Qed.

Lemma compatible_sym (a c : Barrier) : compatible a c → compatible c a.
Proof.
  intros [Hs Hx]. split.
  - intros H. apply Hs. by apply same_endpoints_sym.
  - intros Hm H. apply Hx; [| by apply crosses_inside_sym].
    intros E. apply Hm. by symmetry.
Qed.

Lemma compatible_swap (p q : Peg) (c : Barrier) :
  compatible (p, q) c → compatible (q, p) c.
Proof.
  intros [Hs Hx]. simpl in *. split; simpl.
  - intros H. apply Hs. by apply same_endpoints_swap.
  - intros Hm H. apply Hx; [| by apply crosses_inside_swap].
    intros E. apply Hm. by rewrite slopeQ_swap.
Qed.

(** A proposal that the loop of [placeBarrier] lets pass is compatible with
    the stored barrier. *)
Lemma not_blocked_compatible (p q : Peg) (bar : Barrier) :
  px q ≠ px p → blocks p q bar = false → compatible (p, q) bar.
Proof.
  intros Hp Hb.
  assert (Hno : ¬ (((slopeQ p q == slopeQ (fst bar) (snd bar))%Q ∧ same_endpoints p q bar)
                   ∨ (¬ (slopeQ p q == slopeQ (fst bar) (snd bar))%Q
                      ∧ crosses_inside p q (fst bar) (snd bar)))).
  { intros H. apply (blocks_iff p q bar Hp) in H. congruence. }
  split; simpl.
  - intros Hs. apply Hno. left. split; [| exact Hs].
    destruct Hs as [-> | ->]; simpl; [reflexivity | by rewrite slopeQ_swap].
  - intros Hm Hc. apply Hno. by right.
Qed.

Lemma ordered_compatible (p q : Peg) (bar : Barrier) :
  px q ≠ px p → blocks p q bar = false → compatible (ordered p q) bar.
Proof.
  intros Hp Hb. pose proof (not_blocked_compatible p q bar Hp Hb) as H.
  destruct (ordered_cases p q) as [-> | ->]; [exact H | by apply compatible_swap].
Qed.

Lemma run_no_conflict (b : Board) (o : Op) :
  no_conflict b → no_conflict (fst (run b o)).
Proof.
  intros [Hnd Hpair].
  destruct (run_barriers b o) as [[Hr Hb] | (p & q & c & -> & Hc & Hok & H1 & H2)].
  - split.
    + apply (sublist_NoDup _ (redBarrierState b ++ blackBarrierState b));
        [exact Hnd | by apply sublist_app].
    + intros a c Ha Hc. apply Hpair; by apply (elem_of_sublists _ _ _ _ _ Hr Hb).
  - pose proof (placed_all b _ c _ Hc H1 H2) as Hperm.
    simpl in Hok. apply placeBarrier_true in Hok as (Hd & _ & _ & Hfree & _).
    pose proof (dist2_5_run _ _ Hd) as Hrun.
    assert (Hnb : ∀ bar, bar ∈ redBarrierState b ++ blackBarrierState b →
                         blocks p q bar = false).
    { intros bar Hbar. destruct (blocks p q bar) eqn:E; [| reflexivity].
      assert (existsb (blocks p q) (redBarrierState b ++ blackBarrierState b) = true).
      { apply existsb_exists. exists bar. split; [by apply list_elem_of_In | exact E]. }
      congruence. }
    split.
    + rewrite Hperm. apply NoDup_cons. split; [| exact Hnd].
      intros Hin. apply Hnb in Hin.
      rewrite blocks_same in Hin; [discriminate | exact Hd | apply ordered_cases].
    + intros a c' Ha Hc' Hne. rewrite Hperm in Ha, Hc'.
      apply elem_of_cons in Ha as [-> | Ha]; apply elem_of_cons in Hc' as [-> | Hc'].
      * congruence.
      * apply ordered_compatible; auto.
      * apply compatible_sym, ordered_compatible; auto.
      * by apply Hpair.
Qed.

Lemma reachable_no_conflict (b : Board) : reachable b → no_conflict b.
Proof.
  induction 1 as [| b o _ IH]; [| by apply run_no_conflict].
  split; simpl; [constructor | intros a c Ha; by apply elem_of_nil in Ha].
Qed.

Lemma inject_Z_lt_succ (a c k : Z) :
  (inject_Z a < inject_Z c + inject_Z k)%Q → a < c + k.
Proof. rewrite <- inject_Z_plus, <- Zlt_Qlt. done. Qed.

Lemma inject_Z_eq (a c : Z) : (inject_Z a == inject_Z c)%Q → a = c.
Proof. apply inject_Z_injective. Qed.

Lemma parallel_apart (p q r s : Peg) (dx dy : Z) :
  (dx = 1 ∧ (dy = 2 ∨ dy = -2)) ∨ (dx = 2 ∧ (dy = 1 ∨ dy = -1)) →
  px q - px p = dx → py q - py p = dy → px s - px r = dx → py s - py r = dy →
  crosses_inside p q r s → p = r.
Proof.
  intros Hv Hqx Hqy Hsx Hsy (x & y & H1 & H3 & Hx1 & Hx3 & _).
  unfold on_line in H1, H3. rewrite Hqx, Hqy in H1. rewrite Hsx, Hsy in H3.
  unfold strictly_between in Hx1, Hx3.
  replace (px q) with (px p + dx) in Hx1 by lia.
  replace (px s) with (px r + dx) in Hx3 by lia.
  rewrite inject_Z_plus in Hx1, Hx3.
  set (Px := inject_Z (px p)) in *. set (Py := inject_Z (py p)) in *.
  set (Rx := inject_Z (px r)) in *. set (Ry := inject_Z (py r)) in *.
  assert (Hgoal : px r = px p ∧ py r = py p).
  { destruct Hv as [[-> [-> | ->]] | [-> [-> | ->]]];
      change (inject_Z 1) with 1%Q in *; change (inject_Z 2) with 2%Q in *;
      change (inject_Z (-2)) with (-2)%Q in *; change (inject_Z (-1)) with (-1)%Q in *.
    - assert (Ha : (Rx < Px + inject_Z 1)%Q) by (change (inject_Z 1) with 1%Q; lra).
      assert (Hb : (Px < Rx + inject_Z 1)%Q) by (change (inject_Z 1) with 1%Q; lra).
      apply inject_Z_lt_succ in Ha, Hb.
      assert (Ex : px r = px p) by lia.
      assert (ExQ : (Rx == Px)%Q) by (unfold Rx, Px; by rewrite Ex).
      assert (EyQ : (Ry == Py)%Q) by lra.
      split; [exact Ex | by apply inject_Z_eq].
    - assert (Ha : (Rx < Px + inject_Z 1)%Q) by (change (inject_Z 1) with 1%Q; lra).
      assert (Hb : (Px < Rx + inject_Z 1)%Q) by (change (inject_Z 1) with 1%Q; lra).
      apply inject_Z_lt_succ in Ha, Hb.
      assert (Ex : px r = px p) by lia.
      assert (ExQ : (Rx == Px)%Q) by (unfold Rx, Px; by rewrite Ex).
      assert (EyQ : (Ry == Py)%Q) by lra.
      split; [exact Ex | by apply inject_Z_eq].
    - assert (Ha : (Rx < Px + inject_Z 2)%Q) by (change (inject_Z 2) with 2%Q; lra).
      assert (Hb : (Px < Rx + inject_Z 2)%Q) by (change (inject_Z 2) with 2%Q; lra).
      apply inject_Z_lt_succ in Ha, Hb.
      assert (EQ : (inject_Z (2 * py r + px p) == inject_Z (2 * py p + px r))%Q).
      { rewrite !inject_Z_plus, !inject_Z_mult. fold Px Py Rx Ry.
        change (inject_Z 2) with 2%Q. lra. }
      apply inject_Z_eq in EQ. lia.
    - assert (Ha : (Rx < Px + inject_Z 2)%Q) by (change (inject_Z 2) with 2%Q; lra).
      assert (Hb : (Px < Rx + inject_Z 2)%Q) by (change (inject_Z 2) with 2%Q; lra).
      apply inject_Z_lt_succ in Ha, Hb.
      assert (EQ : (inject_Z (2 * py r + px r) == inject_Z (2 * py p + px p))%Q).
      { rewrite !inject_Z_plus, !inject_Z_mult. fold Px Py Rx Ry.
        change (inject_Z 2) with 2%Q. lra. }
      apply inject_Z_eq in EQ. lia. }
  destruct p, r; simpl in *. destruct Hgoal; congruence.
Qed.

Lemma knight_vector (bar : Barrier) :
  (px (snd bar) - px (fst bar)) ^ 2 + (py (snd bar) - py (fst bar)) ^ 2 = 5 →
  PegOps.lt (fst bar) (snd bar) = true →
  (px (snd bar) - px (fst bar) = 1
   ∧ (py (snd bar) - py (fst bar) = 2 ∨ py (snd bar) - py (fst bar) = -2))
  ∨ (px (snd bar) - px (fst bar) = 2
     ∧ (py (snd bar) - py (fst bar) = 1 ∨ py (snd bar) - py (fst bar) = -1)).
Proof.
  intros Hd Hlt.
  assert (Hd' : dist2 (fst bar) (snd bar) = 5) by (unfold dist2; lia).
  unfold PegOps.lt in Hlt.
  destruct (Z.eqb_spec (px (fst bar)) (px (snd bar))) as [E | E].
  - apply dist2_5_run in Hd'. congruence.
  - apply Z.ltb_lt in Hlt. destruct (dist2_5_cases _ _ Hd') as [[? ?] | [? ?]]; lia.
Qed.

Lemma same_slope_same_vector (dx1 dy1 dx3 dy3 : Z) :
  (dx1 = 1 ∧ (dy1 = 2 ∨ dy1 = -2)) ∨ (dx1 = 2 ∧ (dy1 = 1 ∨ dy1 = -1)) →
  (dx3 = 1 ∧ (dy3 = 2 ∨ dy3 = -2)) ∨ (dx3 = 2 ∧ (dy3 = 1 ∨ dy3 = -1)) →
  (inject_Z dy1 / inject_Z dx1 == inject_Z dy3 / inject_Z dx3)%Q →
  dx1 = dx3 ∧ dy1 = dy3.
Proof.
  intros [[-> [-> | ->]] | [-> [-> | ->]]] [[-> [-> | ->]] | [-> [-> | ->]]] H;
    try (split; reflexivity); vm_compute in H; discriminate H.
Qed.

(** Two different barriers of squared length 5 with the same slope, each
    listed smaller peg first, have no common point strictly inside both. *)
Lemma parallel_no_crossing (a c : Barrier) :
  (px (snd a) - px (fst a)) ^ 2 + (py (snd a) - py (fst a)) ^ 2 = 5 →
  (px (snd c) - px (fst c)) ^ 2 + (py (snd c) - py (fst c)) ^ 2 = 5 →
  PegOps.lt (fst a) (snd a) = true → PegOps.lt (fst c) (snd c) = true →
  (slopeQ (fst a) (snd a) == slopeQ (fst c) (snd c))%Q →
  crosses_inside (fst a) (snd a) (fst c) (snd c) → a = c.
Proof.
  intros Hda Hdc Hla Hlc Hm Hx.
  pose proof (knight_vector a Hda Hla) as Hva.
  pose proof (knight_vector c Hdc Hlc) as Hvc.
  destruct (same_slope_same_vector _ _ _ _ Hva Hvc Hm) as [Ex Ey].
  assert (E1 : fst a = fst c).
  { apply (parallel_apart (fst a) (snd a) (fst c) (snd c) _ _ Hva); auto. }
  destruct a as [[a1x a1y] [a2x a2y]], c as [[c1x c1y] [c2x c2y]]; simpl in *.
  injection E1 as -> ->. f_equal. f_equal; lia.
Qed.

(** X7: on every reachable board no barrier is stored twice, no two stored
    barriers (of one colour or of both) join the same two pegs, and the
    lines of two different stored barriers have no common point that lies
    strictly between the endpoint coordinates of both on both axes. *)
Theorem barriers_do_not_cross (b : Board) :
  reachable b →
  NoDup (redBarrierState b ++ blackBarrierState b)
  ∧ ∀ a c, a ∈ redBarrierState b ++ blackBarrierState b →
           c ∈ redBarrierState b ++ blackBarrierState b →
           a ≠ c →
           ¬ same_endpoints (fst a) (snd a) c
           ∧ ¬ crosses_inside (fst a) (snd a) (fst c) (snd c).
Proof.
  intros Hr. destruct (reachable_no_conflict b Hr) as [Hnd Hpair].
  split; [exact Hnd |]. intros a c Ha Hc Hne.
  destruct (Hpair a c Ha Hc Hne) as [Hs Hx]. split; [exact Hs |].
  intros Hcross.
  destruct (Qeq_dec (slopeQ (fst a) (snd a)) (slopeQ (fst c) (snd c))) as [Hm | Hm];
    [| by apply Hx].
  pose proof (reachable_barriers_ok b Hr) as [Hokr Hokb].
  pose proof (reachable_stored_in_order b Hr) as Hord.
  assert (Hlen : ∀ bar, bar ∈ redBarrierState b ++ blackBarrierState b →
            (px (snd bar) - px (fst bar)) ^ 2 + (py (snd bar) - py (fst bar)) ^ 2 = 5).
  { intros bar Hbar. apply elem_of_app in Hbar as [Hbar | Hbar];
      [destruct (Hokr bar Hbar) as [H _] | destruct (Hokb bar Hbar) as [H _]]; exact H. }
  apply Hne. apply parallel_no_crossing; auto.
Qed.

(** A Red and a Black barrier that do not cross, stored on one board. *)
Lemma barriers_do_not_cross_witness :
  let b := play [PlacePeg (mkPeg 2 2) R; PlacePeg (mkPeg 3 4) R;
                 PlacePeg (mkPeg 2 4) B; PlacePeg (mkPeg 4 3) B;
                 PlaceBarrier (mkPeg 2 2) (mkPeg 3 4) R;
                 PlaceBarrier (mkPeg 2 4) (mkPeg 4 3) B;
                 PlacePeg (mkPeg 4 5) B;
                 PlaceBarrier (mkPeg 2 4) (mkPeg 4 5) B] in
  reachable b
  ∧ redBarrierState b ++ blackBarrierState b
    = [(mkPeg 2 2, mkPeg 3 4); (mkPeg 2 4, mkPeg 4 5)]
  ∧ ¬ crosses_inside (mkPeg 2 2) (mkPeg 3 4) (mkPeg 2 4) (mkPeg 4 5).
Proof.
  intros b.
  assert (Hr : reachable b) by apply play_reachable.
  assert (Hall : redBarrierState b ++ blackBarrierState b
                 = [(mkPeg 2 2, mkPeg 3 4); (mkPeg 2 4, mkPeg 4 5)])
    by (vm_compute; reflexivity).
  split; [exact Hr |]. split; [exact Hall |].
  refine (proj2 (proj2 (barriers_do_not_cross b Hr) (mkPeg 2 2, mkPeg 3 4)
                   (mkPeg 2 4, mkPeg 4 5) _ _ _)).
  - rewrite Hall. by left.
  - rewrite Hall. right. by left.
  - discriminate.
Defined.

(** ** Adjacency on reachable boards *)

Lemma getAdjacentPegs_colour (b : Board) (p q : Peg) :
  q ∈ getAdjacentPegs b p →
  ∃ c, (c = R ∨ c = B) ∧ getPeg b (PegOps.asTuple p) = Some c
       ∧ q ∈ neighbours p (barriers b c).
Proof.
  unfold getAdjacentPegs. destruct (getPeg b (PegOps.asTuple p)) as [[| |] |]; intros H.
  - exists R. auto.
  - exists B. auto.
  - by apply elem_of_nil in H.
  - by apply elem_of_nil in H.
Qed.

Lemma adjacent_joined (b : Board) (p q : Peg) :
  barriers_ok b → q ∈ getAdjacentPegs b p →
  ∃ c, (c = R ∨ c = B)
       ∧ getPeg b (PegOps.asTuple p) = Some c ∧ getPeg b (PegOps.asTuple q) = Some c
       ∧ joined (barriers b c) p q
       ∧ (px q - px p) ^ 2 + (py q - py p) ^ 2 = 5.
Proof.
  intros Hok H. destruct (getAdjacentPegs_colour b p q H) as (c & Hc & Hp & Hq).
  apply neighbours_elem in Hq. exists c. split; [exact Hc |]. split; [exact Hp |].
  destruct Hq as [Hq | Hq];
    destruct (barriers_ok_colour b c _ Hok Hc Hq) as (Hd & H1 & H2); simpl in *.
  - split; [exact H2 |]. split; [by left | exact Hd].
  - split; [exact H1 |]. split; [by right | lia].
Qed.

(** X8: on every reachable board, a peg that [getAdjacentPegs] returns for
    [p] holds the same colour as [p], Red or Black, is a knight's move away
    from [p] (squared distance 5), and has [p] among its own adjacent
    pegs. *)
Theorem adjacency_symmetric (b : Board) (p q : Peg) :
  reachable b →
  q ∈ getAdjacentPegs b p →
  p ∈ getAdjacentPegs b q
  ∧ (∃ c, (c = R ∨ c = B)
          ∧ getPeg b (PegOps.asTuple p) = Some c ∧ getPeg b (PegOps.asTuple q) = Some c)
  ∧ (px q - px p) ^ 2 + (py q - py p) ^ 2 = 5.
Proof.
  intros Hr H. pose proof (reachable_barriers_ok b Hr) as Hok.
  destruct (adjacent_joined b p q Hok H) as (c & Hc & Hp & Hq & Hj & Hd).
  split; [| split; [by exists c | exact Hd]].
  rewrite (getAdjacentPegs_owner b q c Hc Hq). apply neighbours_elem.
  destruct Hj; auto.
Qed.

(** Two Red pegs joined by a barrier. *)
Lemma adjacency_symmetric_witness :
  let b := play [PlacePeg (mkPeg 2 2) R; PlacePeg (mkPeg 3 4) R;
                 PlaceBarrier (mkPeg 3 4) (mkPeg 2 2) R] in
  reachable b
  ∧ mkPeg 3 4 ∈ getAdjacentPegs b (mkPeg 2 2)
  ∧ mkPeg 2 2 ∈ getAdjacentPegs b (mkPeg 3 4).
Proof.
  intros b. assert (Hr : reachable b) by apply play_reachable.
  assert (H : mkPeg 3 4 ∈ getAdjacentPegs b (mkPeg 2 2)).
  { replace (getAdjacentPegs b (mkPeg 2 2)) with [mkPeg 3 4] by (vm_compute; reflexivity).
    by left. }
  split; [exact Hr |]. split; [exact H |].
  exact (proj1 (adjacency_symmetric b _ _ Hr H)).
Defined.

Lemma lt_irrefl (p : Peg) : PegOps.lt p p = false.
Proof. unfold PegOps.lt. rewrite Z.eqb_refl. apply Z.ltb_irrefl. Qed.

Lemma lt_asym (p q : Peg) : PegOps.lt p q = true → PegOps.lt q p = false.
Proof.
  intros H. destruct (decide (p = q)) as [-> | Hne]; [by rewrite lt_irrefl in H |].
  by rewrite (lt_flip p q Hne), H.
Qed.

Lemma neighbours_NoDup (p : Peg) (l : list Barrier) :
  NoDup l → (∀ bar, bar ∈ l → PegOps.lt (fst bar) (snd bar) = true) →
  NoDup (neighbours p l).
Proof.
  intros Hnd Hord. induction Hnd as [| [a c] l Hin Hnd IH]; [constructor |].
  assert (Hl : ∀ bar, bar ∈ l → PegOps.lt (fst bar) (snd bar) = true)
    by (intros bar Hbar; apply Hord; by right).
  specialize (IH Hl).
  assert (Hac : PegOps.lt a c = true) by (apply (Hord (a, c)); by left).
  change (neighbours p ((a, c) :: l))
    with (((if PegOps.equals p a then [c] else [])
           ++ (if PegOps.equals p c then [a] else [])) ++ neighbours p l).
  destruct (PegOps.equals p a) eqn:Ea; destruct (PegOps.equals p c) eqn:Ec;
    rewrite ?equals_spec, ?equals_false in *; subst; simpl.
  - by rewrite lt_irrefl in Hac.
  - apply NoDup_cons. split; [| exact IH]. rewrite neighbours_elem.
    intros [H | H]; [contradiction |].
    apply Hl in H. simpl in H. by rewrite (lt_asym _ _ Hac) in H.
  - apply NoDup_cons. split; [| exact IH]. rewrite neighbours_elem.
    intros [H | H]; [| contradiction].
    apply Hl in H. simpl in H. by rewrite (lt_asym _ _ Hac) in H.
  - exact IH.
Qed.

(** X9: on every reachable board [getAdjacentPegs] returns no peg twice. *)
Theorem adjacency_without_repeats (b : Board) (p : Peg) :
  reachable b → NoDup (getAdjacentPegs b p).
Proof.
  intros Hr. destruct (reachable_no_conflict b Hr) as [Hnd _].
  pose proof (reachable_stored_in_order b Hr) as Hord.
  apply NoDup_app in Hnd as (Hred & _ & Hblack).
  unfold getAdjacentPegs. destruct (getPeg b (PegOps.asTuple p)) as [[| |] |];
    try constructor; apply neighbours_NoDup; auto;
    intros bar Hbar; apply Hord, elem_of_app; auto.
Qed.

(** A Red peg with two barriers. *)
Lemma adjacency_without_repeats_witness :
  let b := play [PlacePeg (mkPeg 2 2) R; PlacePeg (mkPeg 3 4) R; PlacePeg (mkPeg 4 6) R;
                 PlaceBarrier (mkPeg 3 4) (mkPeg 2 2) R;
                 PlaceBarrier (mkPeg 3 4) (mkPeg 4 6) R] in
  reachable b
  ∧ getAdjacentPegs b (mkPeg 3 4) = [mkPeg 2 2; mkPeg 4 6]
  ∧ NoDup (getAdjacentPegs b (mkPeg 3 4)).
Proof.
  intros b. assert (Hr : reachable b) by apply play_reachable.
  split; [exact Hr |]. split; [vm_compute; reflexivity |].
  exact (adjacency_without_repeats b (mkPeg 3 4) Hr).
Defined.

(** ** Placing a barrier and adjacency *)

Lemma neighbours_app (p : Peg) (l1 l2 : list Barrier) :
  neighbours p (l1 ++ l2) = neighbours p l1 ++ neighbours p l2.
Proof. unfold neighbours. apply flat_map_app. Qed.

Lemma neighbours_ordered (p a c : Peg) :
  a ≠ c →
  neighbours p [ordered a c]
  = if bool_decide (p = a) then [c] else if bool_decide (p = c) then [a] else [].
Proof.
  intros Hne. unfold neighbours.
  destruct (ordered_cases a c) as [-> | ->]; simpl;
    destruct (PegOps.equals p a) eqn:Ea; destruct (PegOps.equals p c) eqn:Ec;
    rewrite ?equals_spec, ?equals_false in *; subst;
    repeat case_bool_decide; try congruence; reflexivity.
Qed.

Lemma getAdjacentPegs_placed (b : Board) (c : Player) (bar : Barrier) (p : Peg) :
  c = R ∨ c = B →
  getAdjacentPegs
    match c with
    | R => mkBoard (pegState b) (redBarrierState b ++ [bar]) (blackBarrierState b)
    | B => mkBoard (pegState b) (redBarrierState b) (blackBarrierState b ++ [bar])
    | X => b
    end p
  = getAdjacentPegs b p
    ++ (if bool_decide (getPeg b (PegOps.asTuple p) = Some c)
        then neighbours p [bar] else []).
Proof.
  intros Hc. unfold getAdjacentPegs, getPeg.
  destruct Hc as [-> | ->]; simpl;
    destruct (pegState b !! _) as [[| |] |]; simpl;
    rewrite ?neighbours_app;
    try case_bool_decide; try congruence; try reflexivity; by rewrite app_nil_r.
Qed.

(** X10: when [placeBarrier] returns true, on any board, the adjacent pegs
    of the first peg are those of before followed by the second peg, the
    adjacent pegs of the second peg are those of before followed by the
    first, and the adjacent pegs of every other peg are as before. *)
Theorem placeBarrier_adjacency (b : Board) (pegA pegB : Peg) (color : Player) :
  snd (placeBarrier b pegA pegB color) = true →
  let b' := fst (placeBarrier b pegA pegB color) in
  getAdjacentPegs b' pegA = getAdjacentPegs b pegA ++ [pegB]
  ∧ getAdjacentPegs b' pegB = getAdjacentPegs b pegB ++ [pegA]
  ∧ ∀ p, p ≠ pegA → p ≠ pegB → getAdjacentPegs b' p = getAdjacentPegs b p.
Proof.
  intros Hok b'. subst b'. rewrite (placeBarrier_true_board _ _ _ _ Hok).
  apply placeBarrier_true in Hok as (Hd & HA & HB & _ & Hc).
  pose proof (dist2_5_distinct _ _ Hd) as Hne.
  assert (Hc' : color = R ∨ color = B) by (destruct color; auto; congruence).
  split; [| split].
  - rewrite (getAdjacentPegs_placed b color _ pegA Hc').
    rewrite bool_decide_eq_true_2 by exact HA.
    rewrite (neighbours_ordered _ _ _ Hne).
    by rewrite bool_decide_eq_true_2.
  - rewrite (getAdjacentPegs_placed b color _ pegB Hc').
    rewrite bool_decide_eq_true_2 by exact HB.
    rewrite (neighbours_ordered _ _ _ Hne).
    rewrite bool_decide_eq_false_2 by congruence.
    by rewrite bool_decide_eq_true_2.
  - intros p HpA HpB. rewrite (getAdjacentPegs_placed b color _ p Hc').
    rewrite (neighbours_ordered _ _ _ Hne).
    rewrite (bool_decide_eq_false_2 (p = pegA)), (bool_decide_eq_false_2 (p = pegB))
      by assumption.
    case_bool_decide; apply app_nil_r.
Qed.

(** A second barrier at the peg (3,4). *)
Lemma placeBarrier_adjacency_witness :
  let b := play [PlacePeg (mkPeg 2 2) R; PlacePeg (mkPeg 3 4) R; PlacePeg (mkPeg 4 6) R;
                 PlaceBarrier (mkPeg 3 4) (mkPeg 2 2) R] in
  snd (placeBarrier b (mkPeg 4 6) (mkPeg 3 4) R) = true
  ∧ getAdjacentPegs (fst (placeBarrier b (mkPeg 4 6) (mkPeg 3 4) R)) (mkPeg 3 4)
    = getAdjacentPegs b (mkPeg 3 4) ++ [mkPeg 4 6].
Proof.
  intros b.
  assert (H : snd (placeBarrier b (mkPeg 4 6) (mkPeg 3 4) R) = true)
    by (vm_compute; reflexivity).
  split; [exact H |].
  exact (proj1 (proj2 (placeBarrier_adjacency b _ _ R H))).
Defined.

(** ** Removing a barrier *)

Lemma ordered_stored (p q : Peg) (l : list Barrier) :
  (∀ bar, bar ∈ l → PegOps.lt (fst bar) (snd bar) = true) →
  joined l p q ↔ ordered p q ∈ l.
Proof.
  intros Hord. unfold joined, ordered. split.
  - intros [H | H]; pose proof (Hord _ H) as Hlt; simpl in Hlt.
    + by rewrite Hlt.
    + by rewrite (lt_asym _ _ Hlt).
  - destruct (PegOps.lt p q); auto.
Qed.

Lemma filter_all {A : Type} (P : A → Prop) `{∀ x, Decision (P x)} (l : list A) :
  (∀ x, x ∈ l → P x) → filter P l = l.
Proof.
  induction l as [| t l IH]; intros Hl; [reflexivity |].
  rewrite filter_cons, IH by (intros x Hx; apply Hl; by right).
  case_decide as Hd; [reflexivity |]. exfalso. apply Hd, Hl. by left.
Qed.

Lemma removeBarrier_true (b : Board) (p q : Peg) (c : Player) :
  c = R ∨ c = B →
  snd (removeBarrier b p q c) = true ↔ ordered p q ∈ barriers b c.
Proof.
  intros Hc. unfold removeBarrier.
  destruct Hc as [-> | ->]; simpl;
    destruct (splice_first _ _) as [l |] eqn:E; simpl.
  - split; [intros _ | done].
    destruct (splice_first_split _ _ _ E) as (l1 & l2 & -> & _). apply elem_of_app.
    right. by left.
  - apply splice_first_None in E. split; [discriminate | contradiction].
  - split; [intros _ | done].
    destruct (splice_first_split _ _ _ E) as (l1 & l2 & -> & _). apply elem_of_app.
    right. by left.
  - apply splice_first_None in E. split; [discriminate | contradiction].
Qed.

Lemma removeBarrier_barriers (b : Board) (p q : Peg) (c : Player) :
  c = R ∨ c = B → snd (removeBarrier b p q c) = true →
  ∃ l1 l2, barriers b c = l1 ++ ordered p q :: l2
           ∧ barriers (fst (removeBarrier b p q c)) c = l1 ++ l2
           ∧ barriers (fst (removeBarrier b p q c)) (opponent c)
             = barriers b (opponent c).
Proof.
  intros Hc. unfold removeBarrier.
  destruct Hc as [-> | ->]; simpl;
    destruct (splice_first _ _) as [l |] eqn:E; simpl; try discriminate; intros _;
    destruct (splice_first_split _ _ _ E) as (l1 & l2 & H1 & H2 & _);
    exists l1, l2; auto.
Qed.

(** X11: on every reachable board and for a colour Red or Black,
    [removeBarrier] returns true exactly when a barrier of the colour joins
    the two pegs, given in either order; the call then takes that barrier,
    and nothing else, out of the colour's array, leaves the other array and
    the peg map as they were, and the two pegs are no longer adjacent. *)
Theorem removeBarrier_spec (b : Board) (p q : Peg) (c : Player) :
  reachable b → c = R ∨ c = B →
  let res := removeBarrier b p q c in
  (snd res = true ↔ (p, q) ∈ barriers b c ∨ (q, p) ∈ barriers b c)
  ∧ (snd res = true →
     barriers (fst res) c
     = filter (λ bar, bar ≠ (p, q) ∧ bar ≠ (q, p)) (barriers b c)
     ∧ length (barriers (fst res) c) = pred (length (barriers b c))
     ∧ barriers (fst res) (opponent c) = barriers b (opponent c)
     ∧ pegState (fst res) = pegState b
     ∧ ¬ q ∈ getAdjacentPegs (fst res) p
     ∧ ¬ p ∈ getAdjacentPegs (fst res) q).
Proof.
  intros Hr Hc res. subst res.
  pose proof (reachable_stored_in_order b Hr) as Hord.
  destruct (reachable_no_conflict b Hr) as [Hnd _].
  pose proof (reachable_barriers_ok b Hr) as Hok.
  assert (Hordc : ∀ bar, bar ∈ barriers b c → PegOps.lt (fst bar) (snd bar) = true).
  { intros bar Hbar. apply Hord, elem_of_app. destruct Hc as [-> | ->]; auto. }
  assert (Hndc : NoDup (barriers b c)).
  { apply NoDup_app in Hnd as (? & _ & ?). by destruct Hc as [-> | ->]. }
  split.
  - rewrite (removeBarrier_true b p q c Hc). symmetry. apply (ordered_stored p q _ Hordc).
  - intros Hok'.
    destruct (removeBarrier_barriers b p q c Hc Hok') as (l1 & l2 & Hl & Hl' & Hopp).
    rewrite Hl in Hndc, Hordc. rewrite Hl', Hl.
    apply NoDup_app in Hndc as (Hnd1 & Hdis & Hnd2).
    apply NoDup_cons in Hnd2 as [Hnot2 Hnd2].
    assert (Hnot1 : ordered p q ∉ l1).
    { intros H. apply (Hdis _ H). by left. }
    assert (Hin : ordered p q ∈ l1 ++ ordered p q :: l2)
      by (apply elem_of_app; right; by left).
    assert (Hkeep : ∀ l : list Barrier,
               ordered p q ∉ l → (∀ bar, bar ∈ l → PegOps.lt (fst bar) (snd bar) = true) →
               filter (λ bar, bar ≠ (p, q) ∧ bar ≠ (q, p)) l = l).
    { intros l Hnot Hl0. apply filter_all. intros t Ht.
      pose proof (Hl0 t Ht) as Hlt.
      split; intros ->; simpl in Hlt; apply Hnot; unfold ordered.
      - by rewrite Hlt.
      - by rewrite (lt_asym _ _ Hlt). }
    assert (Hgone : ¬ joined (l1 ++ l2) p q).
    { intros Hj. apply (ordered_stored p q) in Hj.
      - apply elem_of_app in Hj as [? | ?]; contradiction.
      - intros bar Hbar. apply Hordc. apply elem_of_app in Hbar as [? | ?];
          apply elem_of_app; [by left | right; by right]. }
    assert (Hdrop : filter (λ bar, bar ≠ (p, q) ∧ bar ≠ (q, p)) [ordered p q] = []).
    { rewrite filter_cons, filter_nil. case_decide as Hd; [| reflexivity].
      destruct (ordered_cases p q); tauto. }
    split.
    { rewrite filter_app, (filter_cons _ (ordered p q)).
      change (ordered p q :: l2) with ([ordered p q] ++ l2) in Hordc.
      rewrite !Hkeep.
      - case_decide as Hd; [| reflexivity]. destruct (ordered_cases p q); tauto.
      - exact Hnot2.
      - intros bar Hbar. apply Hordc. apply elem_of_app. right. apply elem_of_app. by right.
      - exact Hnot1.
      - intros bar Hbar. apply Hordc. apply elem_of_app. by left. }
    split; [rewrite !length_app; simpl; lia |].
    split; [exact Hopp |]. split; [apply removeBarrier_pegState |].
    assert (Hpq : ∀ u v, (u = p ∧ v = q) ∨ (u = q ∧ v = p) →
                         v ∉ getAdjacentPegs (fst (removeBarrier b p q c)) u).
    { intros u v Huv Hadj.
      destruct (getAdjacentPegs_colour _ _ _ Hadj) as (c' & Hc' & Hu & Hv).
      assert (Hown : getPeg b (PegOps.asTuple u) = Some c).
      { destruct (barriers_ok_colour b c (ordered p q) Hok Hc) as (_ & H1 & H2).
        - rewrite Hl. exact Hin.
        - destruct (ordered_cases p q) as [E | E]; rewrite E in H1, H2; simpl in *;
            destruct Huv as [[-> ->] | [-> ->]]; assumption. }
      unfold getPeg in Hu, Hown. rewrite removeBarrier_pegState in Hu.
      assert (c' = c) as -> by congruence.
      rewrite Hl' in Hv. apply neighbours_elem in Hv. apply Hgone.
      unfold joined. destruct Huv as [[-> ->] | [-> ->]]; tauto. }
    split; apply Hpq; auto.
Qed.

(** The barrier is placed from (3,4) to (2,2) and removed from (2,2) to
    (3,4). *)
Lemma removeBarrier_spec_witness :
  let b := play [PlacePeg (mkPeg 2 2) R; PlacePeg (mkPeg 3 4) R;
                 PlaceBarrier (mkPeg 3 4) (mkPeg 2 2) R] in
  reachable b ∧ (R = R ∨ R = B)
  ∧ snd (removeBarrier b (mkPeg 2 2) (mkPeg 3 4) R) = true
  ∧ ¬ mkPeg 3 4 ∈ getAdjacentPegs (fst (removeBarrier b (mkPeg 2 2) (mkPeg 3 4) R))
                                   (mkPeg 2 2).
Proof.
  intros b. assert (Hr : reachable b) by apply play_reachable.
  assert (H : snd (removeBarrier b (mkPeg 2 2) (mkPeg 3 4) R) = true)
    by (vm_compute; reflexivity).
  split; [exact Hr |]. split; [by left |]. split; [exact H |].
  destruct (removeBarrier_spec b (mkPeg 2 2) (mkPeg 3 4) R Hr (or_introl eq_refl))
    as [_ Hpost].
  exact (proj1 (proj2 (proj2 (proj2 (proj2 (Hpost H)))))).
Defined.

(** ** Placing and removing a peg *)

Lemma List_filter_all {A : Type} (f : A → bool) (l : list A) :
  (∀ x, x ∈ l → f x = true) → List.filter f l = l.
Proof.
  induction l as [| t l IH]; intros Hl; [reflexivity |].
  simpl. rewrite (Hl t) by (by left). f_equal. apply IH. intros x Hx. apply Hl. by right.
Qed.

Lemma untouched_by_empty_cell (b : Board) (c : Player) (peg : Peg) (bar : Barrier) :
  c ≠ X → barrier_ok b c bar → getPeg b (PegOps.asTuple peg) = Some X →
  untouched peg bar = true.
Proof.
  intros Hc (_ & H1 & H2) Hx. unfold untouched.
  rewrite (proj2 (equals_false peg (fst bar))), (proj2 (equals_false peg (snd bar)));
    [reflexivity | |]; intros ->; congruence.
Qed.

(** X12: on every reachable board, when [placePeg] returns true, [removePeg]
    with the same peg and colour on the board it returns gives true and the
    board of before the placement. *)
Theorem peg_roundtrip (b : Board) (peg : Peg) (color : Player) :
  reachable b →
  snd (placePeg b peg color) = true →
  removePeg (fst (placePeg b peg color)) peg color = (b, true).
Proof.
  intros Hr Hok. pose proof (reachable_barriers_ok b Hr) as [Hokr Hokb].
  rewrite (placePeg_true_board _ _ _ Hok). apply placePeg_true in Hok as [Hx _].
  unfold removePeg. rewrite getPeg_setPeg_same, bool_decide_eq_true_2 by reflexivity.
  assert (Hred : List.filter (untouched peg) (redBarrierState b) = redBarrierState b).
  { apply List_filter_all. intros bar Hbar.
    apply (untouched_by_empty_cell b R); auto; discriminate. }
  assert (Hblack : List.filter (untouched peg) (blackBarrierState b) = blackBarrierState b).
  { apply List_filter_all. intros bar Hbar.
    apply (untouched_by_empty_cell b B); auto; discriminate. }
  f_equal. destruct b as [m r bl]. unfold _setPeg, getPeg in *. simpl in *.
  case_bool_decide; simpl; rewrite ?Hred, ?Hblack; f_equal;
    rewrite insert_insert_eq; by apply insert_id.
Qed.

(** Red places a peg at (5,7) on a board with a barrier and takes it back. *)
Lemma peg_roundtrip_witness :
  let b := play [PlacePeg (mkPeg 2 2) R; PlacePeg (mkPeg 3 4) R;
                 PlaceBarrier (mkPeg 3 4) (mkPeg 2 2) R] in
  reachable b
  ∧ snd (placePeg b (mkPeg 5 7) R) = true
  ∧ removePeg (fst (placePeg b (mkPeg 5 7) R)) (mkPeg 5 7) R = (b, true).
Proof.
  intros b. assert (Hr : reachable b) by apply play_reachable.
  assert (H : snd (placePeg b (mkPeg 5 7) R) = true) by (vm_compute; reflexivity).
  split; [exact Hr |]. split; [exact H |].
  exact (peg_roundtrip b (mkPeg 5 7) R Hr H).
Defined.

(** ** Wins come from barriers *)

Lemma chain_tail (b : Board) (c : Player) (p : Peg) (ps : list Peg) :
  chain b c (p :: ps) → chain b c ps.
Proof. simpl. tauto. Qed.

(** A chain of at least two pegs on barriers that an older board already
    had is a chain of the older board. *)
Lemma chain_older (b b' : Board) (c : Player) (ps : list Peg) (p : Peg) :
  barriers_ok b → c = R ∨ c = B →
  (∀ bar, bar ∈ barriers b' c → bar ∈ barriers b c) →
  getPeg b (PegOps.asTuple p) = Some c →
  chain b' c (p :: ps) → chain b c (p :: ps).
Proof.
  intros Hok Hc Hsub. revert p. induction ps as [| q ps IH]; intros p Hp Hch.
  - simpl. auto.
  - destruct Hch as (_ & Hj & Hch).
    assert (Hj' : joined (barriers b c) p q) by (destruct Hj as [H | H]; [left | right]; auto).
    assert (Hq : getPeg b (PegOps.asTuple q) = Some c).
    { destruct Hj' as [H | H];
        destruct (barriers_ok_colour b c _ Hok Hc H) as (_ & H1 & H2); assumption. }
    split; [exact Hp |]. split; [exact Hj' |]. by apply IH.
Qed.

Lemma winning_path_older (b b' : Board) (c : Player) :
  barriers_ok b → c = R ∨ c = B →
  (∀ bar, bar ∈ barriers b' c → bar ∈ barriers b c) →
  winning_path b' c → winning_path b c.
Proof.
  intros Hok Hc Hsub (ps & p0 & pk & Hhd & Hlast & Hch & Hnear & Hfar).
  exists ps, p0, pk. repeat split; auto.
  destruct ps as [| p ps]; [discriminate |]. injection Hhd as ->.
  destruct ps as [| q ps].
  - injection Hlast as ->. exfalso.
    destruct Hc as [-> | ->]; simpl in *; lia.
  - apply (chain_older b b' c (q :: ps) p0 Hok Hc Hsub); [| exact Hch].
    destruct Hch as (_ & Hj & _).
    assert (Hj' : joined (barriers b c) p0 q) by (destruct Hj as [H | H]; [left | right]; auto).
    destruct Hj' as [H | H];
      destruct (barriers_ok_colour b c _ Hok Hc H) as (_ & H1 & H2); assumption.
Qed.

Lemma run_barriers_older (b : Board) (o : Op) (c : Player) :
  c = R ∨ c = B →
  (∀ p q, o ≠ PlaceBarrier p q c) →
  ∀ bar, bar ∈ barriers (fst (run b o)) c → bar ∈ barriers b c.
Proof.
  intros Hc Hno bar.
  destruct (run_barriers b o) as [[Hr Hb] | (p & q & c' & -> & Hc' & _ & H1 & H2)].
  - destruct Hc as [-> | ->]; simpl; by apply sublist_subseteq.
  - assert (c' ≠ c) by (intros ->; by apply (Hno p q)).
    assert (c = opponent c') as -> by (destruct Hc as [-> | ->], Hc' as [-> | ->]; done).
    by rewrite H2.
Qed.

(** X13: on a reachable board where [gameWon] returns false for a colour,
    it still returns false for that colour after any call of [placePeg],
    [removePeg] or [removeBarrier], and after a [placeBarrier] of the other
    colour: only a barrier placed by a colour can make that colour win. *)
Theorem only_own_barrier_wins (b : Board) (o : Op) (c : Player) :
  reachable b → c = R ∨ c = B →
  (∀ p q, o ≠ PlaceBarrier p q c) →
  gameWon b c = Some false →
  gameWon (fst (run b o)) c = Some false.
Proof.
  intros Hr Hc Hno Hlost.
  assert (Hr' : reachable (fst (run b o))) by (by apply reach_step).
  destruct (gameWon_in_spec b c Hr Hc) as (won & Hfuel & Hwon).
  destruct (gameWon_in_spec _ c Hr' Hc) as (won' & Hfuel' & Hwon').
  unfold gameWon in *. rewrite Hfuel' by reflexivity.
  rewrite Hfuel in Hlost by reflexivity. injection Hlost as ->.
  destruct won'; [exfalso | reflexivity].
  assert (false = true); [| discriminate]. apply Hwon.
  apply (winning_path_older b (fst (run b o)) c); auto.
  - by apply reachable_barriers_ok.
  - by apply run_barriers_older.
  - by apply Hwon'.
Qed.

(** After the moves of [red_ladder] but the last barrier Red has not won,
    and still has not after Black places a peg. *)
Lemma only_own_barrier_wins_witness :
  let b := play (take 24 red_ladder) in
  reachable b ∧ (R = R ∨ R = B)
  ∧ (∀ p q, PlacePeg (mkPeg 10 10) B ≠ PlaceBarrier p q R)
  ∧ gameWon b R = Some false
  ∧ gameWon (fst (run b (PlacePeg (mkPeg 10 10) B))) R = Some false.
Proof.
  intros b. assert (Hr : reachable b) by apply play_reachable.
  assert (Hno : ∀ p q, PlacePeg (mkPeg 10 10) B ≠ PlaceBarrier p q R) by discriminate.
  assert (H : gameWon b R = Some false) by (vm_compute; reflexivity).
  split; [exact Hr |]. split; [by left |]. split; [exact Hno |]. split; [exact H |].
  exact (only_own_barrier_wins b _ R Hr (or_introl eq_refl) Hno H).
Defined.

(** ** gameWon on any board *)

(** X14: on every board, reachable or not, the search loop of [gameWon]
    ends within [search_fuel] iterations, so that [gameWon] returns a result
    for every player value; for the none value the result is false. *)
Theorem gameWon_total (b : Board) (player : Player) :
  (∃ won : bool,
     gameWon b player = Some won
     ∧ ∀ fuel, (search_fuel b player ≤ fuel)%nat → gameWon_in fuel b player = Some won)
  ∧ gameWon b X = Some false.
Proof.
  split.
  - destruct (search_terminates b (search_fuel b player) (home_row b player) [])
      as [r Hr]; [apply home_row_keys | unfold search_fuel; lia |].
    exists (reaches_far_row player r).
    assert (Hfuel : ∀ fuel, (search_fuel b player ≤ fuel)%nat →
                            gameWon_in fuel b player = Some (reaches_far_row player r)).
    { intros fuel Hle. unfold gameWon_in.
      by rewrite (search_more_fuel _ _ _ _ _ _ Hr Hle). }
    split; [apply Hfuel; reflexivity | exact Hfuel].
  - reflexivity.
Qed.

(** ** The order of pegs *)

(** X15: [Peg.lt] is a strict total order on pegs (irreflexive, transitive,
    and of two different pegs one is less than the other), [Peg.gt] is its
    converse, and [Peg.equals] holds exactly for equal coordinates. *)
Theorem peg_order (p q r : Peg) :
  PegOps.lt p p = false
  ∧ (PegOps.lt p q = true → PegOps.lt q r = true → PegOps.lt p r = true)
  ∧ (PegOps.lt p q = true ∨ p = q ∨ PegOps.lt q p = true)
  ∧ (PegOps.lt p q = true → PegOps.lt q p = false)
  ∧ PegOps.gt p q = PegOps.lt q p
  ∧ (PegOps.equals p q = true ↔ px p = px q ∧ py p = py q).
Proof.
  split; [apply lt_irrefl |]. split; [| split; [| split; [apply lt_asym | split]]].
  - unfold PegOps.lt. destruct p as [a1 a2], q as [c1 c2], r as [e1 e2]; simpl.
    destruct (Z.eqb_spec a1 c1), (Z.eqb_spec c1 e1), (Z.eqb_spec a1 e1);
      rewrite ?Z.ltb_lt; lia.
  - destruct (decide (p = q)) as [-> | Hne]; [auto |].
    rewrite (lt_flip p q Hne). destruct (PegOps.lt p q); auto.
  - unfold PegOps.gt, PegOps.lt. destruct (Z.eqb_spec (px p) (px q)) as [E | E];
      destruct (Z.eqb_spec (px q) (px p)); try congruence; reflexivity.
  - unfold PegOps.equals. rewrite andb_true_iff, !Z.eqb_eq. reflexivity.
Qed.

(** The pegs (2,9), (3,1) and (3,4). *)
Lemma peg_order_witness :
  PegOps.lt (mkPeg 2 9) (mkPeg 3 1) = true
  ∧ PegOps.lt (mkPeg 3 1) (mkPeg 3 4) = true
  ∧ PegOps.lt (mkPeg 2 9) (mkPeg 3 4) = true.
Proof.
  assert (H1 : PegOps.lt (mkPeg 2 9) (mkPeg 3 1) = true) by reflexivity.
  assert (H2 : PegOps.lt (mkPeg 3 1) (mkPeg 3 4) = true) by reflexivity.
  split; [exact H1 |]. split; [exact H2 |].
  exact (proj1 (proj2 (peg_order (mkPeg 2 9) (mkPeg 3 1) (mkPeg 3 4))) H1 H2).
Defined.

(** ** A colour's calls leave the other colour alone *)

Lemma run_leaves_other (b : Board) (o : Op) :
  op_color o = R ∨ op_color o = B →
  let other := opponent (op_color o) in
  barriers (fst (run b o)) other = barriers b other
  ∧ ∀ k, getPeg (fst (run b o)) k = Some other ↔ getPeg b k = Some other.
Proof.
  intros Hc other. subst other. split.
  - destruct (run_barriers b o) as [[Hr Hb] | (p & q & c & -> & _ & _ & _ & H2)];
      [| exact H2].
    destruct o as [peg c | p1 p2 c | peg c | p1 p2 c]; simpl in *.
    + destruct (snd (placePeg b peg c)) eqn:E.
      * rewrite (placePeg_true_board _ _ _ E). by destruct c.
      * by rewrite (placePeg_false_same _ _ _ E).
    + destruct (snd (placeBarrier b p1 p2 c)) eqn:E.
      * rewrite (placeBarrier_true_board _ _ _ _ E). by destruct c.
      * by rewrite (placeBarrier_false_same _ _ _ _ E).
    + unfold removePeg. case_bool_decide; [| done].
      destruct Hc as [-> | ->]; reflexivity.
    + unfold removeBarrier.
      destruct Hc as [-> | ->]; simpl; destruct (splice_first _ _); reflexivity.
  - intros k. destruct o as [peg c | p1 p2 c | peg c | p1 p2 c]; simpl in *.
    + destruct (snd (placePeg b peg c)) eqn:E; [| by rewrite placePeg_false_same].
      rewrite (placePeg_true_board _ _ _ E). apply placePeg_true in E as [E _].
      destruct (decide (PegOps.asTuple peg = k)) as [<- | Hne].
      * rewrite getPeg_setPeg_same, E. destruct Hc as [-> | ->]; split; discriminate.
      * by rewrite getPeg_setPeg_other.
    + unfold getPeg. by rewrite placeBarrier_pegState.
    + unfold removePeg. case_bool_decide as Hp; [| done]. simpl.
      destruct (decide (PegOps.asTuple peg = k)) as [<- | Hne].
      * case_bool_decide; rewrite (getPeg_setPeg_same (mkBoard _ _ _)), Hp;
          destruct Hc as [-> | ->]; split; discriminate.
      * case_bool_decide; by rewrite (getPeg_setPeg_other (mkBoard _ _ _)).
    + unfold getPeg. by rewrite removeBarrier_pegState.
Qed.

(** X16: on any board, a call of [placePeg], [placeBarrier], [removePeg] or
    [removeBarrier] made for Red or Black leaves the barriers of the other
    colour as they were, and a cell holds the other colour after the call
    exactly when it held it before. *)
Theorem opponent_untouched (b : Board) (o : Op) :
  op_color o = R ∨ op_color o = B →
  let other := opponent (op_color o) in
  barriers (fst (run b o)) other = barriers b other
  ∧ ∀ k, getPeg (fst (run b o)) k = Some other ↔ getPeg b k = Some other.
Proof. exact (run_leaves_other b o). Qed.

(** Red removes a peg that carries a barrier, next to Black pegs. *)
Lemma opponent_untouched_witness :
  let b := play [PlacePeg (mkPeg 2 2) R; PlacePeg (mkPeg 3 4) R;
                 PlacePeg (mkPeg 2 4) B; PlacePeg (mkPeg 4 5) B;
                 PlaceBarrier (mkPeg 2 2) (mkPeg 3 4) R;
                 PlaceBarrier (mkPeg 2 4) (mkPeg 4 5) B] in
  (op_color (RemovePeg (mkPeg 2 2) R) = R ∨ op_color (RemovePeg (mkPeg 2 2) R) = B)
  ∧ snd (run b (RemovePeg (mkPeg 2 2) R)) = true
  ∧ barriers (fst (run b (RemovePeg (mkPeg 2 2) R))) B = barriers b B.
Proof.
  intros b. split; [by left |]. split; [vm_compute; reflexivity |].
  exact (proj1 (opponent_untouched b (RemovePeg (mkPeg 2 2) R) (or_introl eq_refl))).
Defined.

(** ** From canvas coordinates to a peg *)

Lemma Qfloor_unique (q : Q) (n : Z) :
  (inject_Z n <= q)%Q → (q < inject_Z (n + 1))%Q → Qfloor q = n.
Proof.
  intros Hle Hlt.
  pose proof (Qfloor_le q) as H1. pose proof (Qlt_floor q) as H2.
  assert (Ha : (inject_Z (Qfloor q) < inject_Z (n + 1))%Q) by (eapply Qle_lt_trans; eauto).
  assert (Hb : (inject_Z n < inject_Z (Qfloor q + 1))%Q) by (eapply Qle_lt_trans; eauto).
  rewrite <- Zlt_Qlt in Ha, Hb. lia.
Qed.

Lemma Math_round_near (c i : Z) :
  -12 ≤ c - i * 24 < 12 → Math_round (inject_Z c / inject_Z TWIXT_GRID_WIDTH) = i.
Proof.
  intros [Hlo Hhi]. unfold Math_round, TWIXT_GRID_WIDTH. apply Qfloor_unique.
  - assert (H : (inject_Z (i * 24 + -12) <= inject_Z c)%Q) by (rewrite <- Zle_Qle; lia).
    rewrite inject_Z_plus, inject_Z_mult in H.
    change (inject_Z 24) with 24%Q in *. change (inject_Z (-12)) with (-12)%Q in H.
    unfold Qdiv. change (/ 24)%Q with (1 # 24)%Q. lra.
  - assert (H : (inject_Z c < inject_Z (i * 24 + 12))%Q) by (rewrite <- Zlt_Qlt; lia).
    rewrite !inject_Z_plus, inject_Z_mult in *.
    change (inject_Z 24) with 24%Q in *. change (inject_Z 12) with 12%Q in H.
    change (inject_Z 1) with 1%Q. unfold Qdiv. change (/ 24)%Q with (1 # 24)%Q. lra.
Qed.

(** X17: for whole-pixel canvas coordinates that a double holds exactly (up
    to 2^53 - 1 in absolute value), [_canvasToPeg] returns the peg
    (i, j) exactly when the point is at most 10 pixels away from the drawn
    centre (24 i, 24 j) of that peg, and returns null exactly when no peg
    centre is that near; in particular the centre of a peg is mapped back
    to the peg. *)
Theorem canvasToPeg_spec (cx cy : Z) :
  safe_integer cx → safe_integer cy →
  (∀ i j, _canvasToPeg (cx, cy) = Some (mkPeg i j)
          ↔ (cx - 24 * i) ^ 2 + (cy - 24 * j) ^ 2 ≤ 100)
  ∧ (_canvasToPeg (cx, cy) = None
     ↔ ∀ i j, 100 < (cx - 24 * i) ^ 2 + (cy - 24 * j) ^ 2)
  ∧ ∀ i j, cx = 24 * i → cy = 24 * j → _canvasToPeg (cx, cy) = Some (mkPeg i j).
Proof.
  intros _ _.
  assert (Hnear : ∀ x y i j, (x - 24 * i) ^ 2 + (y - 24 * j) ^ 2 ≤ 100 →
                             _canvasToPeg (x, y) = Some (mkPeg i j)).
  { intros x y i j H. unfold _canvasToPeg. cbn [fst snd].
    rewrite (Math_round_near x i), (Math_round_near y j) by nia.
    unfold TWIXT_GRID_WIDTH.
    destruct (Z.leb_spec ((x - i * 24) ^ 2 + (y - j * 24) ^ 2) 100); [reflexivity | nia]. }
  assert (Hsome : ∀ i j, _canvasToPeg (cx, cy) = Some (mkPeg i j) →
                         (cx - 24 * i) ^ 2 + (cy - 24 * j) ^ 2 ≤ 100).
  { intros i j. unfold _canvasToPeg. cbn [fst snd]. unfold TWIXT_GRID_WIDTH.
    destruct (Z.leb_spec ((cx - Math_round (inject_Z cx / inject_Z 24) * 24) ^ 2
                          + (cy - Math_round (inject_Z cy / inject_Z 24) * 24) ^ 2) 100)
      as [Hle | Hgt]; [| discriminate].
    intros [= <- <-]. nia. }
  split; [| split].
  - intros i j. split; [apply Hsome | apply Hnear].
  - split.
    + intros Hnone i j.
      destruct (Z.lt_ge_cases 100 ((cx - 24 * i) ^ 2 + (cy - 24 * j) ^ 2)) as [? | Hle];
        [assumption |].
      rewrite (Hnear cx cy i j) in Hnone by lia. discriminate.
    + intros Hall. destruct (_canvasToPeg (cx, cy)) as [[i j] |] eqn:E; [| reflexivity].
      specialize (Hsome i j eq_refl). specialize (Hall i j). lia.
  - intros i j -> ->. apply Hnear. nia.
Qed.

(** A click at (50, 70) is 2 pixels right of and 2 pixels above the centre
    (48, 72) of the peg (2, 3). *)
Lemma canvasToPeg_spec_witness :
  safe_integer 50 ∧ safe_integer 70 ∧ _canvasToPeg (50, 70) = Some (mkPeg 2 3).
Proof.
  assert (H1 : safe_integer 50) by (unfold safe_integer; lia).
  assert (H2 : safe_integer 70) by (unfold safe_integer; lia).
  split; [exact H1 |]. split; [exact H2 |].
  apply (proj1 (canvasToPeg_spec 50 70 H1 H2)). lia.
Defined.

(** ** The controller *)

Ltac game_simpl :=
  cbn [board currentPlayer gameState currentEndpointPeg movingEndpoint winner page
       set_board set_currentPlayer set_gameState set_drag set_winner set_page] in *.

Lemma gameWon_path (b : Board) (c : Player) :
  reachable b → c = R ∨ c = B →
  (gameWon b c = Some true ↔ winning_path b c)
  ∧ (gameWon b c = Some false ↔ ¬ winning_path b c).
Proof.
  intros Hr Hc. destruct (gameWon_in_spec b c Hr Hc) as (won & Hfuel & Hwon).
  unfold gameWon. rewrite Hfuel by reflexivity. split; split.
  - intros [= ->]. by apply Hwon.
  - intros H. f_equal. by apply Hwon.
  - intros [= ->] H. apply Hwon in H. discriminate.
  - intros H. destruct won; [| reflexivity]. exfalso. apply H. by apply Hwon.
Qed.

Lemma run_no_new_path (b : Board) (o : Op) (c : Player) :
  reachable b → c = R ∨ c = B →
  (∀ p q, o ≠ PlaceBarrier p q c) →
  winning_path (fst (run b o)) c → winning_path b c.
Proof.
  intros Hr Hc Hno. apply winning_path_older; auto.
  - by apply reachable_barriers_ok.
  - by apply run_barriers_older.
Qed.

Lemma new_Board_no_path (c : Player) : c = R ∨ c = B → ¬ winning_path new_Board c.
Proof.
  intros Hc. apply (gameWon_path new_Board c reach_new Hc).
  destruct Hc as [-> | ->]; vm_compute; reflexivity.
Qed.

Lemma setButtonState_layout (s : Z) (pg : Page) :
  length (buttons pg) = 6%nat → 1 ≤ s ≤ 5 →
  ∃ d sel,
    buttons (setButtonState
               (if decide (s = 1) then "ADCCDH" else if decide (s = 2) then "DADDCH"
                else if decide (s = 3) then "CDACDH"
                else if decide (s = 4) then "CDCADH" else "DDDDDC") pg)
    = layout s d sel.
Proof.
  intros Hlen Hs. destruct pg as [bts t1 t2 t3]. cbn [buttons] in *.
  destruct bts as [| b0 [| b1 [| b2 [| b3 [| b4 [| b5 [| ? ?]]]]]]]; try discriminate.
  exists (disabled b5), (current_selection b5).
  unfold layout. repeat case_decide; try lia; reflexivity.
Qed.

Lemma layout_length (s : Z) (d sel : bool) : length (layout s d sel) = 6%nat.
Proof. unfold layout. repeat case_decide; reflexivity. Qed.

Lemma setGameState_board (s : Z) (g : Game) : board (setGameState s g) = board g.
Proof. unfold setGameState. repeat case_decide; reflexivity. Qed.

Lemma setGameState_player (s : Z) (g : Game) :
  currentPlayer (setGameState s g) = currentPlayer g.
Proof. unfold setGameState. repeat case_decide; reflexivity. Qed.

Lemma setGameState_state (s : Z) (g : Game) : gameState (setGameState s g) = s.
Proof. reflexivity. Qed.

Lemma setGameState_winner (s : Z) (g : Game) : winner (setGameState s g) = winner g.
Proof. unfold setGameState. repeat case_decide; reflexivity. Qed.

Lemma setGameState_drag (s : Z) (g : Game) :
  (s = 2 ∨ s = 4 ∨ s = 5 →
   currentEndpointPeg (setGameState s g) = None ∧ movingEndpoint (setGameState s g) = None)
  ∧ (¬ (s = 2 ∨ s = 4 ∨ s = 5) →
     currentEndpointPeg (setGameState s g) = currentEndpointPeg g
     ∧ movingEndpoint (setGameState s g) = movingEndpoint g).
Proof.
  unfold setGameState. split; intros Hs; repeat case_decide; try lia; split; reflexivity.
Qed.

Lemma setGameState_buttons (s : Z) (g : Game) :
  length (buttons (page g)) = 6%nat → 1 ≤ s ≤ 5 →
  ∃ d sel, buttons (page (setGameState s g)) = layout s d sel.
Proof.
  intros Hlen Hs. destruct (setButtonState_layout s (page g) Hlen Hs) as (d & sel & H).
  exists d, sel. rewrite <- H. unfold setGameState.
  repeat case_decide; try lia; reflexivity.
Qed.

Lemma setGameState_info (s : Z) (g : Game) :
  page (setGameState s g) = page (updateInfoDiv (setGameState s g)).
Proof. reflexivity. Qed.

(** Entering one of the modes 1 to 4 of a game that nobody has won. *)
Lemma setGameState_ok (s : Z) (g : Game) :
  1 ≤ s ≤ 4 →
  currentPlayer g = R ∨ currentPlayer g = B →
  reachable (board g) →
  length (buttons (page g)) = 6%nat →
  winner g = None →
  ¬ winning_path (board g) R → ¬ winning_path (board g) B →
  (∀ p, currentEndpointPeg g = Some p → movingEndpoint g ≠ None) →
  game_ok (setGameState s g).
Proof.
  intros Hs Hc Hr Hlen Hw HR HB Hdrag. constructor.
  - rewrite setGameState_state. lia.
  - by rewrite setGameState_player.
  - by rewrite setGameState_board.
  - rewrite setGameState_state. apply setGameState_buttons; [exact Hlen | lia].
  - rewrite setGameState_state. lia.
  - intros _. by rewrite setGameState_winner, setGameState_board.
  - intros p Hp. rewrite setGameState_state.
    destruct (setGameState_drag s g) as [H1 H2].
    destruct (decide (s = 2 ∨ s = 4 ∨ s = 5)) as [Hd | Hd].
    + destruct (H1 Hd) as [E _]. rewrite E in Hp. discriminate.
    + destruct (H2 Hd) as [E1 E2]. rewrite E1 in Hp. rewrite E2.
      split; [by apply (Hdrag p) | lia].
  - apply setGameState_info.
Qed.

Lemma board_change_ok (g : Game) (b' : Board) :
  game_ok g → gameState g ≠ 5 → reachable b' →
  ¬ winning_path b' R → ¬ winning_path b' B →
  (gameState g = 2 ∨ gameState g = 4 → pegState b' = pegState (board g)) →
  game_ok (set_board b' g).
Proof.
  intros [Hs Hc Hr Hb Hov Hop Hd Hi] H5 Hr' HR HB Hpegs.
  constructor; game_simpl; auto.
  - done.
  - intros _. split; [by apply Hop | done].
  - intros p Hp. destruct (Hd p Hp) as [Hm Hown]. split; [exact Hm |].
    intros H24. unfold getPeg. rewrite (Hpegs H24). by apply Hown.
Qed.

Lemma drag_clear_ok (g : Game) : game_ok g → game_ok (set_drag None None g).
Proof.
  intros [Hs Hc Hr Hb Hov Hop Hd Hi]. constructor; game_simpl; auto. discriminate.
Qed.

Lemma drag_set_ok (g : Game) (p : Peg) (m : Q * Q) :
  game_ok g → getPeg (board g) (PegOps.asTuple p) = Some (currentPlayer g) →
  game_ok (set_drag (Some p) (Some m) g).
Proof.
  intros [Hs Hc Hr Hb Hov Hop Hd Hi] Hown. constructor; game_simpl; auto.
  intros q [= <-]. split; [discriminate | auto].
Qed.

Lemma drag_move_ok (g : Game) (m : Q * Q) :
  game_ok g → game_ok (set_drag (currentEndpointPeg g) (Some m) g).
Proof.
  intros [Hs Hc Hr Hb Hov Hop Hd Hi]. constructor; game_simpl; auto.
  intros q Hq. split; [discriminate | by apply Hd].
Qed.

Lemma initialize_ok (pg : Page) : length (buttons pg) = 6%nat → game_ok (initialize pg).
Proof.
  intros Hlen. unfold initialize.
  apply setGameState_ok; game_simpl;
    first [ lia | discriminate | apply reach_new | apply new_Board_no_path; auto | auto ].
Qed.

Lemma game_ok_length (g : Game) : game_ok g → length (buttons (page g)) = 6%nat.
Proof. intros [_ _ _ (d & sel & ->) _ _ _ _]. apply layout_length. Qed.

Lemma endTurn_ok (g : Game) : game_ok g → gameState g ≠ 5 → game_ok (endTurn g).
Proof.
  intros Hok H5. pose proof (game_ok_length g Hok) as Hlen.
  destruct Hok as [Hs Hc Hr Hb Hov Hop Hd Hi].
  destruct (Hop H5) as (Hw & HR & HB).
  unfold endTurn. apply setGameState_ok; game_simpl; auto.
  - lia.
  - case_decide; auto.
  - intros p Hp. by apply (Hd p).
Qed.

Lemma click_state_ok (s : Z) (g : Game) :
  game_ok g → gameState g ≠ 5 → 1 ≤ s ≤ 4 → game_ok (setGameState s g).
Proof.
  intros Hok H5 Hs. pose proof (game_ok_length g Hok) as Hlen.
  destruct Hok as [_ Hc Hr Hb Hov Hop Hd Hi].
  destruct (Hop H5) as (Hw & HR & HB).
  apply setGameState_ok; auto. intros p Hp. by apply (Hd p).
Qed.

(** A board call that is not a barrier of the colour [c] makes no path. *)
Lemma no_path_after (g : Game) (o : Op) (c : Player) :
  game_ok g → gameState g ≠ 5 → c = R ∨ c = B →
  (∀ p q, o ≠ PlaceBarrier p q c) →
  ¬ winning_path (fst (run (board g) o)) c.
Proof.
  intros [Hs Hc Hr Hb Hov Hop Hd Hi] H5 Hcc Hno Hpath.
  destruct (Hop H5) as (_ & HR & HB).
  apply (run_no_new_path _ _ _ Hr Hcc Hno) in Hpath.
  destruct Hcc as [-> | ->]; contradiction.
Qed.

Lemma board_call_ok (g : Game) (o : Op) :
  game_ok g → gameState g ≠ 5 →
  (∀ p q c, o ≠ PlaceBarrier p q c) →
  (gameState g = 2 ∨ gameState g = 4 →
   pegState (fst (run (board g) o)) = pegState (board g)) →
  game_ok (set_board (fst (run (board g) o)) g).
Proof.
  intros Hok H5 Hno Hpegs. apply board_change_ok; auto.
  - apply reach_step. by destruct Hok.
  - apply no_path_after; auto.
  - apply no_path_after; auto.
Qed.

(** The game after a barrier of the player to move that made a path. *)
Lemma win_ok (g : Game) (b' : Board) :
  game_ok g → gameState g ≠ 5 → reachable b' →
  winning_path b' (currentPlayer g) →
  ¬ winning_path b' (opponent (currentPlayer g)) →
  game_ok (setGameState 5 (set_winner (Some (currentPlayer g)) (set_board b' g))).
Proof.
  intros Hok H5 Hr' Hwin Hopp. pose proof (game_ok_length g Hok) as Hlen.
  destruct Hok as [Hs Hc Hr Hb Hov Hop Hd Hi].
  constructor.
  - rewrite setGameState_state. lia.
  - by rewrite setGameState_player.
  - by rewrite setGameState_board.
  - rewrite setGameState_state. apply setGameState_buttons; [exact Hlen | lia].
  - intros _. by rewrite setGameState_winner, setGameState_player, setGameState_board.
  - rewrite setGameState_state. done.
  - intros p Hp.
    destruct (setGameState_drag 5 (set_winner (Some (currentPlayer g)) (set_board b' g)))
      as [[E _] _]; [lia |].
    rewrite E in Hp. discriminate.
  - apply setGameState_info.
Qed.

Lemma set_board_same (g : Game) : set_board (board g) g = g.
Proof. by destruct g. Qed.

Lemma onmouseup_ok (e : MouseEvent) (g : Game) : game_ok g → game_ok (onmouseup e g).
Proof.
  intros Hok. unfold onmouseup.
  case_decide as H1; [| case_decide as H2; [| case_decide as H3; [| case_decide as H4]]].
  - destruct (on_peg e) as [peg |]; [| exact Hok].
    assert (Hb : game_ok (set_board (fst (placePeg (board g) peg (currentPlayer g))) g)).
    { apply (board_call_ok g (PlacePeg peg (currentPlayer g))); auto; lia. }
    cbn zeta. destruct (snd (placePeg (board g) peg (currentPlayer g))); [| exact Hb].
    apply click_state_ok; [exact Hb | game_simpl; lia | lia].
  - apply drag_clear_ok.
    destruct (on_peg e) as [peg |]; [| exact Hok].
    destruct (currentEndpointPeg g) as [endpoint |]; [| exact Hok].
    cbn zeta. game_simpl.
    set (b' := fst (placeBarrier (board g) endpoint peg (currentPlayer g))).
    assert (Hr' : reachable b').
    { apply (reach_step (board g) (PlaceBarrier endpoint peg (currentPlayer g))).
      by destruct Hok. }
    assert (Hopp : ¬ winning_path b' (opponent (currentPlayer g))).
    { apply (no_path_after g (PlaceBarrier endpoint peg (currentPlayer g)));
        [exact Hok | lia | |].
      - destruct Hok as [_ [-> | ->] _ _ _ _ _ _]; auto.
      - intros p q [= _ _ E]. destruct Hok as [_ [Hc | Hc] _ _ _ _ _ _];
          rewrite Hc in E; discriminate. }
    assert (Hkeep : ¬ winning_path b' (currentPlayer g) → game_ok (set_board b' g)).
    { intros Hno. apply board_change_ok; [exact Hok | lia | exact Hr' | | |].
      - destruct Hok as [_ [Hc | Hc] _ _ _ _ _ _]; rewrite Hc in *; auto.
      - destruct Hok as [_ [Hc | Hc] _ _ _ _ _ _]; rewrite Hc in *; auto.
      - intros _. apply placeBarrier_pegState. }
    destruct (snd (placeBarrier (board g) endpoint peg (currentPlayer g))) eqn:Hsucc.
    + assert (Hcur : currentPlayer g = R ∨ currentPlayer g = B) by (by destruct Hok).
      destruct (gameWon_path b' (currentPlayer g) Hr' Hcur) as [Hwin Hlost].
      case_decide as Hw.
      * apply Hwin in Hw. apply (win_ok g b' Hok ltac:(lia) Hr' Hw Hopp).
      * apply Hkeep. intros Hp. apply Hw. by apply Hwin.
    + apply Hkeep. subst b'. rewrite (placeBarrier_false_same _ _ _ _ Hsucc).
      destruct Hok as [_ Hc _ _ _ Hop _ _]. destruct (Hop ltac:(lia)) as (_ & HR & HB).
      destruct Hc as [-> | ->]; auto.
  - destruct (on_peg e) as [peg |]; [| exact Hok].
    apply (board_call_ok g (RemovePeg peg (currentPlayer g))); auto; lia.
  - apply drag_clear_ok.
    destruct (on_peg e) as [peg |]; [| exact Hok].
    destruct (currentEndpointPeg g) as [endpoint |]; [| exact Hok].
    apply (board_call_ok g (RemoveBarrier endpoint peg (currentPlayer g))); auto; [lia |].
    intros _. apply removeBarrier_pegState.
  - exact Hok.
Qed.

Lemma onmousedown_ok (e : MouseEvent) (g : Game) : game_ok g → game_ok (onmousedown e g).
Proof.
  intros Hok. unfold onmousedown. destruct (on_peg e) as [peg |].
  - repeat case_decide; try destruct (_ <? _)%nat; auto using drag_set_ok.
  - repeat case_decide; exact Hok.
Qed.

Lemma onmousemove_ok (e : MouseEvent) (g : Game) : game_ok g → game_ok (onmousemove e g).
Proof.
  intros Hok. unfold onmousemove. repeat case_decide; auto using drag_move_ok.
Qed.

(** Which buttons take a click in which mode. *)
Lemma layout_clickable (s : Z) (d sel : bool) (i : nat) (bt : Button) :
  1 ≤ s ≤ 5 → layout s d sel !! i = Some bt →
  (visible bt && negb (disabled bt) = true
   ↔ (s = 2 ∧ (i = 1 ∨ i = 4)%nat) ∨ (s = 5 ∧ i = 5%nat)
     ∨ ((s = 1 ∨ s = 3 ∨ s = 4) ∧ (i = 0 ∨ i = 2 ∨ i = 3)%nat)).
Proof.
  intros Hs. assert (Hcase : s = 1 ∨ s = 2 ∨ s = 3 ∨ s = 4 ∨ s = 5) by lia.
  destruct Hcase as [-> | [-> | [-> | [-> | ->]]]];
    unfold layout; repeat case_decide; try lia;
    do 6 (destruct i as [| i];
          [intros [= <-]; cbn; split; intros Hside; first [reflexivity | discriminate | lia] |]);
    cbn; discriminate.
Qed.

Lemma clickable_spec (g : Game) (i : nat) :
  game_ok g →
  (clickable g i = true
   ↔ (gameState g = 2 ∧ (i = 1 ∨ i = 4)%nat) ∨ (gameState g = 5 ∧ i = 5%nat)
     ∨ ((gameState g = 1 ∨ gameState g = 3 ∨ gameState g = 4)
        ∧ (i = 0 ∨ i = 2 ∨ i = 3)%nat)).
Proof.
  intros Hok. pose proof (ok_state _ Hok) as Hs.
  destruct (ok_buttons _ Hok) as (d & sel & Hb). unfold clickable. rewrite Hb.
  destruct (layout (gameState g) d sel !! i) as [bt |] eqn:E.
  - by apply (layout_clickable _ d sel).
  - apply lookup_ge_None in E. rewrite layout_length in E.
    split; [discriminate | lia].
Qed.

Lemma act_ok (g : Game) (a : Action) : game_ok g → game_ok (act g a).
Proof.
  intros Hok. destruct a as [e | e | e | i]; cbn [act].
  - by apply onmousedown_ok.
  - by apply onmouseup_ok.
  - by apply onmousemove_ok.
  - destruct (clickable g i) eqn:Hcl; [| exact Hok].
    apply (clickable_spec g i Hok) in Hcl.
    destruct Hcl as [[Hs [-> | ->]] | [[Hs ->] | [Hs [-> | [-> | ->]]]]]; cbn [onclick].
    + apply click_state_ok; auto; lia.
    + apply endTurn_ok; auto; lia.
    + apply initialize_ok. by apply game_ok_length.
    + apply click_state_ok; auto; lia.
    + apply click_state_ok; auto; lia.
    + apply click_state_ok; auto; lia.
Qed.

Lemma playable_ok (g : Game) : playable g → game_ok g.
Proof.
  induction 1 as [pg Hlen | g a _ IH]; [by apply initialize_ok | by apply act_ok].
Qed.

Lemma session_playable (pg : Page) (actions : list Action) :
  length (buttons pg) = 6%nat → playable (session pg actions).
Proof.
  intros Hlen. unfold session.
  assert (H : playable (initialize pg)) by (by constructor).
  revert H. generalize (initialize pg).
  induction actions as [| a l IH]; intros g Hg; [exact Hg |].
  cbn [foldl]. apply IH. by constructor.
Qed.

Lemma onmousedown_fields (e : MouseEvent) (g : Game) :
  board (onmousedown e g) = board g
  ∧ currentPlayer (onmousedown e g) = currentPlayer g
  ∧ gameState (onmousedown e g) = gameState g
  ∧ winner (onmousedown e g) = winner g.
Proof.
  unfold onmousedown. destruct (on_peg e);
    repeat case_decide; try destruct (_ <? _)%nat; auto.
Qed.

Lemma onmousemove_fields (e : MouseEvent) (g : Game) :
  board (onmousemove e g) = board g
  ∧ currentPlayer (onmousemove e g) = currentPlayer g
  ∧ gameState (onmousemove e g) = gameState g
  ∧ winner (onmousemove e g) = winner g.
Proof. unfold onmousemove. repeat case_decide; auto. Qed.

Ltac break_ifs :=
  repeat match goal with
         | |- context [if ?c then _ else _] => destruct c
         | |- context [match ?c with Some _ => _ | None => _ end] => destruct c
         end.


(** The board after a mouse button release is the board after one call
    made for the player to move, or the same board. *)
Lemma onmouseup_board (e : MouseEvent) (g : Game) :
  board (onmouseup e g) = board g
  ∨ ∃ o, op_color o = currentPlayer g ∧ board (onmouseup e g) = fst (run (board g) o).
Proof.
  unfold onmouseup. cbn zeta.
  case_decide; [| case_decide; [| case_decide; [| case_decide]]].
  - destruct (on_peg e) as [peg |]; [| by left].
    right. exists (PlacePeg peg (currentPlayer g)). split; [reflexivity |].
    break_ifs; rewrite ?setGameState_board; reflexivity.
  - destruct (on_peg e) as [peg |]; [| by left].
    destruct (currentEndpointPeg g) as [endpoint |]; [| by left].
    right. exists (PlaceBarrier endpoint peg (currentPlayer g)). split; [reflexivity |].
    game_simpl. break_ifs; game_simpl; rewrite ?setGameState_board; reflexivity.
  - destruct (on_peg e) as [peg |]; [| by left].
    right. by exists (RemovePeg peg (currentPlayer g)).
  - destruct (on_peg e) as [peg |]; [| by left].
    destruct (currentEndpointPeg g) as [endpoint |]; [| by left].
    right. by exists (RemoveBarrier endpoint peg (currentPlayer g)).
  - by left.
Qed.

Lemma act_board (g : Game) (a : Action) :
  game_ok g → gameState g ≠ 5 →
  board (act g a) = board g
  ∨ ∃ o, op_color o = currentPlayer g ∧ board (act g a) = fst (run (board g) o).
Proof.
  intros Hok H5. destruct a as [e | e | e | i]; cbn [act].
  - left. apply onmousedown_fields.
  - apply onmouseup_board.
  - left. apply onmousemove_fields.
  - left. destruct (clickable g i) eqn:Hcl; [| reflexivity].
    apply (clickable_spec g i Hok) in Hcl.
    destruct Hcl as [[Hs [-> | ->]] | [[Hs ->] | [Hs [-> | [-> | ->]]]]]; cbn [onclick];
      try contradiction; unfold endTurn; by rewrite setGameState_board.
Qed.

(** ** What the controller keeps true *)

(** X18: in every game a user can get to, the mode is one of 1 to 5, the
    player to move is Red or Black, the page has its six buttons, and the
    board is one that the calls of [placePeg], [placeBarrier], [removePeg]
    and [removeBarrier] make from a fresh board, so that everything proved
    of reachable boards holds of the board on the screen. *)
Theorem game_board_reachable (g : Game) :
  playable g →
  1 ≤ gameState g ≤ 5
  ∧ (currentPlayer g = R ∨ currentPlayer g = B)
  ∧ length (buttons (page g)) = 6%nat
  ∧ reachable (board g).
Proof.
  intros Hp. pose proof (playable_ok g Hp) as Hok.
  split; [apply Hok |]. split; [apply Hok |].
  split; [by apply game_ok_length | apply Hok].
Qed.

(** After Red's first barrier it is Black's turn to place a peg. *)
Lemma game_board_reachable_witness :
  let g := session sample_page (take 8 sample_game) in
  playable g ∧ gameState g = 1 ∧ currentPlayer g = B ∧ reachable (board g).
Proof.
  intros g. assert (Hp : playable g) by (by apply session_playable).
  split; [exact Hp |]. split; [vm_compute; reflexivity |]. split; [vm_compute; reflexivity |].
  exact (proj2 (proj2 (proj2 (game_board_reachable g Hp)))).
Defined.

(** X19: in every game a user can get to, the buttons that take a click
    are: in the modes place peg, remove peg and remove barrier the buttons
    place peg, remove peg and remove barrier; in the mode place barrier
    the buttons place barrier and end turn; when the game is over the
    button new game only.  Of the first five buttons the one that carries
    the class current-selection is the one of the current mode, none when
    the game is over, and the button new game is visible exactly when the
    game is over. *)
Theorem buttons_follow_mode (g : Game) (i : nat) :
  playable g →
  (clickable g i = true
   ↔ (gameState g = 2 ∧ (i = 1 ∨ i = 4)%nat) ∨ (gameState g = 5 ∧ i = 5%nat)
     ∨ ((gameState g = 1 ∨ gameState g = 3 ∨ gameState g = 4)
        ∧ (i = 0 ∨ i = 2 ∨ i = 3)%nat))
  ∧ ∀ bt, buttons (page g) !! i = Some bt →
          ((i < 5)%nat →
           visible bt = true
           ∧ (current_selection bt = true ↔ Z.of_nat i + 1 = gameState g ∧ gameState g ≠ 5))
          ∧ (i = 5%nat → (visible bt = true ↔ gameState g = 5)).
Proof.
  intros Hp. pose proof (playable_ok g Hp) as Hok.
  split; [by apply clickable_spec |].
  pose proof (ok_state _ Hok) as Hs.
  destruct (ok_buttons _ Hok) as (d & sel & ->).
  assert (Hcase : gameState g = 1 ∨ gameState g = 2 ∨ gameState g = 3
                  ∨ gameState g = 4 ∨ gameState g = 5) by lia.
  clear Hs. intros bt.
  destruct Hcase as [-> | [-> | [-> | [-> | ->]]]];
    unfold layout; repeat case_decide; try lia;
    do 6 (destruct i as [| i];
          [intros [= <-]; cbn; split; intros Hi; try lia;
           repeat split; intros; first [reflexivity | discriminate | lia] |]);
    cbn; discriminate.
Qed.

(** In the mode place barrier the button end turn takes a click. *)
Lemma buttons_follow_mode_witness :
  let g := session sample_page (take 7 sample_game) in
  playable g ∧ gameState g = 2 ∧ clickable g 4 = true.
Proof.
  intros g. assert (Hp : playable g) by (by apply session_playable).
  assert (Hs : gameState g = 2) by (vm_compute; reflexivity).
  split; [exact Hp |]. split; [exact Hs |].
  apply (proj1 (buttons_follow_mode g 4 Hp)). left. split; [exact Hs | by right].
Defined.

(** X20: in every game a user can get to, the game is over (mode 5)
    exactly when [gameWon] is true for Red or for Black on the board of the
    game; a winner is recorded exactly when the game is over, and it is the
    player to move, for whom [gameWon] is true while it is false for the
    other colour.  So a game goes on only while nobody has won, and stops at
    the first barrier that wins. *)
Theorem game_over_iff_won (g : Game) :
  playable g →
  (gameState g = 5
   ↔ gameWon (board g) R = Some true ∨ gameWon (board g) B = Some true)
  ∧ (∀ c, winner g = Some c ↔ gameState g = 5 ∧ c = currentPlayer g)
  ∧ (gameState g = 5 →
     gameWon (board g) (currentPlayer g) = Some true
     ∧ gameWon (board g) (opponent (currentPlayer g)) = Some false)
  ∧ (gameState g ≠ 5 →
     gameWon (board g) R = Some false ∧ gameWon (board g) B = Some false).
Proof.
  intros Hp. destruct (playable_ok g Hp) as [Hs Hc Hr Hb Hov Hop Hd Hi].
  pose proof (gameWon_path (board g) R Hr (or_introl eq_refl)) as [HR1 HR0].
  pose proof (gameWon_path (board g) B Hr (or_intror eq_refl)) as [HB1 HB0].
  assert (Hlast : gameState g ≠ 5 →
                  gameWon (board g) R = Some false ∧ gameWon (board g) B = Some false).
  { intros H5. destruct (Hop H5) as (_ & HR & HB).
    split; [by apply HR0 | by apply HB0]. }
  assert (Hwon : gameState g = 5 →
                 gameWon (board g) (currentPlayer g) = Some true
                 ∧ gameWon (board g) (opponent (currentPlayer g)) = Some false).
  { intros H5. destruct (Hov H5) as (_ & Hw & Hl).
    destruct Hc as [Hc | Hc]; rewrite Hc in *; cbn [opponent] in *;
      split; first [by apply HR1 | by apply HB1 | by apply HR0 | by apply HB0]. }
  split; [| split; [| split; [exact Hwon | exact Hlast]]].
  - split.
    + intros H5. destruct (Hwon H5) as [Hw _].
      destruct Hc as [Hc | Hc]; rewrite Hc in Hw; auto.
    + intros Hw. destruct (decide (gameState g = 5)) as [| H5]; [assumption |].
      destruct (Hlast H5) as [HR HB]. destruct Hw as [Hw | Hw]; congruence.
  - intros c. split.
    + intros Hw. destruct (decide (gameState g = 5)) as [H5 | H5].
      * destruct (Hov H5) as (Hw' & _). split; [exact H5 | congruence].
      * destruct (Hop H5) as (Hw' & _). congruence.
    + intros [H5 ->]. by apply Hov.
Qed.

(** At the end of [sample_game] the game is over and Red has won. *)
Lemma game_over_iff_won_witness :
  let g := session sample_page sample_game in
  playable g ∧ gameState g = 5 ∧ winner g = Some R
  ∧ gameWon (board g) B = Some false.
Proof.
  intros g. assert (Hp : playable g) by (by apply session_playable).
  assert (Hs : gameState g = 5) by (vm_compute; reflexivity).
  assert (Hc : currentPlayer g = R) by (vm_compute; reflexivity).
  destruct (game_over_iff_won g Hp) as (_ & Hw & Hwon & _).
  split; [exact Hp |]. split; [exact Hs |]. split.
  - apply Hw. split; [exact Hs | by rewrite Hc].
  - destruct (Hwon Hs) as [_ H]. by rewrite Hc in H.
Defined.

(** X21: when the game is over, in a game a user can get to, pressing,
    releasing or moving the mouse on the canvas and clicking any button but
    new game change nothing at all; a click on new game gives a fresh
    board, mode 1, Red to move and no winner.  While the game is not over a
    click on new game changes nothing. *)
Theorem game_over_is_final (g : Game) :
  playable g →
  (gameState g = 5 →
   (∀ a, a ≠ Click 5 → act g a = g)
   ∧ board (act g (Click 5)) = new_Board
   ∧ gameState (act g (Click 5)) = 1
   ∧ currentPlayer (act g (Click 5)) = R
   ∧ winner (act g (Click 5)) = None)
  ∧ (gameState g ≠ 5 → act g (Click 5) = g).
Proof.
  intros Hp. pose proof (playable_ok g Hp) as Hok.
  pose proof (clickable_spec g) as Hcl. split.
  - intros H5. split.
    + intros [e | e | e | i] Ha; cbn [act].
      * unfold onmousedown. repeat case_decide; try lia; reflexivity.
      * unfold onmouseup. repeat case_decide; try lia; reflexivity.
      * unfold onmousemove. repeat case_decide; try lia; reflexivity.
      * destruct (clickable g i) eqn:E; [| reflexivity].
        apply (Hcl i Hok) in E. assert (i = 5%nat) as -> by lia. contradiction.
    + assert (E : clickable g 5 = true) by (apply (Hcl 5%nat Hok); lia).
      cbn [act onclick]. rewrite E. unfold initialize.
      rewrite setGameState_board, setGameState_player, setGameState_winner.
      repeat split.
  - intros H5. cbn [act]. destruct (clickable g 5) eqn:E; [| reflexivity].
    apply (Hcl 5%nat Hok) in E. lia.
Qed.

(** After [sample_game] a mouse click on a free hole changes nothing. *)
Lemma game_over_is_final_witness :
  let g := session sample_page sample_game in
  playable g ∧ gameState g = 5 ∧ act g (MouseUp (at_peg 10 10)) = g.
Proof.
  intros g. assert (Hp : playable g) by (by apply session_playable).
  assert (Hs : gameState g = 5) by (vm_compute; reflexivity).
  split; [exact Hp |]. split; [exact Hs |].
  apply (proj1 (proj1 (game_over_is_final g Hp) Hs)). discriminate.
Defined.



(** ** The order of a turn *)



(** X23: while the game is not over, in a game a user can get to, an
    action changes the board by at most one call of [placePeg],
    [placeBarrier], [removePeg] or [removeBarrier] made for the player to
    move; so no action changes the barriers of the other player, and a hole
    holds a peg of the other player after the action exactly when it did
    before. *)
Theorem actions_are_own_calls (g : Game) (a : Action) :
  playable g → gameState g ≠ 5 →
  let other := opponent (currentPlayer g) in
  (board (act g a) = board g
   ∨ ∃ o, op_color o = currentPlayer g ∧ board (act g a) = fst (run (board g) o))
  ∧ barriers (board (act g a)) other = barriers (board g) other
  ∧ ∀ k, getPeg (board (act g a)) k = Some other ↔ getPeg (board g) k = Some other.
Proof.
  intros Hp H5 other. subst other. pose proof (playable_ok g Hp) as Hok.
  pose proof (act_board g a Hok H5) as Hb. split; [exact Hb |].
  destruct Hb as [-> | (o & Ho & ->)]; [done |].
  rewrite <- Ho. apply run_leaves_other. rewrite Ho. apply Hok.
Qed.

(** Black cannot remove the peg that Red has placed. *)
Lemma actions_are_own_calls_witness :
  let g := session sample_page (take 2 sample_game ++ [Click 2]) in
  let a := MouseUp (at_peg 2 1) in
  playable g ∧ gameState g = 3 ∧ currentPlayer g = B
  ∧ getPeg (board (act g a)) (2, 1) = Some R.
Proof.
  intros g a. assert (Hp : playable g) by (by apply session_playable).
  assert (Hs : gameState g = 3) by (vm_compute; reflexivity).
  assert (Hc : currentPlayer g = B) by (vm_compute; reflexivity).
  assert (H5 : gameState g ≠ 5) by (rewrite Hs; discriminate).
  assert (Hpeg : getPeg (board g) (2, 1) = Some R) by (vm_compute; reflexivity).
  split; [exact Hp |]. split; [exact Hs |]. split; [exact Hc |].
  destruct (actions_are_own_calls g a Hp H5) as (_ & _ & Hk).
  rewrite Hc in Hk. by apply Hk.
Defined.

(** ** What the page says *)

(** X24: in every game a user can get to, the line player-info names the
    winner when the game is over and the player to move otherwise, in that
    player's colour, and the line state-info is the text of the current
    mode; neither is ever left undefined. *)
Theorem info_follows_state (g : Game) :
  playable g →
  player_text (page g)
  = Some (if decide (gameState g = 5)
          then (if decide (currentPlayer g = R)
                then "Red Player Wins!" else "Black Player Wins!")
          else (if decide (currentPlayer g = R)
                then "Red Player's Turn" else "Black Player's Turn"))
  ∧ player_color (page g)
    = Some (if decide (currentPlayer g = R) then COLORS_red else COLORS_black)
  ∧ state_text (page g)
    = Some (if decide (gameState g = 1) then "Click on an empty space to place a peg."
            else if decide (gameState g = 2)
            then "Click and drag between two pegs to place a barrier."
            else if decide (gameState g = 3) then "Click on a peg to remove it."
            else if decide (gameState g = 4)
            then "Click and drag between two pegs to remove the barrier between them."
            else "Game over!").
Proof.
  intros Hp. destruct (playable_ok g Hp) as [Hs Hc Hr Hb Hov Hop Hd Hi].
  rewrite Hi. unfold updateInfoDiv. cbn [page set_page player_text player_color state_text].
  destruct (decide (gameState g = 5)) as [H5 | H5].
  - destruct (Hov H5) as (Hw & _). rewrite Hw.
    destruct Hc as [-> | ->]; repeat case_decide; try congruence; try lia; auto.
  - destruct (Hop H5) as (Hw & _). rewrite Hw.
    destruct Hc as [-> | ->]; repeat case_decide; try congruence; try lia; auto.
Qed.

(** At the end of [sample_game] the page says that Red has won. *)
Lemma info_follows_state_witness :
  let g := session sample_page sample_game in
  playable g ∧ player_text (page g) = Some "Red Player Wins!".
Proof.
  intros g. assert (Hp : playable g) by (by apply session_playable).
  split; [exact Hp |].
  rewrite (proj1 (info_follows_state g Hp)). vm_compute. reflexivity.
Defined.

(** ** The barrier that is being dragged *)

(** X25: in every game a user can get to, whenever [currentEndpointPeg] is
    set, [movingEndpoint] is set too, which is what [renderBoard] reads
    then; and in the modes place barrier and remove barrier the peg where
    the drag started holds the colour of the player to move.  Outside these
    two modes a drag can be left over: one started in the mode remove
    barrier is still set after a click on the button place peg. *)
Theorem drag_has_moving_end :
  (∀ g p, playable g → currentEndpointPeg g = Some p →
          movingEndpoint g ≠ None
          ∧ (gameState g = 2 ∨ gameState g = 4 →
             getPeg (board g) (PegOps.asTuple p) = Some (currentPlayer g)))
  ∧ ∃ g, playable g ∧ gameState g = 1 ∧ currentEndpointPeg g = Some (mkPeg 2 1).
Proof.
  split.
  - intros g p Hp. apply (ok_drag _ (playable_ok g Hp)).
  - exists (session sample_page
              (take 10 sample_game ++ [Click 3; MouseDown (at_peg 2 1); Click 0])).
    split; [by apply session_playable |]. split; vm_compute; reflexivity.
Qed.

(** Red starts to drag a barrier from the first peg. *)
Lemma drag_has_moving_end_witness :
  let g := session sample_page (take 5 sample_game ++ [MouseDown (at_peg 2 1)]) in
  playable g ∧ currentEndpointPeg g = Some (mkPeg 2 1) ∧ movingEndpoint g ≠ None.
Proof.
  intros g. assert (Hp : playable g) by (by apply session_playable).
  assert (He : currentEndpointPeg g = Some (mkPeg 2 1)) by (vm_compute; reflexivity).
  split; [exact Hp |]. split; [exact He |].
  exact (proj1 (proj1 drag_has_moving_end g (mkPeg 2 1) Hp He)).
Defined.
